(** * openscope: waypoint model and navigation library

    A shallow embedding of

    - [src/assets/scripts/client/aircraft/FlightManagementSystem/WaypointModel.js]
      (module [Lenient] below: bearing and distance return a default on a
      vector waypoint),
    - the later revision of the same class kept in [unnamed/part_001]
      (module [Strict] below: bearing and distance throw; module [StrictHold]
      for its hold methods),
    - the [NavigationLibrary] class that follows [WaypointModel] in the first
      file (module [Navigation] below), and
    - the emptiness helpers kept in [unnamed/part_002] (module [EmptyHelpers]
      below),

    together with the properties of them that the specification states and
    further properties that the code shows.

    JavaScript strings are modelled by [string], read as sequences of code
    units below 256.  Numbers obtained from [parseInt] are mathematical
    integers or [NaN]; the source holds them in IEEE doubles, which agree with
    the integers up to 2^53.  Headings in radians are real numbers. *)

From Stdlib Require Import ZArith String Ascii List Reals Lra Lia.
From stdpp Require Import gmap strings list sorting.

Local Open Scope Z_scope.

(** ** JavaScript values used by the two classes *)

(** Result of [parseInt]: an integer, or [NaN] when no digit could be read. *)
Inductive JsNumber :=
| Num (z : Z)
| NaN.

(** [a * b] on numbers. *)
Definition jsMul (a b : JsNumber) : JsNumber :=
  match a, b with
  | Num x, Num y => Num (x * y)
  | _, _ => NaN
  end.

(** [a !== b] on numbers; [NaN] differs from everything. *)
Definition jsStrictNotEqual (a b : JsNumber) : bool :=
  match a, b with
  | Num x, Num y => negb (x =? y)
  | _, _ => true
  end.

(** [a < b] and [a > b] on numbers; false when either side is [NaN]. *)
Definition jsLessThan (a b : JsNumber) : bool :=
  match a, b with
  | Num x, Num y => x <? y
  | _, _ => false
  end.

Definition jsGreaterThan (a b : JsNumber) : bool := jsLessThan b a.

(** A number that need not be an integer: a real, or [NaN]. *)
Inductive JsReal :=
| RNum (r : R)
| RNaN.

(** Modelled from the spec: [INVALID_INDEX] and [INVALID_NUMBER] of
    [constants/globalConstants], which is not among the sources.  The
    specification gives -1 as the sentinel of an unset bound; [indexOf]
    answers -1 for a character that does not occur. *)
Definition INVALID_INDEX : Z := -1.
Definition INVALID_NUMBER : JsNumber := Num (-1).

(** Modelled from the spec: [degreesToRadians] of [utilities/unitConverters],
    which is not among the sources: the heading "converted to radians". *)
Definition degreesToRadians (degrees : JsNumber) : JsReal :=
  match degrees with
  | Num d => RNum (IZR d * PI / 180)%R
  | NaN => RNaN
  end.

(** The [TypeError]s thrown by the code, one constructor per [throw]
    statement, and [NotAFunction] / [NullDereference] for the errors the
    runtime raises itself. *)
Inductive TypeError :=
| ExpectedValidData
| ExpectedRestrictedFix
| ExpectedRestrictionPrefix (received : option ascii)
| ExpectedKnownFix (name : string)
| ExpectedWaypointModelInstance
| ExpectedNonVectorWaypoints
| ExpectedSingleAirway (airwayName : string)
| ExpectedSingleProcedure (procedureId : string)
| NotAFunction
| NullDereference
| Collaborator (tag : string).

(** ** String primitives *)

Module JsString.

(** [s.indexOf(c)] for a one-character [c], counting from [i]. *)
Fixpoint indexOfFrom (c : ascii) (s : string) (i : Z) : Z :=
  match s with
  | EmptyString => -1
  | String a s' => if Ascii.eqb a c then i else indexOfFrom c s' (i + 1)
  end.

Definition indexOf (c : ascii) (s : string) : Z := indexOfFrom c s 0.

(** [s.replace(c, '')] for a one-character string pattern [c]: only the
    first occurrence is replaced. *)
Fixpoint replace (c : ascii) (s : string) : string :=
  match s with
  | EmptyString => EmptyString
  | String a s' => if Ascii.eqb a c then s' else String a (replace c s')
  end.

(** [s.split(c)] for a one-character separator. *)
Fixpoint split (c : ascii) (s : string) : list string :=
  match s with
  | EmptyString => [EmptyString]
  | String a s' =>
      if Ascii.eqb a c then EmptyString :: split c s'
      else match split c s' with
           | [] => [String a EmptyString]
           | piece :: pieces => String a piece :: pieces
           end
  end.

(** [s[0]]; [None] is [undefined]. *)
Definition first (s : string) : option ascii :=
  match s with
  | EmptyString => None
  | String a _ => Some a
  end.

(** [s.substr(1)]. *)
Definition substr1 (s : string) : string :=
  match s with
  | EmptyString => EmptyString
  | String _ s' => s'
  end.

(** [_isEmpty(s)] on a string. *)
Definition isEmpty (s : string) : bool :=
  match s with
  | EmptyString => true
  | String _ _ => false
  end.


(** White space that [parseInt] skips, among code units below 256:
    TAB, LF, VT, FF, CR, SP and NBSP. *)
Definition isWhiteSpace (a : ascii) : bool :=
  let n := Z.of_N (N_of_ascii a) in
  ((9 <=? n) && (n <=? 13)) || (n =? 32) || (n =? 160).

Fixpoint trimStart (s : string) : string :=
  match s with
  | EmptyString => EmptyString
  | String a s' => if isWhiteSpace a then trimStart s' else s
  end.

Definition digitValue (a : ascii) : option Z :=
  let n := Z.of_N (N_of_ascii a) in
  if (48 <=? n) && (n <=? 57) then Some (n - 48) else None.

(** Value of the longest prefix of decimal digits, continuing from [acc]. *)
Fixpoint parseDigits (acc : Z) (s : string) : Z :=
  match s with
  | EmptyString => acc
  | String a s' =>
      match digitValue a with
      | Some d => parseDigits (acc * 10 + d) s'
      | None => acc
      end
  end.

Definition startsWithDigit (s : string) : bool :=
  match s with
  | EmptyString => false
  | String a _ => match digitValue a with Some _ => true | None => false end
  end.

(** [parseInt(s, 10)]: skip white space, read one optional sign, read the
    longest run of digits; [NaN] when that run is empty.  The restriction
    methods pass the literal 10; [getVector] passes [DECIMAL_RADIX] of
    [utilities/unitConverters], which is not among the sources and is base 10
    by the specification. *)
Definition parseInt (s : string) : JsNumber :=
  let trimmed := trimStart s in
  let '(sign, rest) :=
    match trimmed with
    | String "-"%char r => (-1, r)
    | String "+"%char r => (1, r)
    | _ => (1, trimmed)
    end in
  if startsWithDigit rest then Num (sign * parseDigits 0 rest) else NaN.

End JsString.

(** ** Outcomes of methods that mutate [this] and may throw *)

(** A method either returns a value or throws; in both cases the receiver is
    left in some state, which is kept. *)
Inductive Outcome (S A : Type) :=
| Return (a : A) (s : S)
| Throw (e : TypeError) (s : S).
Arguments Return {S A} a s.
Arguments Throw {S A} e s.

Definition Method (S A : Type) : Type := S -> Outcome S A.

Definition throw {S A} (e : TypeError) : Method S A := fun s => Throw e s.
Definition modify {S} (f : S -> S) : Method S unit := fun s => Return tt (f s).

(** Sequencing of statements: [m ;; k] and [x ← m; k] run [k] only when [m]
    has returned. *)
#[global] Instance Method_ret {S} : MRet (Method S) :=
  fun A (a : A) s => Return a s.
#[global] Instance Method_bind {S} : MBind (Method S) :=
  fun A B (k : A -> Method S B) (m : Method S A) s =>
    match m s with
    | Return a s' => k a s'
    | Throw e s' => Throw e s'
    end.

Definition finalState {S A} (o : Outcome S A) : S :=
  match o with
  | Return _ s => s
  | Throw _ s => s
  end.

Definition hasThrown {S A} (o : Outcome S A) : bool :=
  match o with
  | Return _ _ => false
  | Throw _ _ => true
  end.

(** Completion of an expression that leaves no object behind when it throws:
    a call that does not mutate, or [new C(...)]. *)
Inductive Completion (A : Type) :=
| Normal (a : A)
| Thrown (e : TypeError).
Arguments Normal {A} a.
Arguments Thrown {A} e.

#[global] Instance Completion_ret : MRet Completion := fun A (a : A) => Normal a.
#[global] Instance Completion_bind : MBind Completion :=
  fun A B (k : A -> Completion B) (c : Completion A) =>
    match c with
    | Normal a => k a
    | Thrown e => Thrown e
    end.

(** [new C(data)]: the object, unless the constructor body threw. *)
Definition construct {S} (o : Outcome S unit) : Completion S :=
  match o with
  | Return _ s => Normal s
  | Throw e _ => Thrown e
  end.

(** ** The waypoint object *)

Inductive LegLength :=
| LegNumber (n : Z)
| LegText (s : string).

(** [_holdParameters]: [inboundHeading] may be [undefined]. *)
Record HoldParameters := {
  inboundHeading : option R;
  legLength : LegLength;
  timer : JsNumber;
  turnDirection : string
}.

(** What [WaypointModel] imports and is not among the sources: the position
    class, the fix collection's lookup (null, here [None], for an unknown
    name), the two geometric methods of a position (their argument may be
    null), and the constants of [constants/waypointConstants]. *)
Class WaypointCollaborators := {
  StaticPositionModel : Type;
  getPositionModelForFixName : string -> option StaticPositionModel;
  bearingToPosition :
    StaticPositionModel -> option StaticPositionModel -> Completion JsReal;
  distanceToPosition :
    StaticPositionModel -> option StaticPositionModel -> Completion JsReal;
  DEFAULT_HOLD_PARAMETERS : HoldParameters;
  RNAV_WAYPOINT_DISPLAY_NAME : string;
  RNAV_WAYPOINT_PREFIX : ascii
}.

(** The instance properties of [WaypointModel], the same in both revisions.
    [_holdParameters] and [_positionModel] may be null. *)
Record WaypointModel `{WaypointCollaborators} := {
  altitudeMaximum : JsNumber;
  altitudeMinimum : JsNumber;
  speedMaximum : JsNumber;
  speedMinimum : JsNumber;
  _holdParameters : option HoldParameters;
  _isFlyOverWaypoint : bool;
  _isHoldWaypoint : bool;
  _isVectorWaypoint : bool;
  _name : string;
  _positionModel : option StaticPositionModel
}.

(** What the constructor is given: a string, an array (of strings, as the
    route parser produces them), or any other value. *)
Inductive WaypointData :=
| DataString (s : string)
| DataArray (items : list string)
| DataOther.

(** An argument of [calculateBearingToWaypoint] and
    [calculateDistanceToWaypoint]: a [WaypointModel] instance or any other
    value. *)
Inductive Argument `{WaypointCollaborators} :=
| ArgWaypoint (w : WaypointModel)
| ArgOther.

Section WaypointFields.
Context `{WaypointCollaborators}.

(** Assignments to one property of [this]. *)
Definition set_altitudeMaximum (v : JsNumber) (w : WaypointModel) : WaypointModel :=
  {| altitudeMaximum := v; altitudeMinimum := altitudeMinimum w;
     speedMaximum := speedMaximum w; speedMinimum := speedMinimum w;
     _holdParameters := _holdParameters w;
     _isFlyOverWaypoint := _isFlyOverWaypoint w;
     _isHoldWaypoint := _isHoldWaypoint w;
     _isVectorWaypoint := _isVectorWaypoint w;
     _name := _name w; _positionModel := _positionModel w |}.

Definition set_altitudeMinimum (v : JsNumber) (w : WaypointModel) : WaypointModel :=
  {| altitudeMaximum := altitudeMaximum w; altitudeMinimum := v;
     speedMaximum := speedMaximum w; speedMinimum := speedMinimum w;
     _holdParameters := _holdParameters w;
     _isFlyOverWaypoint := _isFlyOverWaypoint w;
     _isHoldWaypoint := _isHoldWaypoint w;
     _isVectorWaypoint := _isVectorWaypoint w;
     _name := _name w; _positionModel := _positionModel w |}.

Definition set_speedMaximum (v : JsNumber) (w : WaypointModel) : WaypointModel :=
  {| altitudeMaximum := altitudeMaximum w; altitudeMinimum := altitudeMinimum w;
     speedMaximum := v; speedMinimum := speedMinimum w;
     _holdParameters := _holdParameters w;
     _isFlyOverWaypoint := _isFlyOverWaypoint w;
     _isHoldWaypoint := _isHoldWaypoint w;
     _isVectorWaypoint := _isVectorWaypoint w;
     _name := _name w; _positionModel := _positionModel w |}.

Definition set_speedMinimum (v : JsNumber) (w : WaypointModel) : WaypointModel :=
  {| altitudeMaximum := altitudeMaximum w; altitudeMinimum := altitudeMinimum w;
     speedMaximum := speedMaximum w; speedMinimum := v;
     _holdParameters := _holdParameters w;
     _isFlyOverWaypoint := _isFlyOverWaypoint w;
     _isHoldWaypoint := _isHoldWaypoint w;
     _isVectorWaypoint := _isVectorWaypoint w;
     _name := _name w; _positionModel := _positionModel w |}.

Definition set_holdParameters (v : option HoldParameters) (w : WaypointModel)
  : WaypointModel :=
  {| altitudeMaximum := altitudeMaximum w; altitudeMinimum := altitudeMinimum w;
     speedMaximum := speedMaximum w; speedMinimum := speedMinimum w;
     _holdParameters := v;
     _isFlyOverWaypoint := _isFlyOverWaypoint w;
     _isHoldWaypoint := _isHoldWaypoint w;
     _isVectorWaypoint := _isVectorWaypoint w;
     _name := _name w; _positionModel := _positionModel w |}.

Definition set_isFlyOverWaypoint (v : bool) (w : WaypointModel) : WaypointModel :=
  {| altitudeMaximum := altitudeMaximum w; altitudeMinimum := altitudeMinimum w;
     speedMaximum := speedMaximum w; speedMinimum := speedMinimum w;
     _holdParameters := _holdParameters w;
     _isFlyOverWaypoint := v;
     _isHoldWaypoint := _isHoldWaypoint w;
     _isVectorWaypoint := _isVectorWaypoint w;
     _name := _name w; _positionModel := _positionModel w |}.

Definition set_isHoldWaypoint (v : bool) (w : WaypointModel) : WaypointModel :=
  {| altitudeMaximum := altitudeMaximum w; altitudeMinimum := altitudeMinimum w;
     speedMaximum := speedMaximum w; speedMinimum := speedMinimum w;
     _holdParameters := _holdParameters w;
     _isFlyOverWaypoint := _isFlyOverWaypoint w;
     _isHoldWaypoint := v;
     _isVectorWaypoint := _isVectorWaypoint w;
     _name := _name w; _positionModel := _positionModel w |}.

Definition set_isVectorWaypoint (v : bool) (w : WaypointModel) : WaypointModel :=
  {| altitudeMaximum := altitudeMaximum w; altitudeMinimum := altitudeMinimum w;
     speedMaximum := speedMaximum w; speedMinimum := speedMinimum w;
     _holdParameters := _holdParameters w;
     _isFlyOverWaypoint := _isFlyOverWaypoint w;
     _isHoldWaypoint := _isHoldWaypoint w;
     _isVectorWaypoint := v;
     _name := _name w; _positionModel := _positionModel w |}.

Definition set_name (v : string) (w : WaypointModel) : WaypointModel :=
  {| altitudeMaximum := altitudeMaximum w; altitudeMinimum := altitudeMinimum w;
     speedMaximum := speedMaximum w; speedMinimum := speedMinimum w;
     _holdParameters := _holdParameters w;
     _isFlyOverWaypoint := _isFlyOverWaypoint w;
     _isHoldWaypoint := _isHoldWaypoint w;
     _isVectorWaypoint := _isVectorWaypoint w;
     _name := v; _positionModel := _positionModel w |}.

Definition set_positionModel (v : option StaticPositionModel) (w : WaypointModel)
  : WaypointModel :=
  {| altitudeMaximum := altitudeMaximum w; altitudeMinimum := altitudeMinimum w;
     speedMaximum := speedMaximum w; speedMinimum := speedMinimum w;
     _holdParameters := _holdParameters w;
     _isFlyOverWaypoint := _isFlyOverWaypoint w;
     _isHoldWaypoint := _isHoldWaypoint w;
     _isVectorWaypoint := _isVectorWaypoint w;
     _name := _name w; _positionModel := v |}.

(** [fixName.indexOf(c) !== INVALID_INDEX]. *)
Definition hasMarker (c : ascii) (fixName : string) : bool :=
  negb (JsString.indexOf c fixName =? INVALID_INDEX).

(** Two states of a waypoint that differ in the four bounds at most. *)
Definition sameButBounds (w after : WaypointModel) : Prop :=
  _holdParameters after = _holdParameters w
  /\ _isFlyOverWaypoint after = _isFlyOverWaypoint w
  /\ _isHoldWaypoint after = _isHoldWaypoint w
  /\ _isVectorWaypoint after = _isVectorWaypoint w
  /\ _name after = _name w
  /\ _positionModel after = _positionModel w.

End WaypointFields.

(** ** [WaypointModel.js] *)

Module Lenient.
Section Methods.
Context `{WaypointCollaborators}.

Local Abbreviation method := (Method WaypointModel unit).

(** The property assignments at the head of the constructor. *)
Definition initialProperties : WaypointModel :=
  {| altitudeMaximum := Num (-1);
     altitudeMinimum := Num (-1);
     speedMaximum := Num (-1);
     speedMinimum := Num (-1);
     _holdParameters := None;
     _isFlyOverWaypoint := false;
     _isHoldWaypoint := false;
     _isVectorWaypoint := false;
     _name := "";
     _positionModel := None |}.

Definition hasAltitudeRestriction (w : WaypointModel) : bool :=
  jsStrictNotEqual (altitudeMaximum w) INVALID_NUMBER
  || jsStrictNotEqual (altitudeMinimum w) INVALID_NUMBER.

Definition hasSpeedRestriction (w : WaypointModel) : bool :=
  jsStrictNotEqual (speedMaximum w) INVALID_NUMBER
  || jsStrictNotEqual (speedMinimum w) INVALID_NUMBER.

Definition hasRestriction (w : WaypointModel) : bool :=
  hasAltitudeRestriction w || hasSpeedRestriction w.

(** Getter [holdParameters]; the outer [None] is [undefined]. *)
Definition holdParameters (w : WaypointModel) : option (option HoldParameters) :=
  if negb (_isHoldWaypoint w) then None else Some (_holdParameters w).

Definition isFlyOverWaypoint (w : WaypointModel) : bool := _isFlyOverWaypoint w.
Definition isHoldWaypoint (w : WaypointModel) : bool := _isHoldWaypoint w.
Definition isVectorWaypoint (w : WaypointModel) : bool := _isVectorWaypoint w.

(** Getter [name]. *)
Definition name (w : WaypointModel) : string :=
  if negb (JsString.indexOf RNAV_WAYPOINT_PREFIX (_name w) =? INVALID_INDEX)
  then RNAV_WAYPOINT_DISPLAY_NAME
  else _name w.

Definition positionModel (w : WaypointModel) : option StaticPositionModel :=
  _positionModel w.

Definition _initFlyOverWaypoint : method :=
  modify (set_isFlyOverWaypoint true).

Definition _initHoldWaypoint : method :=
  modify (set_isHoldWaypoint true) ;;
  modify (set_holdParameters
            (Some {| inboundHeading := None;
                     legLength := LegNumber 1;
                     timer := INVALID_NUMBER;
                     turnDirection := "right" |})).

Definition _initVectorWaypoint : method :=
  modify (set_isVectorWaypoint true).

Definition _initSpecialWaypoint (fixName : string) : method :=
  if negb (JsString.indexOf "^" fixName =? INVALID_INDEX) then
    _initFlyOverWaypoint
  else if negb (JsString.indexOf "@" fixName =? INVALID_INDEX) then
    _initHoldWaypoint
  else if negb (JsString.indexOf "#" fixName =? INVALID_INDEX) then
    _initVectorWaypoint
  else mret tt.

Definition _applyAltitudeRestriction (restriction : string) : method :=
  let altitude := jsMul (JsString.parseInt restriction) (Num 100) in
  if negb (JsString.indexOf "+" restriction =? -1) then
    modify (set_altitudeMinimum altitude)
  else if negb (JsString.indexOf "-" restriction =? -1) then
    modify (set_altitudeMaximum altitude)
  else
    modify (set_altitudeMaximum altitude) ;;
    modify (set_altitudeMinimum altitude).

Definition _applySpeedRestriction (restriction : string) : method :=
  let speed := JsString.parseInt restriction in
  if negb (JsString.indexOf "+" restriction =? -1) then
    modify (set_speedMinimum speed)
  else if negb (JsString.indexOf "-" restriction =? -1) then
    modify (set_speedMaximum speed)
  else
    modify (set_speedMaximum speed) ;;
    modify (set_speedMinimum speed).

(** One turn of the loop of [_applyRestrictions]. *)
Definition applyRestriction (restriction : string) : method :=
  let prefix := JsString.first restriction in
  if bool_decide (prefix = Some "A"%char) then
    _applyAltitudeRestriction (JsString.substr1 restriction)
  else if bool_decide (prefix = Some "S"%char) then
    _applySpeedRestriction (JsString.substr1 restriction)
  else throw (ExpectedRestrictionPrefix prefix).

Fixpoint applyRestrictionCollection (restrictionCollection : list string) : method :=
  match restrictionCollection with
  | [] => mret tt
  | restriction :: rest =>
      applyRestriction restriction ;; applyRestrictionCollection rest
  end.

Definition _applyRestrictions (restrictions : string) : method :=
  if JsString.isEmpty restrictions then mret tt
  else applyRestrictionCollection (JsString.split "|" restrictions).

Definition _initializePosition : method :=
  fun this =>
    if _isVectorWaypoint this then Return tt this
    else
      match getPositionModelForFixName (_name this) with
      | None => Throw (ExpectedKnownFix (_name this)) this
      | Some fixPosition => Return tt (set_positionModel (Some fixPosition) this)
      end.

(** The head of [init]: [fixName] and [restrictions] read off [data].  A
    value that is not a string has no [replace] method. *)
Definition initArguments (data : WaypointData) : Completion (string * string) :=
  match data with
  | DataString fixName => Normal (fixName, "")
  | DataArray [fixName; restrictions] => Normal (fixName, restrictions)
  | DataArray _ => Thrown ExpectedRestrictedFix
  | DataOther => Thrown NotAFunction
  end.

Definition init (data : WaypointData) : method :=
  match initArguments data with
  | Thrown e => throw e
  | Normal (fixName, restrictions) =>
      modify (set_name (JsString.replace "^" (JsString.replace "@" fixName))) ;;
      _initSpecialWaypoint fixName ;;
      _applyRestrictions restrictions ;;
      _initializePosition
  end.

(** [new WaypointModel(data)]. *)
Definition new (data : WaypointData) : Completion WaypointModel :=
  match data with
  | DataOther => Thrown ExpectedValidData
  | _ => construct (init data initialProperties)
  end.

Definition reset (this : WaypointModel) : WaypointModel :=
  set_positionModel None
    (set_name ""
       (set_isVectorWaypoint false
          (set_isHoldWaypoint false
             (set_isFlyOverWaypoint false
                (set_holdParameters None
                   (set_speedMinimum (Num (-1))
                      (set_speedMaximum (Num (-1))
                         (set_altitudeMinimum (Num (-1))
                            (set_altitudeMaximum (Num (-1)) this))))))))).

(** [undefined] is [None]. *)
Definition calculateBearingToWaypoint (this : WaypointModel) (waypointModel : Argument)
  : Completion (option JsReal) :=
  match waypointModel with
  | ArgOther => Normal None
  | ArgWaypoint other =>
      if _isVectorWaypoint this || isVectorWaypoint other then Normal None
      else
        match _positionModel this with
        | None => Thrown NullDereference
        | Some position =>
            match bearingToPosition position (positionModel other) with
            | Normal bearing => Normal (Some bearing)
            | Thrown e => Thrown e
            end
        end
  end.

Definition calculateDistanceToWaypoint (this : WaypointModel) (waypointModel : Argument)
  : Completion JsReal :=
  match waypointModel with
  | ArgOther => Normal (RNum 0)
  | ArgWaypoint other =>
      if _isVectorWaypoint this || isVectorWaypoint other then Normal (RNum 0)
      else
        match _positionModel this with
        | None => Thrown NullDereference
        | Some position => distanceToPosition position (positionModel other)
        end
  end.

(** [undefined] is [None]. *)
Definition getVector (this : WaypointModel) : option JsReal :=
  if negb (_isVectorWaypoint this) then None
  else
    let fixNameWithOutPoundSign := JsString.replace "#" (_name this) in
    let headingInDegrees := JsString.parseInt fixNameWithOutPoundSign in
    let headingInRadians := degreesToRadians headingInDegrees in
    Some headingInRadians.

Definition hasMaximumAltitudeBelow (this : WaypointModel) (altitude : JsNumber) : bool :=
  jsStrictNotEqual (altitudeMaximum this) INVALID_NUMBER
  && jsLessThan (altitudeMaximum this) altitude.

Definition hasMinimumAltitudeAbove (this : WaypointModel) (altitude : JsNumber) : bool :=
  jsStrictNotEqual (altitudeMinimum this) INVALID_NUMBER
  && jsGreaterThan (altitudeMinimum this) altitude.

Definition setHoldParametersAndArmHold
  (inboundHeading : option R) (turnDirection : string) (legLength : LegLength)
  (this : WaypointModel) : WaypointModel :=
  set_holdParameters
    (Some {| inboundHeading := inboundHeading;
             legLength := legLength;
             timer := INVALID_NUMBER;
             turnDirection := turnDirection |})
    (set_isHoldWaypoint true this).

End Methods.
End Lenient.

(** ** The revision of [WaypointModel] in [unnamed/part_001] *)

(** Getters and the methods [_initFlyOverWaypoint], [_initVectorWaypoint],
    [_applyAltitudeRestriction], [_applySpeedRestriction],
    [_applyRestrictions], [getVector], [hasMaximumAltitudeBelow] and
    [hasMinimumAltitudeAbove] are the same text in both revisions and are
    taken from [Lenient]; what differs is defined here. *)
Module Strict.
Section Methods.
Context `{WaypointCollaborators}.

Local Abbreviation method := (Method WaypointModel unit).

(** The property assignments at the head of the constructor;
    [Object.assign({}, DEFAULT_HOLD_PARAMETERS)] is a fresh copy. *)
Definition initialProperties : WaypointModel :=
  {| altitudeMaximum := Num (-1);
     altitudeMinimum := Num (-1);
     speedMaximum := Num (-1);
     speedMinimum := Num (-1);
     _holdParameters := Some DEFAULT_HOLD_PARAMETERS;
     _isFlyOverWaypoint := false;
     _isHoldWaypoint := false;
     _isVectorWaypoint := false;
     _name := "";
     _positionModel := None |}.

Definition _initHoldWaypoint : method :=
  modify (set_isHoldWaypoint true).

Definition _initSpecialWaypoint (fixName : string) : method :=
  if negb (JsString.indexOf "^" fixName =? INVALID_INDEX) then
    Lenient._initFlyOverWaypoint
  else if negb (JsString.indexOf "@" fixName =? INVALID_INDEX) then
    _initHoldWaypoint
  else if negb (JsString.indexOf "#" fixName =? INVALID_INDEX) then
    Lenient._initVectorWaypoint
  else mret tt.

(** [!fixPosition] holds of null. *)
Definition _initializePosition : method :=
  fun this =>
    if _isVectorWaypoint this then Return tt this
    else
      match getPositionModelForFixName (_name this) with
      | None => Throw (ExpectedKnownFix (_name this)) this
      | Some fixPosition => Return tt (set_positionModel (Some fixPosition) this)
      end.

Definition init (data : WaypointData) : method :=
  match Lenient.initArguments data with
  | Thrown e => throw e
  | Normal (fixName, restrictions) =>
      modify (set_name (JsString.replace "^" (JsString.replace "@" fixName))) ;;
      _initSpecialWaypoint fixName ;;
      Lenient._applyRestrictions restrictions ;;
      _initializePosition
  end.

(** [new WaypointModel(data)]. *)
Definition new (data : WaypointData) : Completion WaypointModel :=
  match data with
  | DataOther => Thrown ExpectedValidData
  | _ => construct (init data initialProperties)
  end.

Definition reset (this : WaypointModel) : WaypointModel :=
  set_positionModel None
    (set_name ""
       (set_isVectorWaypoint false
          (set_isHoldWaypoint false
             (set_isFlyOverWaypoint false
                (set_holdParameters (Some DEFAULT_HOLD_PARAMETERS)
                   (set_speedMinimum (Num (-1))
                      (set_speedMaximum (Num (-1))
                         (set_altitudeMinimum (Num (-1))
                            (set_altitudeMaximum (Num (-1)) this))))))))).

Definition activateHold (this : WaypointModel) : WaypointModel :=
  set_isHoldWaypoint true this.

Definition deactivateHold (this : WaypointModel) : WaypointModel :=
  set_isHoldWaypoint false this.

Definition _ensureNonVectorWaypointsForThisAndWaypoint
  (this : WaypointModel) (waypointModel : Argument) : Completion unit :=
  match waypointModel with
  | ArgOther => Thrown ExpectedWaypointModelInstance
  | ArgWaypoint other =>
      if _isVectorWaypoint this || Lenient.isVectorWaypoint other
      then Thrown ExpectedNonVectorWaypoints
      else Normal tt
  end.

(** [waypointModel.positionModel], read once the argument is known to be a
    [WaypointModel]. *)
Definition argumentPositionModel (waypointModel : Argument)
  : option StaticPositionModel :=
  match waypointModel with
  | ArgWaypoint other => Lenient.positionModel other
  | ArgOther => None
  end.

Definition calculateBearingToWaypoint (this : WaypointModel) (waypointModel : Argument)
  : Completion JsReal :=
  _ensureNonVectorWaypointsForThisAndWaypoint this waypointModel ;;
  match _positionModel this with
  | None => Thrown NullDereference
  | Some position => bearingToPosition position (argumentPositionModel waypointModel)
  end.

Definition calculateDistanceToWaypoint (this : WaypointModel) (waypointModel : Argument)
  : Completion JsReal :=
  _ensureNonVectorWaypointsForThisAndWaypoint this waypointModel ;;
  match _positionModel this with
  | None => Thrown NullDereference
  | Some position => distanceToPosition position (argumentPositionModel waypointModel)
  end.

End Methods.
End Strict.

(** ** Waypoints that differ in the hold parameters alone *)

Section WaypointFrames.
Context `{WaypointCollaborators}.

(** Two waypoints that agree on every property but [_holdParameters]. *)
Definition sameButHoldParameters (w w' : WaypointModel) : Prop :=
  altitudeMaximum w = altitudeMaximum w'
  /\ altitudeMinimum w = altitudeMinimum w'
  /\ speedMaximum w = speedMaximum w'
  /\ speedMinimum w = speedMinimum w'
  /\ _isFlyOverWaypoint w = _isFlyOverWaypoint w'
  /\ _isHoldWaypoint w = _isHoldWaypoint w'
  /\ _isVectorWaypoint w = _isVectorWaypoint w'
  /\ _name w = _name w'
  /\ _positionModel w = _positionModel w'.

End WaypointFrames.

(** ** The hold methods of the revision in [unnamed/part_001] *)

(** The getter [holdParameters] has the same text in both revisions and is
    taken from [Lenient]. *)
Module StrictHold.
Section Methods.
Context `{WaypointCollaborators}.

(** The argument of [setHoldParameters]: an object in which each of the four
    keys is absent ([None]) or present with a value of the kind that
    [HoldParameters] has for it.  [Object.assign] skips an argument that is
    null or [undefined], which is the argument without keys here; keys other
    than the four are left out. *)
Record Patch := {
  patch_inboundHeading : option (option R);
  patch_legLength : option LegLength;
  patch_timer : option JsNumber;
  patch_turnDirection : option string
}.

(** [Object.assign({}, current, patch)]: the keys of the patch win. *)
Definition assign (current : HoldParameters) (patch : Patch) : HoldParameters :=
  {| inboundHeading := default (inboundHeading current) (patch_inboundHeading patch);
     legLength := default (legLength current) (patch_legLength patch);
     timer := default (timer current) (patch_timer patch);
     turnDirection := default (turnDirection current) (patch_turnDirection patch) |}.

(** [Object.assign({}, null, patch)]: the keys of the patch alone.  The
    result is a parameters object when the patch has all four keys; an object
    that lacks a key is outside [HoldParameters]. *)
Definition fromPatch (patch : Patch) : option HoldParameters :=
  match patch_inboundHeading patch, patch_legLength patch,
        patch_timer patch, patch_turnDirection patch with
  | Some heading, Some leg, Some time, Some direction =>
      Some {| inboundHeading := heading; legLength := leg;
              timer := time; turnDirection := direction |}
  | _, _, _, _ => None
  end.

(** [setHoldParameters]; [None] when the result lacks a key (see
    [fromPatch]), which needs null parameters to begin with. *)
Definition setHoldParameters (patch : Patch) (this : WaypointModel)
  : option WaypointModel :=
  match _holdParameters this with
  | Some current => Some (set_holdParameters (Some (assign current patch)) this)
  | None =>
      match fromPatch patch with
      | Some parameters => Some (set_holdParameters (Some parameters) this)
      | None => None
      end
  end.

Definition setHoldParametersAndActivateHold (patch : Patch) (this : WaypointModel)
  : option WaypointModel :=
  match setHoldParameters patch this with
  | Some after => Some (Strict.activateHold after)
  | None => None
  end.

(** Assignment to [this._holdParameters.timer]; null has no properties. *)
Definition assignTimer (value : JsNumber) (this : WaypointModel)
  : Completion WaypointModel :=
  match _holdParameters this with
  | None => Thrown NullDereference
  | Some current =>
      Normal (set_holdParameters
                (Some {| inboundHeading := inboundHeading current;
                         legLength := legLength current;
                         timer := value;
                         turnDirection := turnDirection current |})
                this)
  end.

Definition resetHoldTimer (this : WaypointModel) : Completion WaypointModel :=
  assignTimer (timer DEFAULT_HOLD_PARAMETERS) this.

(** The argument of [setHoldTimer]: a number as [HoldParameters] holds it
    ([NaN] is one), or a value of another type. *)
Inductive ExpirationTime :=
| TimeNumber (seconds : JsNumber)
| TimeOther.

(** How [setHoldTimer] can end: the waypoint with its timer set, the
    [TypeError] of its own type check, or an error of the runtime. *)
Inductive TimerOutcome :=
| TimerSet (this : WaypointModel)
| ExpectedNumber
| TimerThrown (e : TypeError).

Definition setHoldTimer (expirationTime : ExpirationTime) (this : WaypointModel)
  : TimerOutcome :=
  match expirationTime with
  | TimeOther => ExpectedNumber
  | TimeNumber seconds =>
      match assignTimer seconds this with
      | Normal after => TimerSet after
      | Thrown e => TimerThrown e
      end
  end.

(** The states a waypoint of this revision can be in: those the constructor
    returns and those a method leaves, whether it returns or throws. *)
Inductive Reachable : WaypointModel -> Prop :=
| reach_new data w :
    Strict.new data = Normal w -> Reachable w
| reach_init data w :
    Reachable w -> Reachable (finalState (Strict.init data w))
| reach_reset w :
    Reachable w -> Reachable (Strict.reset w)
| reach_activateHold w :
    Reachable w -> Reachable (Strict.activateHold w)
| reach_deactivateHold w :
    Reachable w -> Reachable (Strict.deactivateHold w)
| reach_setHoldParameters patch w after :
    Reachable w -> setHoldParameters patch w = Some after -> Reachable after
| reach_setHoldParametersAndActivateHold patch w after :
    Reachable w -> setHoldParametersAndActivateHold patch w = Some after ->
    Reachable after
| reach_resetHoldTimer w after :
    Reachable w -> resetHoldTimer w = Normal after -> Reachable after
| reach_setHoldTimer expirationTime w after :
    Reachable w -> setHoldTimer expirationTime w = TimerSet after ->
    Reachable after.

End Methods.
End StrictHold.

(** ** States of a waypoint of [WaypointModel.js] *)

Module LenientStates.
Section States.
Context `{WaypointCollaborators}.

(** The states a waypoint of this revision can be in: those the constructor
    returns and those a method leaves, whether it returns or throws. *)
Inductive Reachable : WaypointModel -> Prop :=
| reached_by_new data w :
    Lenient.new data = Normal w -> Reachable w
| reached_by_init data w :
    Reachable w -> Reachable (finalState (Lenient.init data w))
| reached_by_reset w :
    Reachable w -> Reachable (Lenient.reset w)
| reached_by_setHoldParametersAndArmHold heading direction leg w :
    Reachable w ->
    Reachable (Lenient.setHoldParametersAndArmHold heading direction leg w).

End States.
End LenientStates.

(** ** The emptiness helpers of [unnamed/part_002] *)

Module EmptyHelpers.

(** The values the helpers are given.  An array is its items, a plain object
    and a function are their own enumerable string keys.  Maps, sets,
    array-like objects (argument lists, typed arrays, buffers, objects with a
    [splice] method) and prototype objects, which [_isEmpty] treats apart,
    are left out. *)
#[warnings="-register-all"] Inductive JsValue :=
| VUndefined
| VNull
| VBoolean (b : bool)
| VNumber (n : JsNumber)
| VString (s : string)
| VArray (items : list JsValue)
| VObject (keys : list string)
| VFunction (keys : list string).

(** [_isObject]: [typeof] is [object] or [function], and the value is not
    null. *)
Definition _isObject (value : JsValue) : bool :=
  match value with
  | VArray _ | VObject _ | VFunction _ => true
  | _ => false
  end.

Definition _isArray (value : JsValue) : bool :=
  match value with
  | VArray _ => true
  | _ => false
  end.

(** [_isEmpty]: null and undefined are empty; an array or a string is empty
    when its length is zero; any other value is empty when it has no own
    enumerable key, which holds of every number and boolean. *)
Definition _isEmpty (value : JsValue) : bool :=
  match value with
  | VUndefined | VNull => true
  | VBoolean _ | VNumber _ => true
  | VString s => JsString.isEmpty s
  | VArray items => bool_decide (length items = 0%nat)
  | VObject keys | VFunction keys => bool_decide (length keys = 0%nat)
  end.

Definition isEmptyObject (value : JsValue) : bool :=
  _isObject value && _isEmpty value.

Definition isEmptyObjectOrArray (value : JsValue) : bool :=
  negb (_isObject value) || _isEmpty value || _isArray value.

Definition isEmptyOrNotArray (value : JsValue) : bool :=
  negb (_isArray value) || _isEmpty value.

End EmptyHelpers.

(** ** [NavigationLibrary] *)

(** Modelled from the spec: [PROCEDURE_TYPE] of [constants/routeConstants],
    which is not among the sources: the type tag of a procedure, SID or
    STAR. *)
Inductive PROCEDURE_TYPE :=
| SID
| STAR.

#[global] Instance PROCEDURE_TYPE_eq_dec : EqDecision PROCEDURE_TYPE.
Proof. solve_decision. Defined.

(** A fix name as the collections hold it: a string, or [undefined]
    ([None]). *)
Definition FixName : Type := option string.

(** What [airwayModel.fixNameCollection] and
    [procedureModel.getAllFixNamesInUse()] give: an array of fix names, or a
    value that is not an array. *)
Inductive FixGroup :=
| GroupArray (fixNames : list FixName)
| GroupValue (fixName : FixName).

(** The classes [NavigationLibrary] imports and that are not among the
    sources, and the parts of the airport file it hands to them unread. *)
Class NavigationTypes := {
  ReferencePoint : Type;      (* [position] and [magnetic_north] *)
  ReferencePosition : Type;   (* a [StaticPositionModel] *)
  FixDefinitions : Type;      (* [fixes] *)
  ProcedureDefinition : Type; (* an entry of [sids] or [stars] *)
  FixModel : Type;
  RelativePosition : Type;    (* [kilometersNorth, kilometersEast] *)
  FixCollection : Type;       (* the state of the [FixCollection] singleton *)
  AirwayModel : Type;
  ProcedureModel : Type
}.

(** The airport file.  [airways], [sids] and [stars] are the entries of the
    three objects in the order in which [_forEach] visits them.  The keys of
    one object are distinct; the loops are modelled for every sequence of
    entries, and a key may well stand both among the SIDs and the STARs. *)
Record AirportJson `{NavigationTypes} := {
  referencePoint : ReferencePoint;
  fixes : FixDefinitions;
  airways : list (string * list string);
  sids : list (string * ProcedureDefinition);
  stars : list (string * ProcedureDefinition)
}.

(** The instance properties of [NavigationLibrary]. *)
Record NavigationLibrary `{NavigationTypes} := {
  _airwayCollection : gmap string AirwayModel;
  _procedureCollection : gmap string ProcedureModel;
  _referencePosition : option ReferencePosition
}.

Inductive ConsoleMessage :=
| UndefinedFixesWarning (missingFixes : list string).

(** What a method of the library can read and change: the library itself, the
    [FixCollection] singleton, and the console. *)
Record World `{NavigationTypes} := {
  library : NavigationLibrary;
  fixCollection : FixCollection;
  console : list ConsoleMessage
}.

(** The methods of the imported classes that [NavigationLibrary] calls.  The
    constructors may throw; [newAirwayModel] is given [this]. *)
Class NavigationCollaborators `{NavigationTypes} := {
  newStaticPositionModel : ReferencePoint -> Completion ReferencePosition;
  FixCollection_addItems :
    FixDefinitions -> option ReferencePosition -> Method FixCollection unit;
  FixCollection_removeItems : FixCollection -> FixCollection;
  FixCollection_findFixByName : FixCollection -> string -> option FixModel;
  FixCollection_getFixRelativePosition :
    FixCollection -> string -> Completion (option RelativePosition);
  newAirwayModel : string -> list string -> World -> Completion AirwayModel;
  fixNameCollection : AirwayModel -> FixGroup;
  newProcedureModel : PROCEDURE_TYPE -> ProcedureDefinition -> Completion ProcedureModel;
  procedureType : ProcedureModel -> PROCEDURE_TYPE;
  getAllFixNamesInUse : ProcedureModel -> FixGroup
}.

(** The names that [key in {}] finds for an object literal: the properties of
    [Object.prototype]. *)
Definition ObjectPrototypeProperties : list string :=
  [ "constructor"; "hasOwnProperty"; "isPrototypeOf"; "propertyIsEnumerable";
    "toLocaleString"; "toString"; "valueOf"; "__proto__";
    "__defineGetter__"; "__defineSetter__"; "__lookupGetter__";
    "__lookupSetter__" ].

Definition inherited (key : string) : bool :=
  bool_decide (key ∈ ObjectPrototypeProperties).

(** [key in collection] for a collection that started as [{}]. *)
Definition js_in {A} (key : string) (collection : gmap string A) : bool :=
  bool_decide (is_Some (collection !! key)) || inherited key.

(** [collection[key]] once [key in collection] holds. *)
Inductive Property (A : Type) :=
| Own (a : A)
| FromPrototype (key : string).
Arguments Own {A} a.
Arguments FromPrototype {A} key.

(** ** lodash and array helpers *)

Module Lodash.

(** [_flatten]: one level; a value that is not an array stays. *)
Fixpoint _flatten (groups : list FixGroup) : list FixName :=
  match groups with
  | [] => []
  | GroupArray fixNames :: rest => fixNames ++ _flatten rest
  | GroupValue fixName :: rest => fixName :: _flatten rest
  end.

(** The values that [_flatten] takes from one group. *)
Definition mentions (group : FixGroup) (value : FixName) : Prop :=
  match group with
  | GroupArray fixNames => value ∈ fixNames
  | GroupValue fixName => value = fixName
  end.

(** [_uniq]: the first occurrence of each value, in order. *)
Fixpoint uniqFrom (seen : list FixName) (values : list FixName) : list FixName :=
  match values with
  | [] => []
  | value :: rest =>
      if bool_decide (value ∈ seen) then uniqFrom seen rest
      else value :: uniqFrom (value :: seen) rest
  end.

Definition _uniq (values : list FixName) : list FixName := uniqFrom [] values.

(** [_without(values, undefined)]. *)
Fixpoint _without_undefined (values : list FixName) : list string :=
  match values with
  | [] => []
  | None :: rest => _without_undefined rest
  | Some fixName :: rest => fixName :: _without_undefined rest
  end.

(** [_map(collection, f)] over the values of an object. *)
Definition _map {A B} (collection : gmap string A) (f : A -> B) : list B :=
  f <$> (snd <$> map_to_list collection).

(** [_filter(collection, p)] over the values of an object. *)
Definition _filter {A} (collection : gmap string A) (p : A -> bool) : list A :=
  List.filter p (snd <$> map_to_list collection).

(** [names.sort()] on strings: ascending by code units. *)
Definition sort (names : list string) : list string :=
  merge_sort String.le names.

End Lodash.

Module Navigation.
Section Methods.
Context `{NavigationCollaborators}.

Local Abbreviation method := (Method World unit).

Definition set_library (l : NavigationLibrary) (w : World) : World :=
  {| library := l; fixCollection := fixCollection w; console := console w |}.

Definition set_fixCollection (c : FixCollection) (w : World) : World :=
  {| library := library w; fixCollection := c; console := console w |}.

Definition console_warn (m : ConsoleMessage) (w : World) : World :=
  {| library := library w; fixCollection := fixCollection w;
     console := console w ++ [m] |}.

Definition set_airwayCollection (c : gmap string AirwayModel) (l : NavigationLibrary)
  : NavigationLibrary :=
  {| _airwayCollection := c;
     _procedureCollection := _procedureCollection l;
     _referencePosition := _referencePosition l |}.

Definition set_procedureCollection (c : gmap string ProcedureModel)
  (l : NavigationLibrary) : NavigationLibrary :=
  {| _airwayCollection := _airwayCollection l;
     _procedureCollection := c;
     _referencePosition := _referencePosition l |}.

Definition set_referencePosition (p : option ReferencePosition)
  (l : NavigationLibrary) : NavigationLibrary :=
  {| _airwayCollection := _airwayCollection l;
     _procedureCollection := _procedureCollection l;
     _referencePosition := p |}.

(** The constructor of [NavigationLibrary]. *)
Definition newNavigationLibrary : NavigationLibrary :=
  {| _airwayCollection := ∅;
     _procedureCollection := ∅;
     _referencePosition := None |}.

(** [_forEach(entries, callback)]; no callback of the library returns
    [false], so the iteration stops early only by a throw. *)
Fixpoint _forEach {A} (entries : list (string * A))
  (callback : A -> string -> method) : method :=
  match entries with
  | [] => mret tt
  | (key, value) :: rest => callback value key ;; _forEach rest callback
  end.

Definition _initializeReferencePosition (airportJson : AirportJson) : method :=
  fun w =>
    match newStaticPositionModel (referencePoint airportJson) with
    | Thrown e => Throw e w
    | Normal position =>
        Return tt (set_library (set_referencePosition (Some position) (library w)) w)
    end.

Definition _initializeFixCollection (fixes : FixDefinitions) : method :=
  fun w =>
    match FixCollection_addItems fixes (_referencePosition (library w))
            (fixCollection w) with
    | Throw e c => Throw e (set_fixCollection c w)
    | Return _ c => Return tt (set_fixCollection c w)
    end.

(** The callback of [_initializeAirwayCollection]. *)
Definition defineAirway (fixNames : list string) (airwayName : string) : method :=
  fun w =>
    if js_in airwayName (_airwayCollection (library w)) then
      Throw (ExpectedSingleAirway airwayName) w
    else
      match newAirwayModel airwayName fixNames w with
      | Thrown e => Throw e w
      | Normal airwayModel =>
          Return tt
            (set_library
               (set_airwayCollection
                  (<[airwayName := airwayModel]> (_airwayCollection (library w)))
                  (library w)) w)
      end.

Definition _initializeAirwayCollection (airways : list (string * list string))
  : method :=
  _forEach airways defineAirway.

(** The callbacks of [_initializeProcedureCollection]. *)
Definition defineProcedure (type : PROCEDURE_TYPE) (definition : ProcedureDefinition)
  (procedureId : string) : method :=
  fun w =>
    if js_in procedureId (_procedureCollection (library w)) then
      Throw (ExpectedSingleProcedure procedureId) w
    else
      match newProcedureModel type definition with
      | Thrown e => Throw e w
      | Normal procedureModel =>
          Return tt
            (set_library
               (set_procedureCollection
                  (<[procedureId := procedureModel]>
                     (_procedureCollection (library w)))
                  (library w)) w)
      end.

Definition _initializeProcedureCollection
  (sids stars : list (string * ProcedureDefinition)) : method :=
  _forEach sids (defineProcedure SID) ;;
  _forEach stars (defineProcedure STAR).

(** The procedures of an airport file in the order in which
    [_initializeProcedureCollection] visits them: the SIDs, then the STARs. *)
Definition procedureEntries (sids stars : list (string * ProcedureDefinition))
  : list (string * (PROCEDURE_TYPE * ProcedureDefinition)) :=
  ((fun entry => (entry.1, (SID, entry.2))) <$> sids)
  ++ ((fun entry => (entry.1, (STAR, entry.2))) <$> stars).

Definition defineTypedProcedure (typed : PROCEDURE_TYPE * ProcedureDefinition)
  (procedureId : string) : method :=
  defineProcedure typed.1 typed.2 procedureId.

(** [_getAllFixNamesInUse]. *)
Definition _getAllFixNamesInUse (w : World) : list string :=
  let airwayFixes := Lodash._map (_airwayCollection (library w)) fixNameCollection in
  let fixGroups := Lodash._map (_procedureCollection (library w)) getAllFixNamesInUse in
  let uniqueFixNames :=
    Lodash._without_undefined
      (Lodash._uniq (Lodash._flatten (airwayFixes ++ fixGroups))) in
  Lodash.sort uniqueFixNames.

(** A fix name that some airway or some procedure of the library mentions. *)
Definition referenced (w : World) (fixName : string) : Prop :=
  (exists airwayName airwayModel,
     _airwayCollection (library w) !! airwayName = Some airwayModel
     /\ Lodash.mentions (fixNameCollection airwayModel) (Some fixName))
  \/ (exists procedureId procedureModel,
        _procedureCollection (library w) !! procedureId = Some procedureModel
        /\ Lodash.mentions (getAllFixNamesInUse procedureModel) (Some fixName)).

(** [missingFixes] of [_showConsoleWarningForUndefinedFixes]. *)
Definition missingFixes (w : World) : list string :=
  List.filter
    (fun fixName =>
       match FixCollection_findFixByName (fixCollection w) fixName with
       | Some _ => false
       | None => true
       end)
    (_getAllFixNamesInUse w).

Definition _showConsoleWarningForUndefinedFixes : method :=
  fun w =>
    let missing := missingFixes w in
    if (Z.of_nat (length missing) <? 1) then Return tt w
    else Return tt (console_warn (UndefinedFixesWarning missing) w).

Definition init (airportJson : AirportJson) : method :=
  _initializeReferencePosition airportJson ;;
  _initializeFixCollection (fixes airportJson) ;;
  _initializeAirwayCollection (airways airportJson) ;;
  _initializeProcedureCollection (sids airportJson) (stars airportJson) ;;
  _showConsoleWarningForUndefinedFixes.

Definition reset (w : World) : World :=
  set_library
    (set_referencePosition None
       (set_procedureCollection ∅
          (set_airwayCollection ∅ (library w))))
    (set_fixCollection (FixCollection_removeItems (fixCollection w)) w).

Definition hasAirway (airwayId : string) (w : World) : Completion bool :=
  Normal (js_in airwayId (_airwayCollection (library w))).

Definition hasProcedure (procedureId : string) (w : World) : Completion bool :=
  Normal (js_in procedureId (_procedureCollection (library w))).

(** [collection[key]] for a key that [in] has found. *)
Definition getProperty {A} (key : string) (collection : gmap string A)
  : Property A :=
  match collection !! key with
  | Some a => Own a
  | None => FromPrototype key
  end.

(** [null] is [None]. *)
Definition getAirway (airwayId : string) (w : World)
  : Completion (option (Property AirwayModel)) :=
  has ← hasAirway airwayId w;
  if negb has then Normal None
  else Normal (Some (getProperty airwayId (_airwayCollection (library w)))).

Definition getProcedure (procedureId : string) (w : World)
  : Completion (option (Property ProcedureModel)) :=
  has ← hasProcedure procedureId w;
  if negb has then Normal None
  else Normal (Some (getProperty procedureId (_procedureCollection (library w)))).

Definition hasSids (w : World) : Completion bool :=
  let sidProcedureModels :=
    Lodash._filter (_procedureCollection (library w))
      (fun procedure => bool_decide (procedureType procedure = SID)) in
  Normal (0 <? Z.of_nat (length sidProcedureModels)).

Definition hasStars (w : World) : Completion bool :=
  let starProcedureModels :=
    Lodash._filter (_procedureCollection (library w))
      (fun procedure => bool_decide (procedureType procedure = STAR)) in
  Normal (0 <? Z.of_nat (length starProcedureModels)).

Definition findFixByName (fixName : string) (w : World) : option FixModel :=
  FixCollection_findFixByName (fixCollection w) fixName.

Definition getFixRelativePosition (fixName : string) (w : World)
  : Completion (option RelativePosition) :=
  FixCollection_getFixRelativePosition (fixCollection w) fixName.

(** [!_isNil(fixOrNull)]. *)
Definition hasFixName (fixName : string) (w : World) : bool :=
  match findFixByName fixName w with
  | Some _ => true
  | None => false
  end.

End Methods.
End Navigation.

(** ** What the specification says of the imported classes *)

Section CollaboratorContracts.
Context `{NavigationCollaborators}.

(** Modelled from the spec: the fix registry "builds the full keyed collection
    once; fails if invoked while already populated (must be reset first)".
    Once [addItems] has returned, a further [addItems] on the collection it
    has left throws. *)
Definition addItemsOnlyOnce : Prop :=
  forall fixes position collection populated,
    FixCollection_addItems fixes position collection = Return tt populated ->
    forall fixes' position',
      hasThrown (FixCollection_addItems fixes' position' populated) = true.

(** Modelled from the spec: an airway is a "name (unique) + ordered sequence
    of fix names", and its model "stores each fix name".  The fix names of an
    [AirwayModel] are those it was built from. *)
Definition airwayModelKeepsFixNames : Prop :=
  forall airwayName fixNames w airwayModel,
    newAirwayModel airwayName fixNames w = Normal airwayModel ->
    forall fixName,
      Lodash.mentions (fixNameCollection airwayModel) (Some fixName)
      <-> fixName ∈ fixNames.

(** Modelled from the spec: [getAllFixNamesInUse] of a procedure model is the
    "union of every fix name appearing in any entry/body/exit branch" of its
    definition.  The shape of a definition is not among the sources;
    [fixNamesOf] stands for the reading of these names off a definition. *)
Definition procedureModelKeepsFixNames
  (fixNamesOf : ProcedureDefinition -> list string) : Prop :=
  forall type definition procedureModel,
    newProcedureModel type definition = Normal procedureModel ->
    forall fixName,
      Lodash.mentions (getAllFixNamesInUse procedureModel) (Some fixName)
      <-> fixName ∈ fixNamesOf definition.

End CollaboratorContracts.

(** ** The rules in the words of the specification *)

(** These definitions follow the specification, not the code; the theorems
    below compare the code with them. *)
Module Stated.
Section Rules.
Context `{WaypointCollaborators}.

Local Abbreviation chars := list_ascii_of_string.

Inductive Bound :=
| AltitudeMinimum
| AltitudeMaximum
| SpeedMinimum
| SpeedMaximum.

Definition bound (b : Bound) (w : WaypointModel) : JsNumber :=
  match b with
  | AltitudeMinimum => altitudeMinimum w
  | AltitudeMaximum => altitudeMaximum w
  | SpeedMinimum => speedMinimum w
  | SpeedMaximum => speedMaximum w
  end.

(** "multiplied by 100 for altitude"; "kept as-is for speed". *)
Definition altitudeOf (remainder : string) : JsNumber :=
  jsMul (JsString.parseInt remainder) (Num 100).

Definition speedOf (remainder : string) : JsNumber :=
  JsString.parseInt remainder.

(** The rule for one token as the specification states it: a remainder with
    a plus sign anywhere sets only the minimum, one with a minus sign
    anywhere sets only the maximum, one with neither sets both.  [minimum]
    and [maximum] are the two bounds of the token's kind. *)
Definition SignRule (value : JsNumber) (remainder : string)
  (minimumBefore maximumBefore minimumAfter maximumAfter : JsNumber) : Prop :=
  ("+"%char ∈ chars remainder ->
     minimumAfter = value /\ maximumAfter = maximumBefore)
  /\ ("-"%char ∈ chars remainder ->
     maximumAfter = value /\ minimumAfter = minimumBefore)
  /\ ("+"%char ∉ chars remainder -> "-"%char ∉ chars remainder ->
     minimumAfter = value /\ maximumAfter = value).

(** The same rule with the precedence of the code: the minus sign counts
    only in a remainder without a plus sign. *)
Definition SignRuleWithPrecedence (value : JsNumber) (remainder : string)
  (minimumBefore maximumBefore minimumAfter maximumAfter : JsNumber) : Prop :=
  ("+"%char ∈ chars remainder ->
     minimumAfter = value /\ maximumAfter = maximumBefore)
  /\ ("+"%char ∉ chars remainder -> "-"%char ∈ chars remainder ->
     maximumAfter = value /\ minimumAfter = minimumBefore)
  /\ ("+"%char ∉ chars remainder -> "-"%char ∉ chars remainder ->
     minimumAfter = value /\ maximumAfter = value).

(** The tokens of a restriction string. *)
Definition tokens (restrictions : string) : list string :=
  if JsString.isEmpty restrictions then [] else JsString.split "|" restrictions.

(** The value a token gives to a bound, if it sets that bound at all (rule
    with precedence). *)
Definition assigns (b : Bound) (token : string) : option JsNumber :=
  let remainder := JsString.substr1 token in
  let plus := bool_decide ("+"%char ∈ chars remainder) in
  let minus := bool_decide ("-"%char ∈ chars remainder) in
  let setsMinimum := plus || negb minus in
  let setsMaximum := negb plus in
  if bool_decide (JsString.first token = Some "A"%char) then
    match b with
    | AltitudeMinimum => if setsMinimum then Some (altitudeOf remainder) else None
    | AltitudeMaximum => if setsMaximum then Some (altitudeOf remainder) else None
    | _ => None
    end
  else if bool_decide (JsString.first token = Some "S"%char) then
    match b with
    | SpeedMinimum => if setsMinimum then Some (speedOf remainder) else None
    | SpeedMaximum => if setsMaximum then Some (speedOf remainder) else None
    | _ => None
    end
  else None.

(** A bound after all tokens: the value of the last token that sets it, and
    the sentinel -1 when none does. *)
Definition boundAfter (b : Bound) (restrictionTokens : list string) : JsNumber :=
  fold_left
    (fun current token => default current (assigns b token))
    restrictionTokens (Num (-1)).

Definition wellFormedToken (token : string) : bool :=
  bool_decide (JsString.first token = Some "A"%char)
  || bool_decide (JsString.first token = Some "S"%char).

(** What follows the first occurrence of a character. *)
Fixpoint afterFirst (c : ascii) (s : string) : string :=
  match s with
  | EmptyString => EmptyString
  | String a s' => if Ascii.eqb a c then s' else afterFirst c s'
  end.

(** "parses the digits after the pound sign as an integer degree value and
    converts to radians". *)
Definition headingAfterPoundSign (fixName : string) : JsReal :=
  degreesToRadians (JsString.parseInt (afterFirst "#" fixName)).

(** The classification of a token by marker precedence. *)
Inductive Classification :=
| FlyOver
| Hold
| Vector
| Plain.

Definition classify (fixName : string) : Classification :=
  if bool_decide ("^"%char ∈ chars fixName) then FlyOver
  else if bool_decide ("@"%char ∈ chars fixName) then Hold
  else if bool_decide ("#"%char ∈ chars fixName) then Vector
  else Plain.

End Rules.
End Stated.

(** ** A small airport used for concrete runs *)

(** Stand-ins for the classes that are not among the sources, as simple as
    their use allows: a position is a pair of coordinates, the fix collection
    is a map from names to positions that can be filled once, as the
    specification has it (null, here [None], until then), an airway model
    keeps its name and fix names, a procedure model keeps its type and the fix
    names of its definition.  No stand-in constructor throws. *)
Module Fixture.

Definition fixTable : gmap string (Z * Z) :=
  {[ "CLAYT" := (10, 20); "KEPEC" := (30, 40); "BOACH" := (50, 60) ]}.

#[global] Instance waypointCollaborators : WaypointCollaborators := {|
  StaticPositionModel := Z * Z;
  getPositionModelForFixName := fun fixName => fixTable !! fixName;
  bearingToPosition := fun _ _ => Normal (RNum 0);
  distanceToPosition := fun _ _ => Normal (RNum 1);
  DEFAULT_HOLD_PARAMETERS :=
    {| inboundHeading := None; legLength := LegText "1min";
       timer := Num (-1); turnDirection := "right" |};
  RNAV_WAYPOINT_DISPLAY_NAME := "RNAV";
  RNAV_WAYPOINT_PREFIX := "_"%char
|}.

#[global] Instance navigationTypes : NavigationTypes := {|
  ReferencePoint := Z * Z;
  ReferencePosition := Z * Z;
  FixDefinitions := list (string * (Z * Z));
  ProcedureDefinition := list string;
  FixModel := Z * Z;
  RelativePosition := Z * Z;
  FixCollection := option (gmap string (Z * Z));
  AirwayModel := string * list string;
  ProcedureModel := PROCEDURE_TYPE * list string
|}.

#[global] Instance navigationCollaborators : NavigationCollaborators := {|
  newStaticPositionModel := fun point => Normal point;
  FixCollection_addItems :=
    fun fixes _ collection =>
      match collection with
      | None => Return tt (Some (list_to_map fixes))
      | Some _ => Throw (Collaborator "FixCollection.addItems") collection
      end;
  FixCollection_removeItems := fun _ => None;
  FixCollection_findFixByName :=
    fun collection fixName => collection ≫= (fun items => items !! fixName);
  FixCollection_getFixRelativePosition :=
    fun collection fixName =>
      Normal (collection ≫= (fun items => items !! fixName));
  newAirwayModel := fun icao fixNames _ => Normal (icao, fixNames);
  fixNameCollection := fun airwayModel => GroupArray (Some <$> airwayModel.2);
  newProcedureModel := fun type definition => Normal (type, definition);
  procedureType := fun procedureModel => procedureModel.1;
  getAllFixNamesInUse := fun procedureModel => GroupArray (Some <$> procedureModel.2)
|}.

(** An airport whose airway and procedures mention [MISEN] and [TRALR],
    neither of which is among its fixes. *)
Definition airport : AirportJson :=
  {| referencePoint := (0, 0);
     fixes := [("CLAYT", (10, 20)); ("KEPEC", (30, 40)); ("BOACH", (50, 60))];
     airways := [("V587", ["KEPEC"; "TRALR"; "CLAYT"]); ("J100", ["BOACH"; "MISEN"])];
     sids := [("BOACH6", ["BOACH"; "TRALR"])];
     stars := [("KEPEC1", ["KEPEC"; "CLAYT"; "MISEN"])] |}.

(** The same airport with [KEPEC1] defined both as a SID and as a STAR. *)
Definition airportWithRepeatedProcedure : AirportJson :=
  {| referencePoint := (0, 0);
     fixes := fixes airport;
     airways := airways airport;
     sids := [("KEPEC1", ["BOACH"]); ("BOACH6", ["BOACH"; "TRALR"])];
     stars := [("KEPEC1", ["KEPEC"; "CLAYT"]); ("GRNPA1", ["CLAYT"])] |}.

(** An airport that has fixes and neither airways nor procedures. *)
Definition airportWithoutRoutes : AirportJson :=
  {| referencePoint := (0, 0);
     fixes := fixes airport;
     airways := [];
     sids := [];
     stars := [] |}.

(** The world before the first [init]. *)
Definition freshWorld : World :=
  {| library := Navigation.newNavigationLibrary; fixCollection := None;
     console := [] |}.

(** The waypoint that the token of a 270 degree heading gives, and the one
    that the token [CLAYT] gives. *)
Definition heading270 : WaypointModel :=
  {| altitudeMaximum := Num (-1); altitudeMinimum := Num (-1);
     speedMaximum := Num (-1); speedMinimum := Num (-1);
     _holdParameters := Some DEFAULT_HOLD_PARAMETERS;
     _isFlyOverWaypoint := false; _isHoldWaypoint := false;
     _isVectorWaypoint := true; _name := "#270"; _positionModel := None |}.

Definition clayt : WaypointModel :=
  {| altitudeMaximum := Num (-1); altitudeMinimum := Num (-1);
     speedMaximum := Num (-1); speedMinimum := Num (-1);
     _holdParameters := Some DEFAULT_HOLD_PARAMETERS;
     _isFlyOverWaypoint := false; _isHoldWaypoint := false;
     _isVectorWaypoint := false; _name := "CLAYT"; _positionModel := Some (10, 20) |}.

End Fixture.

(** * Properties *)

(** ** Strings *)

Section StringFacts.

Local Abbreviation chars := list_ascii_of_string.

Lemma chars_cons a s : chars (String a s) = a :: chars s.
Proof. reflexivity. Qed.

Lemma chars_append s t : chars (s +:+ t) = chars s ++ chars t.
Proof. induction s as [|a s IH]; simpl; [done | by rewrite IH]. Qed.

Lemma indexOfFrom_range c s i :
  0 <= i ->
  (JsString.indexOfFrom c s i = -1 /\ c ∉ chars s)
  \/ (i <= JsString.indexOfFrom c s i /\ c ∈ chars s).
Proof.
  revert i. induction s as [|a s IH]; intros i Hi; simpl.
  - left. split; [done | apply not_elem_of_nil].
  - destruct (Ascii.eqb_spec a c) as [-> | Hne].
    + right. split; [lia | apply elem_of_cons; by left].
    + destruct (IH (i + 1) ltac:(lia)) as [[Hidx Hnot] | [Hidx Hin]].
      * left. split; [done |]. rewrite not_elem_of_cons. split; [congruence | done].
      * right. split; [lia | apply elem_of_cons; by right].
Qed.

(** [s.indexOf(c) !== -1] says that [c] occurs somewhere in [s]. *)
Lemma hasMarker_elem_of c s : hasMarker c s = true <-> c ∈ chars s.
Proof.
  unfold hasMarker, JsString.indexOf, INVALID_INDEX.
  destruct (indexOfFrom_range c s 0 ltac:(lia)) as [[Hidx Hnot] | [Hidx Hin]].
  - rewrite Hidx. simpl. split; [discriminate | done].
  - rewrite negb_true_iff, Z.eqb_neq. split; [done | lia].
Qed.

Lemma hasMarker_not_elem_of c s : hasMarker c s = false <-> c ∉ chars s.
Proof.
  rewrite <- hasMarker_elem_of. destruct (hasMarker c s); split; congruence.
Qed.

Lemma replace_absent c s : c ∉ chars s -> JsString.replace c s = s.
Proof.
  induction s as [|a s IH]; simpl; [done |].
  rewrite not_elem_of_cons. intros [Hne Hnot].
  destruct (Ascii.eqb_spec a c); [congruence | by rewrite IH].
Qed.




End StringFacts.

(** ** The waypoint model *)

Section WaypointProperties.
Context `{WaypointCollaborators}.

Local Abbreviation chars := list_ascii_of_string.
Local Abbreviation method := (Method WaypointModel unit).

Ltac run_method :=
  unfold mbind, Method_bind, mret, Method_ret, modify, throw in *.

Lemma bool_decide_marker c s : bool_decide (c ∈ chars s) = hasMarker c s.
Proof.
  apply eq_true_iff_eq. rewrite bool_decide_eq_true. symmetry. apply hasMarker_elem_of.
Qed.

(** What a sequence leaves behind, from what its two halves leave behind. *)
Lemma finalState_bind (m k : method) w :
  finalState ((m ;; k) w) =
  match m w with
  | Return _ w' => finalState (k w')
  | Throw _ w' => w'
  end.
Proof. run_method. by destruct (m w). Qed.

(** [_initSpecialWaypoint] returns, and sets at most one flag. *)
Lemma initSpecialWaypoint_effect fixName w :
  exists after,
    Lenient._initSpecialWaypoint fixName w = Return tt after
    /\ _isFlyOverWaypoint after = _isFlyOverWaypoint w || hasMarker "^" fixName
    /\ _isHoldWaypoint after =
         _isHoldWaypoint w || (negb (hasMarker "^" fixName) && hasMarker "@" fixName)
    /\ _isVectorWaypoint after =
         _isVectorWaypoint w
         || (negb (hasMarker "^" fixName) && negb (hasMarker "@" fixName)
             && hasMarker "#" fixName)
    /\ _name after = _name w
    /\ _positionModel after = _positionModel w
    /\ (forall b, Stated.bound b after = Stated.bound b w).
Proof.
  unfold Lenient._initSpecialWaypoint.
  change (negb (JsString.indexOf "^" fixName =? INVALID_INDEX)) with (hasMarker "^" fixName).
  change (negb (JsString.indexOf "@" fixName =? INVALID_INDEX)) with (hasMarker "@" fixName).
  change (negb (JsString.indexOf "#" fixName =? INVALID_INDEX)) with (hasMarker "#" fixName).
  destruct (hasMarker "^" fixName), (hasMarker "@" fixName), (hasMarker "#" fixName);
    eexists; (split; [reflexivity |]); simpl;
    rewrite ?orb_true_r, ?orb_false_r; repeat split; by intros [].
Qed.

(** The same for the revision of [part_001]. *)
Lemma strict_initSpecialWaypoint_effect fixName w :
  exists after,
    Strict._initSpecialWaypoint fixName w = Return tt after
    /\ _isFlyOverWaypoint after = _isFlyOverWaypoint w || hasMarker "^" fixName
    /\ _isHoldWaypoint after =
         _isHoldWaypoint w || (negb (hasMarker "^" fixName) && hasMarker "@" fixName)
    /\ _isVectorWaypoint after =
         _isVectorWaypoint w
         || (negb (hasMarker "^" fixName) && negb (hasMarker "@" fixName)
             && hasMarker "#" fixName)
    /\ _name after = _name w
    /\ _positionModel after = _positionModel w
    /\ (forall b, Stated.bound b after = Stated.bound b w).
Proof.
  unfold Strict._initSpecialWaypoint.
  change (negb (JsString.indexOf "^" fixName =? INVALID_INDEX)) with (hasMarker "^" fixName).
  change (negb (JsString.indexOf "@" fixName =? INVALID_INDEX)) with (hasMarker "@" fixName).
  change (negb (JsString.indexOf "#" fixName =? INVALID_INDEX)) with (hasMarker "#" fixName).
  destruct (hasMarker "^" fixName), (hasMarker "@" fixName), (hasMarker "#" fixName);
    eexists; (split; [reflexivity |]); simpl;
    rewrite ?orb_true_r, ?orb_false_r; repeat split; by intros [].
Qed.

Lemma sameButBounds_refl w : sameButBounds w w.
Proof. by repeat split. Qed.

Lemma sameButBounds_trans w1 w2 w3 :
  sameButBounds w1 w2 -> sameButBounds w2 w3 -> sameButBounds w1 w3.
Proof.
  unfold sameButBounds. intros (?&?&?&?&?&?) (?&?&?&?&?&?).
  repeat split; congruence.
Qed.

Lemma applyAltitudeRestriction_frame r w :
  sameButBounds w (finalState (Lenient._applyAltitudeRestriction r w)).
Proof.
  unfold Lenient._applyAltitudeRestriction.
  repeat case_match; by repeat split.
Qed.

Lemma applySpeedRestriction_frame r w :
  sameButBounds w (finalState (Lenient._applySpeedRestriction r w)).
Proof.
  unfold Lenient._applySpeedRestriction.
  repeat case_match; by repeat split.
Qed.

Lemma applyRestriction_frame t w :
  sameButBounds w (finalState (Lenient.applyRestriction t w)).
Proof.
  unfold Lenient.applyRestriction.
  repeat case_bool_decide;
    auto using applyAltitudeRestriction_frame, applySpeedRestriction_frame,
      sameButBounds_refl.
Qed.

Lemma applyRestrictionCollection_frame ts w :
  sameButBounds w (finalState (Lenient.applyRestrictionCollection ts w)).
Proof.
  revert w. induction ts as [|t ts IH]; intros w; simpl.
  - apply sameButBounds_refl.
  - rewrite finalState_bind.
    pose proof (applyRestriction_frame t w) as Ht.
    destruct (Lenient.applyRestriction t w) as [[] w' | e w']; simpl in Ht.
    + eapply sameButBounds_trans; [exact Ht | apply IH].
    + exact Ht.
Qed.

Lemma applyRestrictions_frame r w :
  sameButBounds w (finalState (Lenient._applyRestrictions r w)).
Proof.
  unfold Lenient._applyRestrictions.
  destruct (JsString.isEmpty r);
    [apply sameButBounds_refl | apply applyRestrictionCollection_frame].
Qed.

(** [_initializePosition] touches the position only. *)
Lemma initializePosition_frame w :
  let after := finalState (Lenient._initializePosition w) in
  _holdParameters after = _holdParameters w
  /\ _isFlyOverWaypoint after = _isFlyOverWaypoint w
  /\ _isHoldWaypoint after = _isHoldWaypoint w
  /\ _isVectorWaypoint after = _isVectorWaypoint w
  /\ _name after = _name w
  /\ (forall b, Stated.bound b after = Stated.bound b w).
Proof.
  unfold Lenient._initializePosition. cbv zeta.
  repeat case_match; simpl; repeat split; try done; by intros [].
Qed.

(** The body of [init] once [fixName] and [restrictions] are known, with the
    classification step of either revision. *)
Lemma init_body_fields (special : string -> method) fixName restrictions w w2 :
  special fixName
    (set_name (JsString.replace "^" (JsString.replace "@" fixName)) w) = Return tt w2 ->
  let after :=
    finalState
      ((modify (set_name (JsString.replace "^" (JsString.replace "@" fixName))) ;;
        special fixName ;;
        Lenient._applyRestrictions restrictions ;;
        Lenient._initializePosition) w) in
  _isFlyOverWaypoint after = _isFlyOverWaypoint w2
  /\ _isHoldWaypoint after = _isHoldWaypoint w2
  /\ _isVectorWaypoint after = _isVectorWaypoint w2
  /\ _name after = _name w2
  /\ _holdParameters after = _holdParameters w2.
Proof.
  intros Hspecial after.
  assert (after =
          match Lenient._applyRestrictions restrictions w2 with
          | Return _ w3 => finalState (Lenient._initializePosition w3)
          | Throw _ w3 => w3
          end) as ->.
  { subst after. rewrite finalState_bind. unfold modify at 1.
    by rewrite finalState_bind, Hspecial, finalState_bind. }
  pose proof (applyRestrictions_frame restrictions w2) as Hframe.
  destruct (Lenient._applyRestrictions restrictions w2) as [[] w3 | e w3];
    simpl in Hframe; destruct Hframe as (Hh & Hf & Hhold & Hv & Hn & Hp).
  - destruct (initializePosition_frame w3) as (Hh' & Hf' & Hhold' & Hv' & Hn' & _).
    repeat split; congruence.
  - by repeat split.
Qed.

Lemma lenient_init_unfold data fixName restrictions :
  Lenient.initArguments data = Normal (fixName, restrictions) ->
  Lenient.init data =
    (modify (set_name (JsString.replace "^" (JsString.replace "@" fixName))) ;;
     Lenient._initSpecialWaypoint fixName ;;
     Lenient._applyRestrictions restrictions ;;
     Lenient._initializePosition).
Proof. intros Hargs. unfold Lenient.init. by rewrite Hargs. Qed.

Lemma strict_init_unfold data fixName restrictions :
  Lenient.initArguments data = Normal (fixName, restrictions) ->
  Strict.init data =
    (modify (set_name (JsString.replace "^" (JsString.replace "@" fixName))) ;;
     Strict._initSpecialWaypoint fixName ;;
     Lenient._applyRestrictions restrictions ;;
     Lenient._initializePosition).
Proof. intros Hargs. unfold Strict.init. by rewrite Hargs. Qed.

(** A constructed waypoint is the state [init] leaves behind. *)
Lemma new_is_finalState data w :
  Lenient.new data = Normal w ->
  w = finalState (Lenient.init data Lenient.initialProperties).
Proof.
  unfold Lenient.new, construct.
  destruct data; try discriminate;
    destruct (Lenient.init _ _); simpl; congruence.
Qed.

Lemma strict_new_is_finalState data w :
  Strict.new data = Normal w ->
  w = finalState (Strict.init data Strict.initialProperties).
Proof.
  unfold Strict.new, construct.
  destruct data; try discriminate;
    destruct (Strict.init _ _); simpl; congruence.
Qed.

Lemma classify_flags fixName :
  (hasMarker "^" fixName,
   negb (hasMarker "^" fixName) && hasMarker "@" fixName,
   negb (hasMarker "^" fixName) && negb (hasMarker "@" fixName)
   && hasMarker "#" fixName) =
  match Stated.classify fixName with
  | Stated.FlyOver => (true, false, false)
  | Stated.Hold => (false, true, false)
  | Stated.Vector => (false, false, true)
  | Stated.Plain => (false, false, false)
  end.
Proof.
  unfold Stated.classify. rewrite !bool_decide_marker.
  by destruct (hasMarker "^" fixName), (hasMarker "@" fixName), (hasMarker "#" fixName).
Qed.

Lemma lenient_init_flags data fixName restrictions :
  Lenient.initArguments data = Normal (fixName, restrictions) ->
  let after := finalState (Lenient.init data Lenient.initialProperties) in
  (_isFlyOverWaypoint after, _isHoldWaypoint after, _isVectorWaypoint after) =
  (hasMarker "^" fixName,
   negb (hasMarker "^" fixName) && hasMarker "@" fixName,
   negb (hasMarker "^" fixName) && negb (hasMarker "@" fixName)
   && hasMarker "#" fixName).
Proof.
  intros Hargs after. subst after.
  rewrite (lenient_init_unfold _ _ _ Hargs).
  destruct (initSpecialWaypoint_effect fixName
              (set_name (JsString.replace "^" (JsString.replace "@" fixName))
                 Lenient.initialProperties))
    as (w2 & Hrun & Hf & Hh & Hv & _).
  destruct (init_body_fields _ fixName restrictions _ _ Hrun) as (Hf' & Hh' & Hv' & _).
  by rewrite Hf', Hh', Hv', Hf, Hh, Hv.
Qed.

Lemma strict_init_flags data fixName restrictions :
  Lenient.initArguments data = Normal (fixName, restrictions) ->
  let after := finalState (Strict.init data Strict.initialProperties) in
  (_isFlyOverWaypoint after, _isHoldWaypoint after, _isVectorWaypoint after) =
  (hasMarker "^" fixName,
   negb (hasMarker "^" fixName) && hasMarker "@" fixName,
   negb (hasMarker "^" fixName) && negb (hasMarker "@" fixName)
   && hasMarker "#" fixName).
Proof.
  intros Hargs after. subst after.
  rewrite (strict_init_unfold _ _ _ Hargs).
  destruct (strict_initSpecialWaypoint_effect fixName
              (set_name (JsString.replace "^" (JsString.replace "@" fixName))
                 Strict.initialProperties))
    as (w2 & Hrun & Hf & Hh & Hv & _).
  destruct (init_body_fields _ fixName restrictions _ _ Hrun) as (Hf' & Hh' & Hv' & _).
  by rewrite Hf', Hh', Hv', Hf, Hh, Hv.
Qed.

(** The stored name, whatever state [init] starts from. *)
Lemma lenient_init_name data fixName restrictions w0 :
  Lenient.initArguments data = Normal (fixName, restrictions) ->
  _name (finalState (Lenient.init data w0)) =
  JsString.replace "^" (JsString.replace "@" fixName).
Proof.
  intros Hargs. rewrite (lenient_init_unfold _ _ _ Hargs).
  destruct (initSpecialWaypoint_effect fixName
              (set_name (JsString.replace "^" (JsString.replace "@" fixName)) w0))
    as (w2 & Hrun & _ & _ & _ & Hn & _).
  destruct (init_body_fields _ fixName restrictions _ _ Hrun) as (_ & _ & _ & Hn' & _).
  by rewrite Hn', Hn.
Qed.

Lemma strict_init_name data fixName restrictions w0 :
  Lenient.initArguments data = Normal (fixName, restrictions) ->
  _name (finalState (Strict.init data w0)) =
  JsString.replace "^" (JsString.replace "@" fixName).
Proof.
  intros Hargs. rewrite (strict_init_unfold _ _ _ Hargs).
  destruct (strict_initSpecialWaypoint_effect fixName
              (set_name (JsString.replace "^" (JsString.replace "@" fixName)) w0))
    as (w2 & Hrun & _ & _ & _ & Hn & _).
  destruct (init_body_fields _ fixName restrictions _ _ Hrun) as (_ & _ & _ & Hn' & _).
  by rewrite Hn', Hn.
Qed.

(** C2. The special markers are checked in the order fly-over, hold, vector
    and the first one found decides alone: whatever token a waypoint is
    constructed from, its three flags are those of the first marker, in that
    order, that occurs anywhere in the token, and no two flags are set.  A
    token with both the fly-over and the vector marker gives a fly-over
    waypoint that is no vector waypoint.  This holds in both revisions of the
    class, for the state [init] leaves and so for every waypoint that
    [new] returns. *)
Theorem classification_first_marker_wins
  (data : WaypointData) (fixName restrictions : string) :
  Lenient.initArguments data = Normal (fixName, restrictions) ->
  let flags (w : WaypointModel) :=
    (_isFlyOverWaypoint w, _isHoldWaypoint w, _isVectorWaypoint w) in
  let expected :=
    match Stated.classify fixName with
    | Stated.FlyOver => (true, false, false)
    | Stated.Hold => (false, true, false)
    | Stated.Vector => (false, false, true)
    | Stated.Plain => (false, false, false)
    end in
  flags (finalState (Lenient.init data Lenient.initialProperties)) = expected
  /\ flags (finalState (Strict.init data Strict.initialProperties)) = expected
  /\ (forall w, Lenient.new data = Normal w -> flags w = expected)
  /\ (forall w, Strict.new data = Normal w -> flags w = expected)
  /\ ("^"%char ∈ chars fixName -> expected = (true, false, false)).
Proof.
  intros Hargs flags expected.
  assert (flags (finalState (Lenient.init data Lenient.initialProperties)) = expected)
    as Hlenient.
  { unfold flags, expected. rewrite <- classify_flags.
    exact (lenient_init_flags _ _ _ Hargs). }
  assert (flags (finalState (Strict.init data Strict.initialProperties)) = expected)
    as Hstrict.
  { unfold flags, expected. rewrite <- classify_flags.
    exact (strict_init_flags _ _ _ Hargs). }
  repeat split; try done.
  - intros w Hnew. by rewrite (new_is_finalState _ _ Hnew).
  - intros w Hnew. by rewrite (strict_new_is_finalState _ _ Hnew).
  - intros Hin. unfold expected, Stated.classify.
    by rewrite bool_decide_eq_true_2.
Qed.


(** [reset] assigns every property, so nothing of the old state is left. *)
Lemma lenient_reset_clears w0 : Lenient.reset w0 = Lenient.initialProperties.
Proof. by destruct w0. Qed.

Lemma strict_reset_clears w0 : Strict.reset w0 = Strict.initialProperties.
Proof. by destruct w0. Qed.

(** C6. [reset] puts every one of the ten properties back to the value the
    constructor starts from, whatever the waypoint held before; hence, for a
    token that is a string or an array, [reset] followed by [init] runs the
    same way as the constructor: it fails with the same error or leaves a
    waypoint equal, property by property, to the freshly constructed one.
    Both revisions. *)
Theorem reset_then_init_equals_new (w0 : WaypointModel) :
  Lenient.reset w0 = Lenient.initialProperties
  /\ Strict.reset w0 = Strict.initialProperties
  /\ (forall s,
        construct (Lenient.init (DataString s) (Lenient.reset w0))
        = Lenient.new (DataString s))
  /\ (forall items,
        construct (Lenient.init (DataArray items) (Lenient.reset w0))
        = Lenient.new (DataArray items))
  /\ (forall s,
        construct (Strict.init (DataString s) (Strict.reset w0))
        = Strict.new (DataString s))
  /\ (forall items,
        construct (Strict.init (DataArray items) (Strict.reset w0))
        = Strict.new (DataArray items))
  /\ (forall data w,
        Lenient.new data = Normal w ->
        Lenient.init data (Lenient.reset w0) = Return tt w)
  /\ (forall data w,
        Strict.new data = Normal w ->
        Strict.init data (Strict.reset w0) = Return tt w).
Proof.
  rewrite lenient_reset_clears, strict_reset_clears.
  repeat split; try done.
  - intros data w. unfold Lenient.new, construct.
    destruct data; try discriminate;
      destruct (Lenient.init _ _) as [[] w' | e w']; congruence.
  - intros data w. unfold Strict.new, construct.
    destruct data; try discriminate;
      destruct (Strict.init _ _) as [[] w' | e w']; congruence.
Qed.

(** C5. In the revision whose bearing and distance methods check their
    arguments ([part_001]), both methods throw a [TypeError] when the
    argument is no [WaypointModel], when the receiver is a vector waypoint
    and when the argument is a vector waypoint; in none of these cases do
    they return a number, zero or [undefined]. *)
Theorem strict_bearing_distance_throw (this : WaypointModel) (waypointModel : Argument) :
  waypointModel = ArgOther
  \/ _isVectorWaypoint this = true
  \/ (exists other, waypointModel = ArgWaypoint other
                    /\ Lenient.isVectorWaypoint other = true) ->
  let error :=
    match waypointModel with
    | ArgOther => ExpectedWaypointModelInstance
    | ArgWaypoint _ => ExpectedNonVectorWaypoints
    end in
  Strict._ensureNonVectorWaypointsForThisAndWaypoint this waypointModel = Thrown error
  /\ Strict.calculateBearingToWaypoint this waypointModel = Thrown error
  /\ Strict.calculateDistanceToWaypoint this waypointModel = Thrown error.
Proof.
  intros Hviolated error.
  assert (Strict._ensureNonVectorWaypointsForThisAndWaypoint this waypointModel
          = Thrown error) as Hensure.
  { unfold Strict._ensureNonVectorWaypointsForThisAndWaypoint, error.
    destruct waypointModel as [other |]; [| done].
    destruct Hviolated as [Hother | [Hthis | (other' & Heq & Hvector)]].
    - discriminate.
    - by rewrite Hthis.
    - injection Heq as <-. by rewrite Hvector, orb_true_r. }
  unfold Strict.calculateBearingToWaypoint, Strict.calculateDistanceToWaypoint.
  by rewrite Hensure.
Qed.

(** With two waypoints that are no vector waypoints the same methods hand the
    two positions to the position model. *)
Lemma strict_bearing_distance_return (this other : WaypointModel) position :
  _isVectorWaypoint this = false ->
  Lenient.isVectorWaypoint other = false ->
  _positionModel this = Some position ->
  Strict.calculateBearingToWaypoint this (ArgWaypoint other)
  = bearingToPosition position (_positionModel other)
  /\ Strict.calculateDistanceToWaypoint this (ArgWaypoint other)
     = distanceToPosition position (_positionModel other).
Proof.
  intros Hthis Hother Hposition.
  unfold Strict.calculateBearingToWaypoint, Strict.calculateDistanceToWaypoint,
    Strict._ensureNonVectorWaypointsForThisAndWaypoint.
  by rewrite Hthis, Hother, Hposition.
Qed.

(** The methods of [WaypointModel.js] do not throw in these cases: the
    bearing is [undefined] and the distance is zero. *)
Lemma lenient_bearing_distance_default (this : WaypointModel) (waypointModel : Argument) :
  waypointModel = ArgOther
  \/ _isVectorWaypoint this = true
  \/ (exists other, waypointModel = ArgWaypoint other
                    /\ Lenient.isVectorWaypoint other = true) ->
  Lenient.calculateBearingToWaypoint this waypointModel = Normal None
  /\ Lenient.calculateDistanceToWaypoint this waypointModel = Normal (RNum 0).
Proof.
  intros Hviolated.
  unfold Lenient.calculateBearingToWaypoint, Lenient.calculateDistanceToWaypoint.
  destruct waypointModel as [other |]; [| done].
  destruct Hviolated as [Hother | [Hthis | (other' & Heq & Hvector)]].
  - discriminate.
  - by rewrite Hthis.
  - injection Heq as <-. by rewrite Hvector, orb_true_r.
Qed.

(** *** Restrictions *)

Ltac marker_cases r :=
  change (negb (JsString.indexOf "+" r =? -1)) with (hasMarker "+" r);
  change (negb (JsString.indexOf "-" r =? -1)) with (hasMarker "-" r);
  destruct (hasMarker "+" r) eqn:Hplus;
  [ apply (proj1 (hasMarker_elem_of _ _)) in Hplus
  | apply (proj1 (hasMarker_not_elem_of _ _)) in Hplus ];
  ( destruct (hasMarker "-" r) eqn:Hminus;
    [ apply (proj1 (hasMarker_elem_of _ _)) in Hminus
    | apply (proj1 (hasMarker_not_elem_of _ _)) in Hminus ] ).

Lemma applyAltitudeRestriction_rule remainder w :
  exists after,
    Lenient._applyAltitudeRestriction remainder w = Return tt after
    /\ Stated.SignRuleWithPrecedence (Stated.altitudeOf remainder) remainder
         (altitudeMinimum w) (altitudeMaximum w)
         (altitudeMinimum after) (altitudeMaximum after)
    /\ speedMinimum after = speedMinimum w
    /\ speedMaximum after = speedMaximum w.
Proof.
  unfold Lenient._applyAltitudeRestriction, Stated.SignRuleWithPrecedence.
  marker_cases remainder; eexists; (split; [reflexivity |]); simpl;
    repeat split; intros; done.
Qed.

Lemma applySpeedRestriction_rule remainder w :
  exists after,
    Lenient._applySpeedRestriction remainder w = Return tt after
    /\ Stated.SignRuleWithPrecedence (Stated.speedOf remainder) remainder
         (speedMinimum w) (speedMaximum w)
         (speedMinimum after) (speedMaximum after)
    /\ altitudeMinimum after = altitudeMinimum w
    /\ altitudeMaximum after = altitudeMaximum w.
Proof.
  unfold Lenient._applySpeedRestriction, Stated.SignRuleWithPrecedence.
  marker_cases remainder; eexists; (split; [reflexivity |]); simpl;
    repeat split; intros; done.
Qed.

(** One well-formed token gives each bound the value [Stated.assigns] names,
    and leaves it alone when there is none. *)
Lemma applyRestriction_wellFormed token w :
  Stated.wellFormedToken token = true ->
  exists after,
    Lenient.applyRestriction token w = Return tt after
    /\ forall b, Stated.bound b after
                 = default (Stated.bound b w) (Stated.assigns b token).
Proof.
  unfold Stated.wellFormedToken, Lenient.applyRestriction, Stated.assigns.
  intros Hwf. rewrite !bool_decide_marker.
  destruct (bool_decide (JsString.first token = Some "A"%char)) eqn:HA.
  - unfold Lenient._applyAltitudeRestriction.
    marker_cases (JsString.substr1 token);
      eexists; (split; [reflexivity |]); by intros [].
  - destruct (bool_decide (JsString.first token = Some "S"%char)) eqn:HS;
      [| done].
    unfold Lenient._applySpeedRestriction.
    marker_cases (JsString.substr1 token);
      eexists; (split; [reflexivity |]); by intros [].
Qed.

Lemma applyRestriction_malformed token w :
  Stated.wellFormedToken token = false ->
  Lenient.applyRestriction token w
  = Throw (ExpectedRestrictionPrefix (JsString.first token)) w.
Proof.
  unfold Stated.wellFormedToken, Lenient.applyRestriction.
  intros [-> ->]%orb_false_iff. done.
Qed.

Lemma applyRestrictionCollection_cases ts w :
  (forallb Stated.wellFormedToken ts = true
   /\ exists after,
        Lenient.applyRestrictionCollection ts w = Return tt after
        /\ forall b, Stated.bound b after
                     = fold_left (fun current token =>
                                    default current (Stated.assigns b token))
                         ts (Stated.bound b w))
  \/ (forallb Stated.wellFormedToken ts = false
      /\ exists e after, Lenient.applyRestrictionCollection ts w = Throw e after).
Proof.
  revert w. induction ts as [|t ts IH]; intros w; simpl.
  - left. split; [done |]. by exists w.
  - destruct (Stated.wellFormedToken t) eqn:Hwf; simpl.
    + destruct (applyRestriction_wellFormed t w Hwf) as (w1 & Hrun & Hbounds).
      run_method. rewrite Hrun.
      destruct (IH w1) as [(Hall & after & Hrest & Hafter) | (Hall & e & after & Hrest)].
      * left. split; [done |]. exists after. split; [done |].
        intros b. by rewrite Hafter, Hbounds.
      * right. split; [done |]. by exists e, after.
    + right. split; [done |]. run_method.
      rewrite (applyRestriction_malformed t w Hwf). by eexists _, _.
Qed.

Lemma applyRestrictions_cases restrictions w :
  (forallb Stated.wellFormedToken (Stated.tokens restrictions) = true
   /\ exists after,
        Lenient._applyRestrictions restrictions w = Return tt after
        /\ forall b, Stated.bound b after
                     = fold_left (fun current token =>
                                    default current (Stated.assigns b token))
                         (Stated.tokens restrictions) (Stated.bound b w))
  \/ (forallb Stated.wellFormedToken (Stated.tokens restrictions) = false
      /\ exists e after, Lenient._applyRestrictions restrictions w = Throw e after).
Proof.
  unfold Lenient._applyRestrictions, Stated.tokens.
  destruct (JsString.isEmpty restrictions).
  - left. split; [done |]. by exists w.
  - apply applyRestrictionCollection_cases.
Qed.

(** *** The outcome of a construction *)

Lemma new_is_construct data fixName restrictions :
  Lenient.initArguments data = Normal (fixName, restrictions) ->
  Lenient.new data = construct (Lenient.init data Lenient.initialProperties).
Proof. by destruct data. Qed.

(** Every way the body of [init] can end on a waypoint that has just been
    given its initial properties, with the classification step of either
    revision: a malformed restriction throws; otherwise a vector waypoint is
    returned without a lookup, and any other waypoint is returned with the
    position of its stored name, or the construction throws when the fix
    collection has none. *)
Lemma construct_outcome (special : string -> method) (initial : WaypointModel)
  fixName restrictions :
  let stored := JsString.replace "^" (JsString.replace "@" fixName) in
  let vector :=
    negb (hasMarker "^" fixName) && negb (hasMarker "@" fixName)
    && hasMarker "#" fixName in
  (exists w2,
     special fixName (set_name stored initial) = Return tt w2
     /\ _isVectorWaypoint w2 = vector
     /\ _name w2 = stored
     /\ _positionModel w2 = None
     /\ forall b, Stated.bound b w2 = Num (-1)) ->
  let result :=
    construct
      ((modify (set_name stored) ;;
        special fixName ;;
        Lenient._applyRestrictions restrictions ;;
        Lenient._initializePosition) initial) in
  (forallb Stated.wellFormedToken (Stated.tokens restrictions) = false
   /\ exists e, result = Thrown e)
  \/ (forallb Stated.wellFormedToken (Stated.tokens restrictions) = true
      /\ exists w3,
           _name w3 = stored
           /\ _isVectorWaypoint w3 = vector
           /\ _positionModel w3 = None
           /\ (forall b, Stated.bound b w3
                         = Stated.boundAfter b (Stated.tokens restrictions))
           /\ result =
                if vector then Normal w3
                else match getPositionModelForFixName stored with
                     | None => Thrown (ExpectedKnownFix stored)
                     | Some p => Normal (set_positionModel (Some p) w3)
                     end).
Proof.
  intros stored vector (w2 & Hspecial & Hv & Hn & Hp & Hb) result. subst result.
  run_method. rewrite Hspecial.
  destruct (applyRestrictions_cases restrictions w2)
    as [(Hall & w3 & Hrun & Hbounds) | (Hall & e & w3 & Hrun)].
  - right. split; [done |]. exists w3.
    pose proof (applyRestrictions_frame restrictions w2) as Hframe.
    rewrite Hrun in *. simpl in Hframe.
    destruct Hframe as (_ & _ & _ & Hv3 & Hn3 & Hp3).
    split; [congruence |]. split; [congruence |]. split; [congruence |].
    split.
    { intros b. by rewrite Hbounds, Hb. }
    unfold Lenient._initializePosition. rewrite Hv3, Hv, Hn3, Hn.
    destruct vector; [done |].
    by destruct (getPositionModelForFixName stored).
  - left. split; [done |]. exists e. by rewrite Hrun.
Qed.

Lemma lenient_new_outcome data fixName restrictions :
  Lenient.initArguments data = Normal (fixName, restrictions) ->
  let stored := JsString.replace "^" (JsString.replace "@" fixName) in
  let vector :=
    negb (hasMarker "^" fixName) && negb (hasMarker "@" fixName)
    && hasMarker "#" fixName in
  (forallb Stated.wellFormedToken (Stated.tokens restrictions) = false
   /\ exists e, Lenient.new data = Thrown e)
  \/ (forallb Stated.wellFormedToken (Stated.tokens restrictions) = true
      /\ exists w3,
           _name w3 = stored
           /\ _isVectorWaypoint w3 = vector
           /\ _positionModel w3 = None
           /\ (forall b, Stated.bound b w3
                         = Stated.boundAfter b (Stated.tokens restrictions))
           /\ Lenient.new data =
                if vector then Normal w3
                else match getPositionModelForFixName stored with
                     | None => Thrown (ExpectedKnownFix stored)
                     | Some p => Normal (set_positionModel (Some p) w3)
                     end).
Proof.
  intros Hargs stored vector.
  rewrite (new_is_construct _ _ _ Hargs), (lenient_init_unfold _ _ _ Hargs).
  apply construct_outcome.
  destruct (initSpecialWaypoint_effect fixName (set_name stored Lenient.initialProperties))
    as (w2 & Hspecial & _ & _ & Hv & Hn & Hp & Hb).
  exists w2. split_and!; try done. intros b. rewrite Hb. by destruct b.
Qed.

Lemma strict_new_is_construct data fixName restrictions :
  Lenient.initArguments data = Normal (fixName, restrictions) ->
  Strict.new data = construct (Strict.init data Strict.initialProperties).
Proof. by destruct data. Qed.

Lemma strict_new_outcome data fixName restrictions :
  Lenient.initArguments data = Normal (fixName, restrictions) ->
  let stored := JsString.replace "^" (JsString.replace "@" fixName) in
  let vector :=
    negb (hasMarker "^" fixName) && negb (hasMarker "@" fixName)
    && hasMarker "#" fixName in
  (forallb Stated.wellFormedToken (Stated.tokens restrictions) = false
   /\ exists e, Strict.new data = Thrown e)
  \/ (forallb Stated.wellFormedToken (Stated.tokens restrictions) = true
      /\ exists w3,
           _name w3 = stored
           /\ _isVectorWaypoint w3 = vector
           /\ _positionModel w3 = None
           /\ (forall b, Stated.bound b w3
                         = Stated.boundAfter b (Stated.tokens restrictions))
           /\ Strict.new data =
                if vector then Normal w3
                else match getPositionModelForFixName stored with
                     | None => Thrown (ExpectedKnownFix stored)
                     | Some p => Normal (set_positionModel (Some p) w3)
                     end).
Proof.
  intros Hargs stored vector.
  rewrite (strict_new_is_construct _ _ _ Hargs), (strict_init_unfold _ _ _ Hargs).
  apply construct_outcome.
  destruct (strict_initSpecialWaypoint_effect fixName
              (set_name stored Strict.initialProperties))
    as (w2 & Hspecial & _ & _ & Hv & Hn & Hp & Hb).
  exists w2. split_and!; try done. intros b. rewrite Hb. by destruct b.
Qed.

(** C4. A waypoint that is not a vector waypoint gets its position from the
    fix collection, by its stored name, when it is constructed: if the
    collection has no fix of that name the constructor throws, and a
    constructed waypoint that is no vector waypoint holds the position the
    collection gave, never null.  For a vector waypoint the collection is not
    asked: with well-formed restrictions the construction succeeds whatever
    the collection holds, and the position stays null.  With well-formed
    restrictions and a known name the construction succeeds.  Both
    revisions. *)
Theorem position_resolved_or_construction_throws
  (data : WaypointData) (fixName restrictions : string) :
  Lenient.initArguments data = Normal (fixName, restrictions) ->
  let stored := JsString.replace "^" (JsString.replace "@" fixName) in
  let property (new : WaypointData -> Completion WaypointModel) :=
    (Stated.classify fixName <> Stated.Vector ->
     getPositionModelForFixName stored = None ->
     exists e, new data = Thrown e)
    /\ (Stated.classify fixName <> Stated.Vector ->
        forallb Stated.wellFormedToken (Stated.tokens restrictions) = true ->
        getPositionModelForFixName stored = None ->
        new data = Thrown (ExpectedKnownFix stored))
    /\ (forall w, new data = Normal w -> _isVectorWaypoint w = false ->
          Stated.classify fixName <> Stated.Vector
          /\ exists position,
               _positionModel w = Some position
               /\ getPositionModelForFixName stored = Some position)
    /\ (forall w, new data = Normal w -> _isVectorWaypoint w = true ->
          Stated.classify fixName = Stated.Vector /\ _positionModel w = None)
    /\ (Stated.classify fixName = Stated.Vector ->
        forallb Stated.wellFormedToken (Stated.tokens restrictions) = true ->
        exists w, new data = Normal w /\ _positionModel w = None)
    /\ (forall position,
          Stated.classify fixName <> Stated.Vector ->
          forallb Stated.wellFormedToken (Stated.tokens restrictions) = true ->
          getPositionModelForFixName stored = Some position ->
          exists w, new data = Normal w /\ _positionModel w = Some position) in
  property Lenient.new /\ property Strict.new.
Proof.
  intros Hargs stored property.
  pose proof (classify_flags fixName) as Hclass.
  set (vector := negb (hasMarker "^" fixName) && negb (hasMarker "@" fixName)
                 && hasMarker "#" fixName) in *.
  assert (forall new : WaypointData -> Completion WaypointModel,
            (forallb Stated.wellFormedToken (Stated.tokens restrictions) = false
             /\ exists e, new data = Thrown e)
            \/ (forallb Stated.wellFormedToken (Stated.tokens restrictions) = true
                /\ exists w3,
                     _name w3 = stored
                     /\ _isVectorWaypoint w3 = vector
                     /\ _positionModel w3 = None
                     /\ (forall b, Stated.bound b w3
                                   = Stated.boundAfter b (Stated.tokens restrictions))
                     /\ new data =
                          if vector then Normal w3
                          else match getPositionModelForFixName stored with
                               | None => Thrown (ExpectedKnownFix stored)
                               | Some p => Normal (set_positionModel (Some p) w3)
                               end) ->
            property new) as Hgeneric.
  { intros new [(Hall & e & Hnew) | (Hall & w3 & Hn & Hv & Hp & _ & Hnew)];
      unfold property.
    - rewrite Hnew, Hall. split_and!; try done; eauto.
    - destruct vector eqn:Hvector.
      + assert (Stated.classify fixName = Stated.Vector) as Hc.
        { destruct (Stated.classify fixName); by simplify_eq. }
        rewrite Hnew. split_and!; try done.
        * intros w [= <-]. congruence.
        * intros w [= <-]. done.
        * eauto.
      + assert (Stated.classify fixName <> Stated.Vector) as Hc.
        { intros Hc. rewrite Hc in Hclass. by simplify_eq. }
        rewrite Hnew.
        destruct (getPositionModelForFixName stored) as [position |] eqn:Hlookup.
        * split_and!; try done.
          -- intros w [= <-] _. eauto.
          -- intros w [= <-]. simpl. congruence.
          -- intros position' _ _ [= <-]. eauto.
        * split_and!; try done; eauto. }
  split; apply Hgeneric.
  - exact (lenient_new_outcome _ _ _ Hargs).
  - exact (strict_new_outcome _ _ _ Hargs).
Qed.

(** Without both signs in the remainder, the rule with precedence is the rule
    as stated. *)
Lemma signRule_without_both_signs value remainder
  (minimumBefore maximumBefore minimumAfter maximumAfter : JsNumber) :
  ~ ("+"%char ∈ chars remainder /\ "-"%char ∈ chars remainder) ->
  Stated.SignRuleWithPrecedence value remainder
    minimumBefore maximumBefore minimumAfter maximumAfter ->
  Stated.SignRule value remainder
    minimumBefore maximumBefore minimumAfter maximumAfter.
Proof.
  unfold Stated.SignRuleWithPrecedence, Stated.SignRule.
  intros Hsigns (Hplus & Hminus & Hneither). split_and!; [done | | done].
  intros Hin. apply Hminus; [| done]. intros Hin'. by apply Hsigns.
Qed.

Lemma boundAfter_unset b ts :
  (forall t, t ∈ ts -> Stated.assigns b t = None) ->
  Stated.boundAfter b ts = Num (-1).
Proof.
  unfold Stated.boundAfter. generalize (Num (-1)) as current.
  induction ts as [|t ts IH]; intros current Hnone; simpl; [done |].
  rewrite (Hnone t) by (apply elem_of_cons; by left). simpl.
  apply IH. intros t' Hin. apply Hnone. apply elem_of_cons. by right.
Qed.

Lemma bound_set_positionModel b p (w : WaypointModel) :
  Stated.bound b (set_positionModel p w) = Stated.bound b w.
Proof. by destruct b. Qed.

(** C1.  A restriction token is read as follows: the remainder after the
    first letter goes through [parseInt] with radix 10, the result is
    multiplied by 100 for an altitude and kept for a speed.  On a remainder
    that has a plus sign or a minus sign or neither, as the tokens of the
    specification have them, the rule is the one stated: a plus sign
    anywhere sets the minimum only, a minus sign anywhere sets the maximum
    only, and a remainder with neither sets both to the value.  (A remainder
    with both signs is outside that grammar; there the plus sign decides,
    which the rule with precedence records for every remainder.)  The method
    never throws and leaves the bounds of the other kind alone.  With tokens
    that all begin with one of the two letters, the construction succeeds for
    a vector waypoint and for a known fix; a constructed waypoint has, for
    each of the four bounds, the value of the last token that sets it, and -1
    when no token does (so also when there is no restriction string).
    With [CLAYT] a known fix, the pair [CLAYT], [A50-|S210-] gives maximum
    altitude 5000, maximum speed 210, and both minima -1. *)
Theorem restriction_tokens_set_bounds :
  (forall remainder w,
     ~ ("+"%char ∈ chars remainder /\ "-"%char ∈ chars remainder) ->
     exists after,
       Lenient._applyAltitudeRestriction remainder w = Return tt after
       /\ Stated.SignRule (Stated.altitudeOf remainder) remainder
            (altitudeMinimum w) (altitudeMaximum w)
            (altitudeMinimum after) (altitudeMaximum after)
       /\ speedMinimum after = speedMinimum w
       /\ speedMaximum after = speedMaximum w)
  /\ (forall remainder w,
        ~ ("+"%char ∈ chars remainder /\ "-"%char ∈ chars remainder) ->
        exists after,
          Lenient._applySpeedRestriction remainder w = Return tt after
          /\ Stated.SignRule (Stated.speedOf remainder) remainder
               (speedMinimum w) (speedMaximum w)
               (speedMinimum after) (speedMaximum after)
          /\ altitudeMinimum after = altitudeMinimum w
          /\ altitudeMaximum after = altitudeMaximum w)
  /\ (forall remainder w,
     exists after,
       Lenient._applyAltitudeRestriction remainder w = Return tt after
       /\ Stated.SignRuleWithPrecedence (Stated.altitudeOf remainder) remainder
            (altitudeMinimum w) (altitudeMaximum w)
            (altitudeMinimum after) (altitudeMaximum after)
       /\ speedMinimum after = speedMinimum w
       /\ speedMaximum after = speedMaximum w)
  /\ (forall remainder w,
        exists after,
          Lenient._applySpeedRestriction remainder w = Return tt after
          /\ Stated.SignRuleWithPrecedence (Stated.speedOf remainder) remainder
               (speedMinimum w) (speedMaximum w)
               (speedMinimum after) (speedMaximum after)
          /\ altitudeMinimum after = altitudeMinimum w
          /\ altitudeMaximum after = altitudeMaximum w)
  /\ (forall fixName restrictions w,
        Lenient.new (DataArray [fixName; restrictions]) = Normal w
        \/ Strict.new (DataArray [fixName; restrictions]) = Normal w ->
        forallb Stated.wellFormedToken (Stated.tokens restrictions) = true
        /\ forall b, Stated.bound b w
                     = Stated.boundAfter b (Stated.tokens restrictions))
  /\ (forall fixName restrictions,
        forallb Stated.wellFormedToken (Stated.tokens restrictions) = true ->
        Stated.classify fixName = Stated.Vector
        \/ is_Some (getPositionModelForFixName
                      (JsString.replace "^" (JsString.replace "@" fixName))) ->
        (exists w, Lenient.new (DataArray [fixName; restrictions]) = Normal w)
        /\ (exists w, Strict.new (DataArray [fixName; restrictions]) = Normal w))
  /\ (forall b ts,
        (forall t, t ∈ ts -> Stated.assigns b t = None) ->
        Stated.boundAfter b ts = Num (-1))
  /\ (forall fixName w,
        Lenient.new (DataString fixName) = Normal w
        \/ Strict.new (DataString fixName) = Normal w ->
        forall b, Stated.bound b w = Num (-1))
  /\ (forall position,
        getPositionModelForFixName "CLAYT" = Some position ->
        exists w,
          Lenient.new (DataArray ["CLAYT"; "A50-|S210-"]) = Normal w
          /\ altitudeMaximum w = Num 5000
          /\ altitudeMinimum w = Num (-1)
          /\ speedMaximum w = Num 210
          /\ speedMinimum w = Num (-1)).
Proof.
  assert (forall (new : WaypointData -> Completion WaypointModel)
                 data fixName restrictions w,
            (forallb Stated.wellFormedToken (Stated.tokens restrictions) = false
             /\ exists e, new data = Thrown e)
            \/ (forallb Stated.wellFormedToken (Stated.tokens restrictions) = true
                /\ exists w3,
                     _name w3 = JsString.replace "^" (JsString.replace "@" fixName)
                     /\ _isVectorWaypoint w3 =
                          negb (hasMarker "^" fixName) && negb (hasMarker "@" fixName)
                          && hasMarker "#" fixName
                     /\ _positionModel w3 = None
                     /\ (forall b, Stated.bound b w3
                                   = Stated.boundAfter b (Stated.tokens restrictions))
                     /\ new data =
                          if negb (hasMarker "^" fixName) && negb (hasMarker "@" fixName)
                             && hasMarker "#" fixName
                          then Normal w3
                          else match getPositionModelForFixName
                                       (JsString.replace "^" (JsString.replace "@" fixName))
                               with
                               | None =>
                                   Thrown (ExpectedKnownFix
                                             (JsString.replace "^"
                                                (JsString.replace "@" fixName)))
                               | Some p => Normal (set_positionModel (Some p) w3)
                               end) ->
            new data = Normal w ->
            forallb Stated.wellFormedToken (Stated.tokens restrictions) = true
            /\ forall b, Stated.bound b w
                         = Stated.boundAfter b (Stated.tokens restrictions))
    as Hbounds.
  { intros new data fixName restrictions w
      [(_ & e & Hnew) | (Hall & w3 & _ & _ & _ & Hb & Hnew)] Hw.
    - congruence.
    - split; [done |]. rewrite Hnew in Hw.
      destruct (_ && hasMarker "#" fixName).
      + injection Hw as <-. done.
      + destruct (getPositionModelForFixName _); [| done].
        injection Hw as <-. intros b. by rewrite bound_set_positionModel. }
  split.
  { intros remainder w Hsigns.
    destruct (applyAltitudeRestriction_rule remainder w) as (after & Hrun & Hrule & Hs).
    exists after. split; [done |]. split; [| done].
    by apply signRule_without_both_signs. }
  split.
  { intros remainder w Hsigns.
    destruct (applySpeedRestriction_rule remainder w) as (after & Hrun & Hrule & Ha).
    exists after. split; [done |]. split; [| done].
    by apply signRule_without_both_signs. }
  split; [exact applyAltitudeRestriction_rule |].
  split; [exact applySpeedRestriction_rule |].
  split.
  { intros fixName restrictions w [Hw | Hw].
    - exact (Hbounds _ _ _ _ _
               (lenient_new_outcome (DataArray [fixName; restrictions]) _ _ eq_refl) Hw).
    - exact (Hbounds _ _ _ _ _
               (strict_new_outcome (DataArray [fixName; restrictions]) _ _ eq_refl) Hw). }
  split.
  { intros fixName restrictions Hall Hknown.
    assert (forall new : WaypointData -> Completion WaypointModel,
              (forallb Stated.wellFormedToken (Stated.tokens restrictions) = false
               /\ exists e, new (DataArray [fixName; restrictions]) = Thrown e)
              \/ (forallb Stated.wellFormedToken (Stated.tokens restrictions) = true
                  /\ exists w3,
                       _name w3 = JsString.replace "^" (JsString.replace "@" fixName)
                       /\ _isVectorWaypoint w3 =
                            negb (hasMarker "^" fixName) && negb (hasMarker "@" fixName)
                            && hasMarker "#" fixName
                       /\ _positionModel w3 = None
                       /\ (forall b, Stated.bound b w3
                                     = Stated.boundAfter b (Stated.tokens restrictions))
                       /\ new (DataArray [fixName; restrictions]) =
                            if negb (hasMarker "^" fixName)
                               && negb (hasMarker "@" fixName)
                               && hasMarker "#" fixName
                            then Normal w3
                            else match getPositionModelForFixName
                                         (JsString.replace "^"
                                            (JsString.replace "@" fixName))
                                 with
                                 | None =>
                                     Thrown (ExpectedKnownFix
                                               (JsString.replace "^"
                                                  (JsString.replace "@" fixName)))
                                 | Some p => Normal (set_positionModel (Some p) w3)
                                 end) ->
              exists w, new (DataArray [fixName; restrictions]) = Normal w)
      as Hreturns.
    { intros new [(Hnot & _) | (_ & w3 & _ & _ & _ & _ & Hnew)]; [congruence |].
      rewrite Hnew. pose proof (classify_flags fixName) as Hflags.
      destruct (_ && hasMarker "#" fixName) eqn:Hvector; [eauto |].
      destruct Hknown as [Hc | [position Hposition]].
      - rewrite Hc in Hflags. by simplify_eq.
      - rewrite Hposition. eauto. }
    split; apply Hreturns.
    - exact (lenient_new_outcome (DataArray [fixName; restrictions]) _ _ eq_refl).
    - exact (strict_new_outcome (DataArray [fixName; restrictions]) _ _ eq_refl). }
  split; [exact boundAfter_unset |].
  split.
  { intros fixName w [Hw | Hw].
    - exact (proj2 (Hbounds _ _ _ _ _
                      (lenient_new_outcome (DataString fixName) _ _ eq_refl) Hw)).
    - exact (proj2 (Hbounds _ _ _ _ _
                      (strict_new_outcome (DataString fixName) _ _ eq_refl) Hw)). }
  intros position Hlookup.
  destruct (lenient_new_outcome (DataArray ["CLAYT"; "A50-|S210-"]) _ _ eq_refl)
    as [(Hall & _) | (_ & w3 & _ & _ & _ & Hb & Hnew)]; [discriminate |].
  change (JsString.replace "^" (JsString.replace "@" "CLAYT")) with "CLAYT" in Hnew.
  rewrite Hlookup in Hnew.
  exists (set_positionModel (Some position) w3). split; [exact Hnew |].
  split; [exact (Hb Stated.AltitudeMaximum) |].
  split; [exact (Hb Stated.AltitudeMinimum) |].
  split; [exact (Hb Stated.SpeedMaximum) | exact (Hb Stated.SpeedMinimum)].
Qed.

(** *** Vector waypoints *)

Lemma PI_between : (31415 / 10000 < PI < 31416 / 10000)%R.
Proof.
  pose proof (PI_2_3_7_ineq 2) as [Hlow Hhigh].
  unfold sum_f_R0, tg_alt, PI_2_3_7_tg, Ratan_seq in Hlow, Hhigh.
  simpl in Hlow, Hhigh.
  split; lra.
Qed.

Lemma classify_vector_markers fixName :
  Stated.classify fixName = Stated.Vector ->
  hasMarker "^" fixName = false
  /\ hasMarker "@" fixName = false
  /\ hasMarker "#" fixName = true.
Proof.
  intros Hc. pose proof (classify_flags fixName) as Hflags. rewrite Hc in Hflags.
  by destruct (hasMarker "^" fixName), (hasMarker "@" fixName),
       (hasMarker "#" fixName).
Qed.

(** C3, with the heading read the way the code reads it.  A token with the
    vector marker and neither of the two markers checked before it gives,
    in both revisions, a vector waypoint without a position, whose stored
    name is the token; [getVector] removes the first vector marker from the
    stored name, reads what is left with [parseInt], radix 10, and converts
    the degrees to radians.  When the marker is the first character this is
    the number after the marker; for the token of 270 degrees the result lies
    between 4.712 and 4.713.  On a waypoint that is no vector waypoint
    [getVector] returns [undefined]. *)
Theorem vector_waypoint_heading (fixName : string) :
  Stated.classify fixName = Stated.Vector ->
  let heading :=
    degreesToRadians (JsString.parseInt (JsString.replace "#" fixName)) in
  let property (new : WaypointData -> Completion WaypointModel) :=
    (exists w, new (DataString fixName) = Normal w)
    /\ (forall data restrictions w,
          Lenient.initArguments data = Normal (fixName, restrictions) ->
          new data = Normal w ->
          _isVectorWaypoint w = true
          /\ _positionModel w = None
          /\ _name w = fixName
          /\ Lenient.getVector w = Some heading) in
  property Lenient.new
  /\ property Strict.new
  /\ (forall rest, fixName = String "#" rest ->
        heading = Stated.headingAfterPoundSign fixName
        /\ heading = degreesToRadians (JsString.parseInt rest))
  /\ (forall w : WaypointModel,
        _isVectorWaypoint w = false -> Lenient.getVector w = None)
  /\ (exists radians,
        degreesToRadians (JsString.parseInt (JsString.replace "#" "#270"))
        = RNum radians
        /\ (4712 / 1000 < radians < 4713 / 1000)%R).
Proof.
  intros Hclass heading property.
  destruct (classify_vector_markers _ Hclass) as (Hfly & Hhold & Hvector).
  assert (JsString.replace "^" (JsString.replace "@" fixName) = fixName) as Hstored.
  { apply hasMarker_not_elem_of in Hfly, Hhold.
    by rewrite (replace_absent "@"), (replace_absent "^"). }
  assert (forall new : WaypointData -> Completion WaypointModel,
            (forall data restrictions,
               Lenient.initArguments data = Normal (fixName, restrictions) ->
               (forallb Stated.wellFormedToken (Stated.tokens restrictions) = false
                /\ exists e, new data = Thrown e)
               \/ (forallb Stated.wellFormedToken (Stated.tokens restrictions) = true
                   /\ exists w3,
                        _name w3 = fixName
                        /\ _isVectorWaypoint w3 = true
                        /\ _positionModel w3 = None
                        /\ (forall b, Stated.bound b w3
                                      = Stated.boundAfter b (Stated.tokens restrictions))
                        /\ new data = Normal w3)) ->
            property new) as Hgeneric.
  { intros new Houtcome. split.
    - destruct (Houtcome (DataString fixName) "" eq_refl)
        as [(Hall & _) | (_ & w3 & _ & _ & _ & _ & Hnew)]; [discriminate | eauto].
    - intros data restrictions w Hargs Hnew.
      destruct (Houtcome data restrictions Hargs)
        as [(_ & e & Hthrown) | (_ & w3 & Hn & Hv & Hp & _ & Hnormal)];
        [congruence |].
      assert (w = w3) as -> by congruence.
      split_and!; try done.
      unfold Lenient.getVector, heading. by rewrite Hv, Hn. }
  split.
  { apply Hgeneric. intros data restrictions Hargs.
    pose proof (lenient_new_outcome _ _ _ Hargs) as Houtcome. cbv zeta in Houtcome.
    by rewrite Hstored, Hfly, Hhold, Hvector in Houtcome. }
  split.
  { apply Hgeneric. intros data restrictions Hargs.
    pose proof (strict_new_outcome _ _ _ Hargs) as Houtcome. cbv zeta in Houtcome.
    by rewrite Hstored, Hfly, Hhold, Hvector in Houtcome. }
  split.
  { intros rest ->. unfold heading, Stated.headingAfterPoundSign. by simpl. }
  split.
  { intros w Hnot. unfold Lenient.getVector. by rewrite Hnot. }
  exists (IZR 270 * PI / 180)%R. split; [reflexivity |].
  pose proof PI_between. lra.
Qed.

End WaypointProperties.

(** ** The navigation library *)

Section NavigationProperties.
Context `{NavigationCollaborators}.

Import Navigation.

Local Abbreviation method := (Method World unit).

Ltac run_method :=
  unfold mbind, Method_bind, mret, Method_ret, modify, throw in *.

Lemma forEach_app {A} (pre post : list (string * A)) (callback : A -> string -> method) w :
  _forEach (pre ++ post) callback w =
  match _forEach pre callback w with
  | Return _ w1 => _forEach post callback w1
  | Throw e w1 => Throw e w1
  end.
Proof.
  revert w. induction pre as [|[key value] pre IH]; intros w; simpl; [done |].
  run_method. destruct (callback value key w) as [[] w1 | e w1]; [apply IH | done].
Qed.

(** A loop whose callback throws on a key that is present, and that makes
    the key it was given present when it returns: the keys of the entries it
    has gone through are all present afterwards. *)
Lemma forEach_keys_present {A} (callback : A -> string -> method)
  (present : string -> World -> bool) :
  (forall value key w w',
     callback value key w = Return tt w' ->
     present key w' = true
     /\ forall key', present key' w = true -> present key' w' = true) ->
  forall entries w w',
    _forEach entries callback w = Return tt w' ->
    forall key, key ∈ entries.*1 \/ present key w = true -> present key w' = true.
Proof.
  intros Hadds entries.
  induction entries as [|[key0 value] entries IH]; intros w w' Hrun key Hkey; simpl in *.
  - injection Hrun as <-. destruct Hkey as [Hin | Hp]; [| done].
    by apply elem_of_nil in Hin.
  - run_method. destruct (callback value key0 w) as [[] w1 | e w1] eqn:Hcall;
      [| discriminate].
    destruct (Hadds _ _ _ _ Hcall) as (Hnow & Hkept).
    apply (IH _ _ Hrun). destruct Hkey as [Hin | Hp].
    + apply elem_of_cons in Hin as [-> | Hin]; [by right | by left].
    + right. by apply Hkept.
Qed.

(** Such a loop throws at the first entry whose key is already present, in the
    state the entries before it have left; what follows that entry plays no
    part. *)
Lemma forEach_repeated_key {A} (callback : A -> string -> method)
  (present : string -> World -> bool) (error : string -> TypeError) :
  (forall value key w, present key w = true -> callback value key w = Throw (error key) w) ->
  (forall value key w w',
     callback value key w = Return tt w' ->
     present key w' = true
     /\ forall key', present key' w = true -> present key' w' = true) ->
  forall pre key value post w,
    key ∈ pre.*1 \/ present key w = true ->
    exists e w',
      _forEach (pre ++ (key, value) :: post) callback w = Throw e w'
      /\ (forall post', _forEach (pre ++ (key, value) :: post') callback w = Throw e w')
      /\ (forall w1, _forEach pre callback w = Return tt w1 -> e = error key /\ w' = w1).
Proof.
  intros Hguard Hadds pre key value post w Hkey.
  destruct (_forEach pre callback w) as [[] w1 | e w1] eqn:Hpre.
  - assert (present key w1 = true) as Hpresent
      by exact (forEach_keys_present _ _ Hadds _ _ _ Hpre _ Hkey).
    exists (error key), w1. split_and!.
    + rewrite forEach_app, Hpre. simpl. run_method. by rewrite Hguard.
    + intros post'. rewrite forEach_app, Hpre. simpl. run_method. by rewrite Hguard.
    + by intros w1' [= <-].
  - exists e, w1. split_and!.
    + by rewrite forEach_app, Hpre.
    + intros post'. by rewrite forEach_app, Hpre.
    + intros w1' [=].
Qed.

Lemma js_in_insert {A} key key' (value : A) (collection : gmap string A) :
  js_in key' (<[key := value]> collection) = true <->
  key' = key \/ js_in key' collection = true.
Proof.
  unfold js_in. rewrite !orb_true_iff, !bool_decide_eq_true.
  destruct (decide (key' = key)) as [-> | Hne].
  - rewrite lookup_insert_eq. split; [by left | by left].
  - rewrite lookup_insert_ne by done. intuition congruence.
Qed.

Lemma defineAirway_guard fixNames airwayName w :
  js_in airwayName (_airwayCollection (library w)) = true ->
  defineAirway fixNames airwayName w = Throw (ExpectedSingleAirway airwayName) w.
Proof. intros Hin. unfold defineAirway. by rewrite Hin. Qed.

Lemma defineAirway_adds fixNames airwayName w w' :
  defineAirway fixNames airwayName w = Return tt w' ->
  js_in airwayName (_airwayCollection (library w')) = true
  /\ forall key, js_in key (_airwayCollection (library w)) = true ->
                 js_in key (_airwayCollection (library w')) = true.
Proof.
  unfold defineAirway.
  destruct (js_in airwayName _); [discriminate |].
  destruct (newAirwayModel _ _ _); [| discriminate].
  intros [= <-]. simpl. split.
  - apply js_in_insert. by left.
  - intros key Hkey. apply js_in_insert. by right.
Qed.

Lemma defineAirway_frame fixNames airwayName w :
  let w' := finalState (defineAirway fixNames airwayName w) in
  _procedureCollection (library w') = _procedureCollection (library w)
  /\ fixCollection w' = fixCollection w
  /\ console w' = console w.
Proof.
  unfold defineAirway. cbv zeta.
  destruct (js_in airwayName _); [done |].
  by destruct (newAirwayModel _ _ _).
Qed.

Lemma defineTypedProcedure_guard typed procedureId w :
  js_in procedureId (_procedureCollection (library w)) = true ->
  defineTypedProcedure typed procedureId w
  = Throw (ExpectedSingleProcedure procedureId) w.
Proof.
  intros Hin. unfold defineTypedProcedure, defineProcedure. by rewrite Hin.
Qed.

Lemma defineTypedProcedure_adds typed procedureId w w' :
  defineTypedProcedure typed procedureId w = Return tt w' ->
  js_in procedureId (_procedureCollection (library w')) = true
  /\ forall key, js_in key (_procedureCollection (library w)) = true ->
                 js_in key (_procedureCollection (library w')) = true.
Proof.
  unfold defineTypedProcedure, defineProcedure.
  destruct (js_in procedureId _); [discriminate |].
  destruct (newProcedureModel _ _); [| discriminate].
  intros [= <-]. simpl. split.
  - apply js_in_insert. by left.
  - intros key Hkey. apply js_in_insert. by right.
Qed.

Lemma forEach_typed (type : PROCEDURE_TYPE)
  (procedures : list (string * ProcedureDefinition)) w :
  _forEach ((fun entry => (entry.1, (type, entry.2))) <$> procedures)
    defineTypedProcedure w
  = _forEach procedures (defineProcedure type) w.
Proof.
  revert w. induction procedures as [|[id definition] procedures IH]; intros w;
    simpl; [done |].
  run_method. unfold defineTypedProcedure at 1. simpl.
  destruct (defineProcedure type definition id w); [apply IH | done].
Qed.

(** [_initializeProcedureCollection] is one loop over the SIDs followed by
    the STARs. *)
Lemma initializeProcedureCollection_entries sids stars w :
  _initializeProcedureCollection sids stars w
  = _forEach (procedureEntries sids stars) defineTypedProcedure w.
Proof.
  unfold _initializeProcedureCollection, procedureEntries.
  rewrite forEach_app, forEach_typed. run_method.
  destruct (_forEach sids (defineProcedure SID) w); [| done].
  by rewrite forEach_typed.
Qed.

(** The airway loop leaves the procedures, the fix collection and the console
    as they are. *)
Lemma initializeAirwayCollection_frame airways w :
  let w' := finalState (_initializeAirwayCollection airways w) in
  _procedureCollection (library w') = _procedureCollection (library w)
  /\ fixCollection w' = fixCollection w
  /\ console w' = console w.
Proof.
  unfold _initializeAirwayCollection. cbv zeta. revert w.
  induction airways as [|[airwayName fixNames] airways IH]; intros w; simpl; [done |].
  run_method.
  destruct (defineAirway_frame fixNames airwayName w) as (Hp & Hf & Hc).
  destruct (defineAirway fixNames airwayName w) as [[] w1 | e w1]; simpl in *.
  - destruct (IH w1) as (Hp' & Hf' & Hc'). split_and!; congruence.
  - done.
Qed.

(** The two steps of [init] that come before the collections are filled leave
    both collections as they are. *)
Lemma prelude_frame (airportJson : AirportJson) w :
  let w' :=
    finalState
      ((_initializeReferencePosition airportJson ;;
        _initializeFixCollection (fixes airportJson)) w) in
  _airwayCollection (library w') = _airwayCollection (library w)
  /\ _procedureCollection (library w') = _procedureCollection (library w)
  /\ console w' = console w.
Proof.
  cbv zeta. run_method.
  unfold _initializeReferencePosition, _initializeFixCollection.
  destruct (newStaticPositionModel _); [| done]. simpl.
  by destruct (FixCollection_addItems _ _ _).
Qed.

Lemma init_stages (airportJson : AirportJson) w :
  init airportJson w =
  match (_initializeReferencePosition airportJson ;;
         _initializeFixCollection (fixes airportJson)) w with
  | Throw e w0 => Throw e w0
  | Return _ w0 =>
      match _initializeAirwayCollection (airways airportJson) w0 with
      | Throw e w1 => Throw e w1
      | Return _ w1 =>
          match _initializeProcedureCollection
                  (sids airportJson) (stars airportJson) w1 with
          | Throw e w2 => Throw e w2
          | Return _ w2 => _showConsoleWarningForUndefinedFixes w2
          end
      end
  end.
Proof.
  unfold init. run_method.
  destruct (_initializeReferencePosition airportJson w) as [[] wa | e wa]; [| done].
  destruct (_initializeFixCollection (fixes airportJson) wa) as [[] wb | e wb];
    [| done].
  destruct (_initializeAirwayCollection (airways airportJson) wb) as [[] wc | e wc];
    [| done].
  by destruct (_initializeProcedureCollection _ _ wc) as [[] wd | e wd].
Qed.

Lemma airway_loop_repeated pre airwayName fixNames post w :
  airwayName ∈ pre.*1 \/ js_in airwayName (_airwayCollection (library w)) = true ->
  exists e w',
    _initializeAirwayCollection (pre ++ (airwayName, fixNames) :: post) w = Throw e w'
    /\ (forall post',
          _initializeAirwayCollection (pre ++ (airwayName, fixNames) :: post') w
          = Throw e w')
    /\ (forall w1, _initializeAirwayCollection pre w = Return tt w1 ->
          e = ExpectedSingleAirway airwayName /\ w' = w1).
Proof.
  apply (forEach_repeated_key defineAirway
           (fun key w => js_in key (_airwayCollection (library w)))
           ExpectedSingleAirway).
  - exact defineAirway_guard.
  - exact defineAirway_adds.
Qed.

Lemma procedure_loop_repeated pre procedureId typed post w :
  procedureId ∈ pre.*1
  \/ js_in procedureId (_procedureCollection (library w)) = true ->
  exists e w',
    _forEach (pre ++ (procedureId, typed) :: post) defineTypedProcedure w = Throw e w'
    /\ (forall post',
          _forEach (pre ++ (procedureId, typed) :: post') defineTypedProcedure w
          = Throw e w')
    /\ (forall w1, _forEach pre defineTypedProcedure w = Return tt w1 ->
          e = ExpectedSingleProcedure procedureId /\ w' = w1).
Proof.
  apply (forEach_repeated_key defineTypedProcedure
           (fun key w => js_in key (_procedureCollection (library w)))
           ExpectedSingleProcedure).
  - exact defineTypedProcedure_guard.
  - exact defineTypedProcedure_adds.
Qed.

(** [init] throws when an airway name of the file is already in the
    collection or stands twice among the entries. *)
Lemma init_throws_on_airway (airportJson : AirportJson) w pre airwayName fixNames post :
  airways airportJson = pre ++ (airwayName, fixNames) :: post ->
  airwayName ∈ pre.*1 \/ js_in airwayName (_airwayCollection (library w)) = true ->
  hasThrown (init airportJson w) = true.
Proof.
  intros Hairways Hkey. rewrite init_stages.
  destruct (prelude_frame airportJson w) as (Ha & _).
  destruct ((_initializeReferencePosition airportJson ;;
             _initializeFixCollection (fixes airportJson)) w) as [[] w0 | e w0];
    [| done].
  simpl in Ha. rewrite Hairways.
  destruct (airway_loop_repeated pre airwayName fixNames post w0)
    as (e & w' & -> & _); [| done].
  rewrite Ha. exact Hkey.
Qed.

Lemma init_throws_on_procedure (airportJson : AirportJson) w pre procedureId typed post :
  procedureEntries (sids airportJson) (stars airportJson)
  = pre ++ (procedureId, typed) :: post ->
  procedureId ∈ pre.*1
  \/ js_in procedureId (_procedureCollection (library w)) = true ->
  hasThrown (init airportJson w) = true.
Proof.
  intros Hentries Hkey. rewrite init_stages.
  destruct (prelude_frame airportJson w) as (_ & Hp & _).
  destruct ((_initializeReferencePosition airportJson ;;
             _initializeFixCollection (fixes airportJson)) w) as [[] w0 | e w0];
    [| done].
  simpl in Hp.
  destruct (initializeAirwayCollection_frame (airways airportJson) w0) as (Hp' & _).
  destruct (_initializeAirwayCollection (airways airportJson) w0) as [[] w1 | e w1];
    [| done].
  simpl in Hp'.
  rewrite initializeProcedureCollection_entries, Hentries.
  destruct (procedure_loop_repeated pre procedureId typed post w1)
    as (e & w' & -> & _); [| done].
  rewrite Hp', Hp. exact Hkey.
Qed.

(** C7. A second definition of an airway name, or of a procedure identifier
    (the SIDs and the STARs share one collection), makes [init] throw while
    it loads the file: the loop throws at the entry that repeats a key, in
    the state the entries before it have left, so no later airway or
    procedure is gone through and what follows the repeated entry has no
    influence on the outcome.  The same holds for a key that the collection
    already holds when the loop starts. *)
Theorem repeated_definition_throws_at_load :
  (forall pre airwayName fixNames post w,
     airwayName ∈ pre.*1
     \/ js_in airwayName (_airwayCollection (library w)) = true ->
     exists e w',
       _initializeAirwayCollection (pre ++ (airwayName, fixNames) :: post) w
       = Throw e w'
       /\ (forall post',
             _initializeAirwayCollection (pre ++ (airwayName, fixNames) :: post') w
             = Throw e w')
       /\ (forall w1, _initializeAirwayCollection pre w = Return tt w1 ->
             e = ExpectedSingleAirway airwayName /\ w' = w1))
  /\ (forall sids stars pre procedureId typed post w,
        procedureEntries sids stars = pre ++ (procedureId, typed) :: post ->
        procedureId ∈ pre.*1
        \/ js_in procedureId (_procedureCollection (library w)) = true ->
        exists e w',
          _initializeProcedureCollection sids stars w = Throw e w'
          /\ (forall sids' stars' post',
                procedureEntries sids' stars' = pre ++ (procedureId, typed) :: post' ->
                _initializeProcedureCollection sids' stars' w = Throw e w')
          /\ (forall w1, _forEach pre defineTypedProcedure w = Return tt w1 ->
                e = ExpectedSingleProcedure procedureId /\ w' = w1))
  /\ (forall (airportJson : AirportJson) pre airwayName fixNames post w,
        airways airportJson = pre ++ (airwayName, fixNames) :: post ->
        airwayName ∈ pre.*1 ->
        hasThrown (init airportJson w) = true
        /\ forall other : AirportJson,
             referencePoint other = referencePoint airportJson ->
             fixes other = fixes airportJson ->
             (exists post', airways other = pre ++ (airwayName, fixNames) :: post') ->
             init other w = init airportJson w)
  /\ (forall (airportJson : AirportJson) pre procedureId typed post w,
        procedureEntries (sids airportJson) (stars airportJson)
        = pre ++ (procedureId, typed) :: post ->
        procedureId ∈ pre.*1 ->
        hasThrown (init airportJson w) = true
        /\ forall other : AirportJson,
             referencePoint other = referencePoint airportJson ->
             fixes other = fixes airportJson ->
             airways other = airways airportJson ->
             (exists post', procedureEntries (sids other) (stars other)
                            = pre ++ (procedureId, typed) :: post') ->
             init other w = init airportJson w)
  /\ (forall (airportJson : AirportJson) procedureId sid star w,
        (procedureId, sid) ∈ sids airportJson ->
        (procedureId, star) ∈ stars airportJson ->
        hasThrown (init airportJson w) = true).
Proof.
  split; [exact airway_loop_repeated |].
  split.
  { intros sids stars pre procedureId typed post w Hentries Hkey.
    destruct (procedure_loop_repeated pre procedureId typed post w Hkey)
      as (e & w' & Hrun & Hlater & Hstate).
    exists e, w'. split_and!.
    - by rewrite initializeProcedureCollection_entries, Hentries.
    - intros sids' stars' post' Hentries'.
      by rewrite initializeProcedureCollection_entries, Hentries'.
    - exact Hstate. }
  split.
  { intros airportJson pre airwayName fixNames post w Hairways Hkey.
    split; [by eapply init_throws_on_airway; eauto |].
    intros other Hpoint Hfixes (post' & Hairways').
    rewrite !init_stages. run_method.
    unfold _initializeReferencePosition. rewrite Hpoint, Hfixes.
    destruct (newStaticPositionModel (referencePoint airportJson)); [| done].
    destruct (_initializeFixCollection (fixes airportJson) _) as [[] w0 | e w0];
      [| done].
    rewrite Hairways, Hairways'.
    destruct (airway_loop_repeated pre airwayName fixNames post w0 (or_introl Hkey))
      as (e & w' & -> & Hlater & _).
    by rewrite Hlater. }
  split.
  { intros airportJson pre procedureId typed post w Hentries Hkey.
    split; [by eapply init_throws_on_procedure; eauto |].
    intros other Hpoint Hfixes Hairways (post' & Hentries').
    rewrite !init_stages. run_method.
    unfold _initializeReferencePosition. rewrite Hpoint, Hfixes, Hairways.
    destruct (newStaticPositionModel (referencePoint airportJson)); [| done].
    destruct (_initializeFixCollection (fixes airportJson) _) as [[] w0 | e w0];
      [| done].
    destruct (_initializeAirwayCollection (airways airportJson) w0) as [[] w1 | e w1];
      [| done].
    rewrite !initializeProcedureCollection_entries, Hentries, Hentries'.
    destruct (procedure_loop_repeated pre procedureId typed post w1 (or_introl Hkey))
      as (e & w' & -> & Hlater & _).
    by rewrite Hlater. }
  intros airportJson procedureId sid star w Hsid Hstar.
  apply list_elem_of_split in Hstar as (before & after & Hstars).
  eapply (init_throws_on_procedure airportJson w
            (((fun entry => (entry.1, (SID, entry.2))) <$> sids airportJson)
             ++ ((fun entry => (entry.1, (STAR, entry.2))) <$> before))
            procedureId (STAR, star)
            ((fun entry => (entry.1, (STAR, entry.2))) <$> after)).
  - unfold procedureEntries. rewrite Hstars, fmap_app, fmap_cons. simpl.
    by rewrite <- app_assoc.
  - left. rewrite fmap_app, elem_of_app. left.
    rewrite <- list_fmap_compose. apply list_elem_of_fmap.
    by exists (procedureId, sid).
Qed.

(** *** The fixes in use *)

Lemma elem_of_flatten groups value :
  value ∈ Lodash._flatten groups <->
  exists group, group ∈ groups /\ Lodash.mentions group value.
Proof.
  induction groups as [|group groups IH]; simpl.
  - split; [by intros ?%elem_of_nil | by intros (? & ?%elem_of_nil & _)].
  - destruct group as [fixNames | fixName].
    + rewrite elem_of_app, IH. split.
      * intros [Hin | (g & Hg & Hm)].
        -- exists (GroupArray fixNames). split; [by left | done].
        -- exists g. split; [by right | done].
      * intros (g & [-> | Hg]%elem_of_cons & Hm); [by left | right; eauto].
    + rewrite elem_of_cons, IH. split.
      * intros [-> | (g & Hg & Hm)].
        -- exists (GroupValue fixName). split; [by left | done].
        -- exists g. split; [by right | done].
      * intros (g & [-> | Hg]%elem_of_cons & Hm); [by left | right; eauto].
Qed.

Lemma elem_of_uniqFrom seen values value :
  value ∈ Lodash.uniqFrom seen values <-> value ∈ values /\ value ∉ seen.
Proof.
  revert seen. induction values as [|v values IH]; intros seen; simpl.
  - split; [by intros ?%elem_of_nil | by intros [?%elem_of_nil _]].
  - case_bool_decide as Hseen.
    + rewrite IH, elem_of_cons. split; [intros [? ?]; auto |].
      intros [[-> | Hin] Hnot]; [done | auto].
    + rewrite !elem_of_cons, IH, not_elem_of_cons.
      split.
      * intros [-> | (Hin & Hne & Hnot)]; [auto | auto].
      * intros [[-> | Hin] Hnot]; [by left |].
        destruct (decide (value = v)) as [-> | Hne]; [by left | right; auto].
Qed.

Lemma NoDup_uniqFrom seen values : NoDup (Lodash.uniqFrom seen values).
Proof.
  revert seen. induction values as [|v values IH]; intros seen; simpl.
  - constructor.
  - case_bool_decide; [apply IH |].
    constructor; [| apply IH].
    rewrite elem_of_uniqFrom, not_elem_of_cons. tauto.
Qed.

Lemma elem_of_without_undefined values fixName :
  fixName ∈ Lodash._without_undefined values <-> Some fixName ∈ values.
Proof.
  induction values as [|[v |] values IH]; simpl.
  - split; by intros ?%elem_of_nil.
  - rewrite !elem_of_cons, IH. split; intros [? | ?]; auto; left; congruence.
  - rewrite elem_of_cons, IH. split; [auto | intros [? | ?]; [done | auto]].
Qed.

Lemma NoDup_without_undefined values :
  NoDup values -> NoDup (Lodash._without_undefined values).
Proof.
  induction values as [|[v |] values IH]; simpl; intros Hnodup.
  - constructor.
  - apply NoDup_cons in Hnodup as [Hnot Hnodup].
    constructor; [by rewrite elem_of_without_undefined | auto].
  - apply NoDup_cons in Hnodup as [_ Hnodup]. auto.
Qed.

Lemma elem_of_lodash_map {A B} (collection : gmap string A) (f : A -> B) y :
  y ∈ Lodash._map collection f <->
  exists key a, collection !! key = Some a /\ y = f a.
Proof.
  unfold Lodash._map. rewrite list_elem_of_fmap. split.
  - intros (a & -> & ([key a'] & -> & Hin%elem_of_map_to_list)%list_elem_of_fmap).
    by exists key, a'.
  - intros (key & a & Hlookup & ->). exists a. split; [done |].
    apply list_elem_of_fmap. exists (key, a). split; [done |].
    by apply elem_of_map_to_list.
Qed.

Lemma StronglySorted_filter {A} (R : relation A) (p : A -> bool) l :
  StronglySorted R l -> StronglySorted R (List.filter p l).
Proof.
  induction 1 as [|x l Hsorted IH Hall]; simpl; [constructor |].
  destruct (p x); [| done].
  constructor; [done |].
  rewrite Forall_forall in Hall |- *.
  intros y [Hin _]%list_elem_of_In%filter_In. apply Hall. by apply list_elem_of_In.
Qed.

Lemma NoDup_list_filter {A} (p : A -> bool) (l : list A) :
  NoDup l -> NoDup (List.filter p l).
Proof.
  induction 1 as [|x l Hnot Hnodup IH]; simpl; [constructor |].
  destruct (p x); [| done].
  constructor; [| done].
  intros [Hin _]%list_elem_of_In%filter_In. by apply Hnot, list_elem_of_In.
Qed.

(** The names in use: every name that an airway or a procedure mentions, each
    once, in ascending order. *)
Lemma getAllFixNamesInUse_spec w :
  StronglySorted String.le (_getAllFixNamesInUse w)
  /\ NoDup (_getAllFixNamesInUse w)
  /\ forall fixName, fixName ∈ _getAllFixNamesInUse w <-> referenced w fixName.
Proof.
  unfold _getAllFixNamesInUse, Lodash.sort, Lodash._uniq.
  split_and!.
  - apply StronglySorted_merge_sort; apply _.
  - rewrite merge_sort_Permutation.
    apply NoDup_without_undefined, NoDup_uniqFrom.
  - intros fixName. rewrite merge_sort_Permutation, elem_of_without_undefined,
      elem_of_uniqFrom, elem_of_flatten.
    unfold referenced. split.
    + intros [(group & [Hin | Hin]%elem_of_app & Hmentions) _].
      * apply elem_of_lodash_map in Hin as (key & a & Hlookup & ->).
        left. eauto.
      * apply elem_of_lodash_map in Hin as (key & a & Hlookup & ->).
        right. eauto.
    + intros [(key & a & Hlookup & Hmentions) | (key & a & Hlookup & Hmentions)].
      * split; [| apply not_elem_of_nil].
        exists (fixNameCollection a). split; [| done].
        apply elem_of_app. left. apply elem_of_lodash_map. eauto.
      * split; [| apply not_elem_of_nil].
        exists (getAllFixNamesInUse a). split; [| done].
        apply elem_of_app. right. apply elem_of_lodash_map. eauto.
Qed.

Lemma defineTypedProcedure_frame typed procedureId w :
  let w' := finalState (defineTypedProcedure typed procedureId w) in
  _airwayCollection (library w') = _airwayCollection (library w)
  /\ fixCollection w' = fixCollection w
  /\ console w' = console w.
Proof.
  unfold defineTypedProcedure, defineProcedure. cbv zeta.
  destruct (js_in procedureId _); [done |].
  by destruct (newProcedureModel _ _).
Qed.

Lemma initializeProcedureCollection_frame sids stars w :
  let w' := finalState (_initializeProcedureCollection sids stars w) in
  _airwayCollection (library w') = _airwayCollection (library w)
  /\ fixCollection w' = fixCollection w
  /\ console w' = console w.
Proof.
  cbv zeta. rewrite initializeProcedureCollection_entries.
  generalize (procedureEntries sids stars) as entries. intros entries. revert w.
  induction entries as [|[procedureId typed] entries IH]; intros w; simpl; [done |].
  run_method.
  destruct (defineTypedProcedure_frame typed procedureId w) as (Ha & Hf & Hc).
  destruct (defineTypedProcedure typed procedureId w) as [[] w1 | e w1]; simpl in *.
  - destruct (IH w1) as (Ha' & Hf' & Hc'). split_and!; congruence.
  - done.
Qed.

(** [init] is the four steps that build the library followed by the scan for
    undefined fixes. *)
Lemma init_build_then_scan (airportJson : AirportJson) w :
  init airportJson w =
  match (_initializeReferencePosition airportJson ;;
         _initializeFixCollection (fixes airportJson) ;;
         _initializeAirwayCollection (airways airportJson) ;;
         _initializeProcedureCollection (sids airportJson) (stars airportJson)) w
  with
  | Return _ w1 => _showConsoleWarningForUndefinedFixes w1
  | Throw e w1 => Throw e w1
  end.
Proof.
  unfold init. run_method.
  destruct (_initializeReferencePosition airportJson w) as [[] wa | e wa]; [| done].
  destruct (_initializeFixCollection (fixes airportJson) wa) as [[] wb | e wb];
    [| done].
  destruct (_initializeAirwayCollection (airways airportJson) wb) as [[] wc | e wc];
    [| done].
  by destruct (_initializeProcedureCollection _ _ wc) as [[] wd | e wd].
Qed.

Lemma build_console (airportJson : AirportJson) w w1 :
  (_initializeReferencePosition airportJson ;;
   _initializeFixCollection (fixes airportJson) ;;
   _initializeAirwayCollection (airways airportJson) ;;
   _initializeProcedureCollection (sids airportJson) (stars airportJson)) w
  = Return tt w1 ->
  console w1 = console w.
Proof.
  intros Hbuild.
  destruct (prelude_frame airportJson w) as (_ & _ & Hc0).
  run_method.
  destruct (_initializeReferencePosition airportJson w) as [[] wa | e wa];
    [| discriminate].
  destruct (_initializeFixCollection (fixes airportJson) wa) as [[] wb | e wb];
    [| discriminate].
  simpl in Hc0.
  destruct (initializeAirwayCollection_frame (airways airportJson) wb)
    as (_ & _ & Hc1).
  destruct (_initializeAirwayCollection (airways airportJson) wb) as [[] wc | e wc];
    [| discriminate].
  simpl in Hc1.
  destruct (initializeProcedureCollection_frame
              (sids airportJson) (stars airportJson) wc) as (_ & _ & Hc2).
  rewrite Hbuild in Hc2. simpl in Hc2. congruence.
Qed.

(** The scan for undefined fixes never throws: [init] throws exactly when one
    of its four building steps does.  When the building steps have gone
    through, [init] goes through; the list it computes holds exactly the
    names that some airway or procedure held by the library mentions and that
    the fix collection does not know, each once, in ascending order.  When
    the list is empty nothing is written to the console; otherwise one
    warning with the list is. *)
Lemma init_reports_referenced_fixes
  (airportJson : AirportJson) (w : World) :
  let build :=
    (_initializeReferencePosition airportJson ;;
     _initializeFixCollection (fixes airportJson) ;;
     _initializeAirwayCollection (airways airportJson) ;;
     _initializeProcedureCollection (sids airportJson) (stars airportJson)) w in
  (forall w', hasThrown (_showConsoleWarningForUndefinedFixes w') = false)
  /\ hasThrown (init airportJson w) = hasThrown build
  /\ forall w1,
       build = Return tt w1 ->
       let missing := missingFixes w1 in
       init airportJson w =
         Return tt (match missing with
                    | [] => w1
                    | _ :: _ => console_warn (UndefinedFixesWarning missing) w1
                    end)
       /\ StronglySorted String.le missing
       /\ NoDup missing
       /\ (forall fixName,
             fixName ∈ missing <->
             referenced w1 fixName /\ findFixByName fixName w1 = None)
       /\ console (finalState (init airportJson w)) =
            match missing with
            | [] => console w
            | _ :: _ => console w ++ [UndefinedFixesWarning missing]
            end.
Proof.
  intros build.
  assert (forall w', hasThrown (_showConsoleWarningForUndefinedFixes w') = false)
    as Hscan.
  { intros w'. unfold _showConsoleWarningForUndefinedFixes.
    by destruct (Z.of_nat (length (missingFixes w')) <? 1). }
  split; [exact Hscan |].
  split.
  { rewrite init_build_then_scan. fold build.
    destruct build as [[] w1 | e w1]; [apply Hscan | done]. }
  intros w1 Hbuild missing.
  destruct (getAllFixNamesInUse_spec w1) as (Hsorted & Hnodup & Hmem).
  assert (init airportJson w =
          Return tt (match missing with
                     | [] => w1
                     | _ :: _ => console_warn (UndefinedFixesWarning missing) w1
                     end)) as Hinit.
  { rewrite init_build_then_scan. fold build. rewrite Hbuild.
    unfold _showConsoleWarningForUndefinedFixes. subst missing.
    destruct (missingFixes w1) as [|fixName others]; [done |].
    assert ((Z.of_nat (length (fixName :: others)) <? 1) = false) as ->; [| done].
    apply Z.ltb_ge. simpl length. lia. }
  split_and!.
  - exact Hinit.
  - by apply StronglySorted_filter.
  - by apply NoDup_list_filter.
  - intros fixName. unfold missing, missingFixes, findFixByName.
    rewrite list_elem_of_In, filter_In, <- list_elem_of_In, Hmem.
    destruct (FixCollection_findFixByName (fixCollection w1) fixName);
      intuition congruence.
  - rewrite Hinit. simpl. rewrite <- (build_console _ _ _ Hbuild).
    subst missing. by destruct (missingFixes w1).
Qed.

(** *** The life cycle *)

Lemma lodash_filter_empty {A} (p : A -> bool) :
  Lodash._filter (∅ : gmap string A) p = [].
Proof. unfold Lodash._filter. by rewrite map_to_list_empty. Qed.

Lemma js_in_empty {A} key : js_in key (∅ : gmap string A) = inherited key.
Proof.
  unfold js_in. rewrite lookup_empty.
  rewrite bool_decide_eq_false_2; [done | by intros [? ?]].
Qed.

Lemma showConsoleWarning_library w :
  library (finalState (_showConsoleWarningForUndefinedFixes w)) = library w.
Proof.
  unfold _showConsoleWarningForUndefinedFixes.
  by destruct (Z.of_nat (length (missingFixes w)) <? 1).
Qed.

(** After a load that went through, every airway name and every procedure
    identifier of the file is in its collection. *)
Lemma init_loads_keys (airportJson : AirportJson) w w1 :
  init airportJson w = Return tt w1 ->
  (forall key, key ∈ (airways airportJson).*1 ->
               js_in key (_airwayCollection (library w1)) = true)
  /\ (forall key,
        key ∈ (procedureEntries (sids airportJson) (stars airportJson)).*1 ->
        js_in key (_procedureCollection (library w1)) = true).
Proof.
  rewrite init_stages.
  destruct ((_initializeReferencePosition airportJson ;;
             _initializeFixCollection (fixes airportJson)) w) as [[] w0 | e w0];
    [| discriminate].
  destruct (_initializeAirwayCollection (airways airportJson) w0) as [[] wa | e wa]
    eqn:Hairways; [| discriminate].
  destruct (initializeProcedureCollection_frame
              (sids airportJson) (stars airportJson) wa) as (Ha & _).
  destruct (_initializeProcedureCollection (sids airportJson) (stars airportJson) wa)
    as [[] wp | e wp] eqn:Hprocedures; [| discriminate].
  simpl in Ha. intros Hscan.
  pose proof (showConsoleWarning_library wp) as Hlibrary.
  rewrite Hscan in Hlibrary. simpl in Hlibrary. rewrite Hlibrary. split.
  - intros key Hkey. rewrite Ha.
    exact (forEach_keys_present defineAirway
             (fun key w => js_in key (_airwayCollection (library w)))
             defineAirway_adds _ _ _ Hairways key (or_introl Hkey)).
  - intros key Hkey. rewrite initializeProcedureCollection_entries in Hprocedures.
    exact (forEach_keys_present defineTypedProcedure
             (fun key w => js_in key (_procedureCollection (library w)))
             defineTypedProcedure_adds _ _ _ Hprocedures key (or_introl Hkey)).
Qed.

(** A load that went through has filled the fix collection: the collection it
    leaves is one that [addItems] has returned. *)
Lemma init_fills_fixCollection (airportJson : AirportJson) w w1 :
  init airportJson w = Return tt w1 ->
  exists fixes position collection,
    FixCollection_addItems fixes position collection = Return tt (fixCollection w1).
Proof.
  rewrite init_stages. run_method.
  unfold _initializeReferencePosition at 1.
  destruct (newStaticPositionModel (referencePoint airportJson)) as [position |];
    [| discriminate].
  unfold _initializeFixCollection at 1. simpl.
  destruct (FixCollection_addItems (fixes airportJson) (Some position)
              (fixCollection w)) as [[] collection | e collection] eqn:Hadd;
    [| discriminate].
  set (w0 := set_fixCollection collection _).
  destruct (initializeAirwayCollection_frame (airways airportJson) w0) as (_ & Hfa & _).
  destruct (_initializeAirwayCollection (airways airportJson) w0) as [[] wa | e wa];
    [| discriminate].
  destruct (initializeProcedureCollection_frame
              (sids airportJson) (stars airportJson) wa) as (_ & Hfp & _).
  destruct (_initializeProcedureCollection (sids airportJson) (stars airportJson) wa)
    as [[] wp | e wp]; [| discriminate].
  simpl in Hfa, Hfp. intros Hscan.
  assert (fixCollection w1 = fixCollection wp) as ->.
  { unfold _showConsoleWarningForUndefinedFixes in Hscan.
    destruct (Z.of_nat (length (missingFixes wp)) <? 1); by injection Hscan as <-. }
  rewrite Hfp, Hfa. by exists (fixes airportJson), (Some position), (fixCollection w).
Qed.

(** C9, as the code has it.  A second [init] without [reset] throws, whatever
    file it is given: the fix collection has been filled by the first and,
    as the specification has it, refuses to be filled again.  Apart from the
    fix collection, the second [init] throws by the guards of the library
    itself when the file repeats an airway name or a procedure identifier
    that the collections already hold, in particular when the file that was
    loaded is loaded again and defines an airway or a procedure.  The queries
    are another matter: the library keeps no record of having been
    initialised and no query checks for one.  On the library as constructed,
    and again after [reset], the queries return without throwing:
    [hasAirway] and [hasProcedure] answer false for every identifier that is
    not the name of a property of [Object.prototype], [getAirway] and
    [getProcedure] answer null for it, [hasSids] and [hasStars] answer false,
    and [findFixByName], [getFixRelativePosition] and [hasFixName] answer
    what the fix collection answers. *)
Theorem library_keeps_no_initialised_state :
  (forall (collection : FixCollection) (messages : list ConsoleMessage) (id : string),
     let w := {| library := newNavigationLibrary;
                 fixCollection := collection; console := messages |} in
     hasAirway id w = Normal (inherited id)
     /\ hasProcedure id w = Normal (inherited id)
     /\ (inherited id = false ->
         getAirway id w = Normal None /\ getProcedure id w = Normal None)
     /\ hasSids w = Normal false
     /\ hasStars w = Normal false
     /\ findFixByName id w = FixCollection_findFixByName collection id
     /\ getFixRelativePosition id w
        = FixCollection_getFixRelativePosition collection id
     /\ hasFixName id w
        = match FixCollection_findFixByName collection id with
          | Some _ => true
          | None => false
          end)
  /\ (forall (w : World) (id : string),
        hasAirway id (reset w) = Normal (inherited id)
        /\ hasProcedure id (reset w) = Normal (inherited id)
        /\ hasSids (reset w) = Normal false
        /\ hasStars (reset w) = Normal false)
  /\ (forall (airportJson : AirportJson) (w : World) (key : string),
        (key ∈ (airways airportJson).*1
         /\ js_in key (_airwayCollection (library w)) = true)
        \/ (key ∈ (procedureEntries (sids airportJson) (stars airportJson)).*1
            /\ js_in key (_procedureCollection (library w)) = true) ->
        hasThrown (init airportJson w) = true)
  /\ (forall (airportJson : AirportJson) (w w1 : World),
        init airportJson w = Return tt w1 ->
        airways airportJson <> [] \/ sids airportJson <> [] \/ stars airportJson <> [] ->
        hasThrown (init airportJson w1) = true)
  /\ (addItemsOnlyOnce ->
      forall (airportJson other : AirportJson) (w w1 : World),
        init airportJson w = Return tt w1 ->
        hasThrown (init other w1) = true).
Proof.
  assert (forall (airportJson : AirportJson) (w : World) (key : string),
            (key ∈ (airways airportJson).*1
             /\ js_in key (_airwayCollection (library w)) = true)
            \/ (key ∈ (procedureEntries (sids airportJson) (stars airportJson)).*1
                /\ js_in key (_procedureCollection (library w)) = true) ->
            hasThrown (init airportJson w) = true) as Hrepeat.
  { intros airportJson w key [[Hkey Hin] | [Hkey Hin]].
    - apply list_elem_of_fmap in Hkey as ([key' fixNames] & -> & Hentry).
      apply list_elem_of_split in Hentry as (pre & post & Hsplit).
      eapply init_throws_on_airway; [exact Hsplit | by right].
    - apply list_elem_of_fmap in Hkey as ([key' typed] & -> & Hentry).
      apply list_elem_of_split in Hentry as (pre & post & Hsplit).
      eapply init_throws_on_procedure; [exact Hsplit | by right]. }
  split_and!.
  - intros collection messages id w. subst w.
    unfold hasAirway, hasProcedure, getAirway, getProcedure, hasSids, hasStars,
      findFixByName, getFixRelativePosition, hasFixName. simpl.
    rewrite !js_in_empty, !lodash_filter_empty.
    split_and!; try done.
    intros ->. done.
  - intros w id.
    unfold hasAirway, hasProcedure, hasSids, hasStars, reset. simpl.
    by rewrite !js_in_empty, !lodash_filter_empty.
  - exact Hrepeat.
  - intros airportJson w w1 Hinit Hdefines.
    destruct (init_loads_keys _ _ _ Hinit) as (Hairways & Hprocedures).
    destruct (airways airportJson) as [|[airwayName fixNames] others] eqn:Ha.
    + assert (exists entry others,
                procedureEntries (sids airportJson) (stars airportJson)
                = entry :: others) as (entry & others & He).
      { unfold procedureEntries.
        destruct (sids airportJson) as [|sid sids']; simpl; [| eauto].
        destruct (stars airportJson) as [|star stars']; simpl; [| eauto].
        by destruct Hdefines as [? | [? | ?]]. }
      apply (Hrepeat airportJson w1 entry.1). right. rewrite He. split.
      * rewrite fmap_cons. apply elem_of_cons. by left.
      * apply Hprocedures. rewrite He, fmap_cons. apply elem_of_cons. by left.
    + apply (Hrepeat airportJson w1 airwayName). left. rewrite Ha. split.
      * rewrite fmap_cons. apply elem_of_cons. by left.
      * apply Hairways. rewrite fmap_cons. apply elem_of_cons. by left.
  - intros Honce airportJson other w w1 Hinit.
    destruct (init_fills_fixCollection _ _ _ Hinit)
      as (fixes0 & position0 & collection0 & Hfilled).
    rewrite init_stages. run_method.
    unfold _initializeReferencePosition.
    destruct (newStaticPositionModel (referencePoint other)); [| done].
    unfold _initializeFixCollection. simpl.
    pose proof (Honce _ _ _ _ Hfilled (fixes other)
                  (Some a)) as Hthrows.
    by destruct (FixCollection_addItems (fixes other) (Some a) (fixCollection w1)).
Qed.

End NavigationProperties.

(** * Further properties of the code *)

(** ** Construction of a waypoint: errors and restrictions *)

Section ConstructionProperties.
Context `{WaypointCollaborators}.

Local Abbreviation chars := list_ascii_of_string.
Local Abbreviation method := (Method WaypointModel unit).
Local Abbreviation stored fixName :=
  (JsString.replace "^" (JsString.replace "@" fixName)).
Local Abbreviation prefixed token :=
  (JsString.first token = Some "A"%char \/ JsString.first token = Some "S"%char).

Ltac run_method :=
  unfold mbind, Method_bind, mret, Method_ret, modify, throw in *.

Lemma wellFormedToken_prefixed token :
  Stated.wellFormedToken token = true <-> prefixed token.
Proof.
  unfold Stated.wellFormedToken.
  by rewrite orb_true_iff, !bool_decide_eq_true.
Qed.

Lemma forallb_wellFormed_prefixed ts :
  forallb Stated.wellFormedToken ts = true <-> Forall (fun token => prefixed token) ts.
Proof.
  rewrite forallb_forall, Forall_forall.
  split; intros Hall t Hin.
  - apply wellFormedToken_prefixed, Hall. by apply list_elem_of_In.
  - apply wellFormedToken_prefixed, Hall. by apply list_elem_of_In.
Qed.

Lemma applyRestrictionCollection_app before after w :
  Lenient.applyRestrictionCollection (before ++ after) w =
  match Lenient.applyRestrictionCollection before w with
  | Return _ w1 => Lenient.applyRestrictionCollection after w1
  | Throw e w1 => Throw e w1
  end.
Proof.
  revert w. induction before as [|t before IH]; intros w; simpl; [done |].
  run_method. destruct (Lenient.applyRestriction t w) as [[] w1 | e w1]; [apply IH | done].
Qed.

(** The loop throws at the first token without a restriction prefix, in the
    state the tokens before it have left. *)
Lemma applyRestrictionCollection_first_malformed before t after w :
  Forall (fun token => prefixed token) before ->
  ~ prefixed t ->
  exists w1,
    Lenient.applyRestrictionCollection before w = Return tt w1
    /\ Lenient.applyRestrictionCollection (before ++ t :: after) w
       = Throw (ExpectedRestrictionPrefix (JsString.first t)) w1.
Proof.
  intros Hbefore%forallb_wellFormed_prefixed Ht.
  assert (Stated.wellFormedToken t = false) as Hwf.
  { apply not_true_is_false. by rewrite wellFormedToken_prefixed. }
  destruct (applyRestrictionCollection_cases before w)
    as [(_ & w1 & Hrun & _) | (Hnot & _)]; [| congruence].
  exists w1. split; [done |].
  rewrite applyRestrictionCollection_app, Hrun. simpl. run_method.
  by rewrite (applyRestriction_malformed t w1 Hwf).
Qed.


(** The body of [init] after the classification step. *)
Lemma init_body_run (special : string -> method) fixName restrictions w w2 :
  special fixName (set_name (stored fixName) w) = Return tt w2 ->
  (modify (set_name (stored fixName)) ;;
   special fixName ;;
   Lenient._applyRestrictions restrictions ;;
   Lenient._initializePosition) w =
  match Lenient._applyRestrictions restrictions w2 with
  | Return _ w3 => Lenient._initializePosition w3
  | Throw e w3 => Throw e w3
  end.
Proof.
  intros Hspecial. run_method. rewrite Hspecial.
  by destruct (Lenient._applyRestrictions restrictions w2) as [[] w3 | e w3].
Qed.


Lemma lenient_init_run data fixName restrictions w0 :
  Lenient.initArguments data = Normal (fixName, restrictions) ->
  exists w2,
    Lenient._initSpecialWaypoint fixName (set_name (stored fixName) w0) = Return tt w2
    /\ Lenient.init data w0 =
       match Lenient._applyRestrictions restrictions w2 with
       | Return _ w3 => Lenient._initializePosition w3
       | Throw e w3 => Throw e w3
       end.
Proof.
  intros Hargs.
  destruct (initSpecialWaypoint_effect fixName (set_name (stored fixName) w0))
    as (w2 & Hspecial & _).
  exists w2. split; [done |].
  rewrite (lenient_init_unfold _ _ _ Hargs). by apply init_body_run.
Qed.

Lemma strict_init_run data fixName restrictions w0 :
  Lenient.initArguments data = Normal (fixName, restrictions) ->
  exists w2,
    Strict._initSpecialWaypoint fixName (set_name (stored fixName) w0) = Return tt w2
    /\ Strict.init data w0 =
       match Lenient._applyRestrictions restrictions w2 with
       | Return _ w3 => Lenient._initializePosition w3
       | Throw e w3 => Throw e w3
       end.
Proof.
  intros Hargs.
  destruct (strict_initSpecialWaypoint_effect fixName (set_name (stored fixName) w0))
    as (w2 & Hspecial & _).
  exists w2. split; [done |].
  rewrite (strict_init_unfold _ _ _ Hargs). by apply init_body_run.
Qed.




Lemma applyRestrictions_first_malformed restrictions before token after w :
  restrictions <> EmptyString ->
  JsString.split "|" restrictions = before ++ token :: after ->
  Forall (fun t => prefixed t) before ->
  ~ prefixed token ->
  exists w1,
    Lenient.applyRestrictionCollection before w = Return tt w1
    /\ Lenient._applyRestrictions restrictions w
       = Throw (ExpectedRestrictionPrefix (JsString.first token)) w1.
Proof.
  intros Hne Hsplit Hbefore Htoken.
  destruct (applyRestrictionCollection_first_malformed before token after w
              Hbefore Htoken) as (w1 & Hrun & Hthrow).
  exists w1. split; [done |].
  unfold Lenient._applyRestrictions.
  destruct restrictions; [done |]. simpl JsString.isEmpty. cbv iota.
  by rewrite Hsplit.
Qed.

Lemma new_first_malformed fixName restrictions before token after :
  restrictions <> EmptyString ->
  JsString.split "|" restrictions = before ++ token :: after ->
  Forall (fun t => prefixed t) before ->
  ~ prefixed token ->
  Lenient.new (DataArray [fixName; restrictions])
  = Thrown (ExpectedRestrictionPrefix (JsString.first token))
  /\ Strict.new (DataArray [fixName; restrictions])
     = Thrown (ExpectedRestrictionPrefix (JsString.first token)).
Proof.
  intros Hne Hsplit Hbefore Htoken. split.
  - destruct (lenient_init_run (DataArray [fixName; restrictions]) _ _
                Lenient.initialProperties eq_refl) as (w2 & _ & Hinit).
    destruct (applyRestrictions_first_malformed _ _ _ _ w2 Hne Hsplit Hbefore Htoken)
      as (w1 & _ & Hthrow).
    unfold Lenient.new. by rewrite Hinit, Hthrow.
  - destruct (strict_init_run (DataArray [fixName; restrictions]) _ _
                Strict.initialProperties eq_refl) as (w2 & _ & Hinit).
    destruct (applyRestrictions_first_malformed _ _ _ _ w2 Hne Hsplit Hbefore Htoken)
      as (w1 & _ & Hthrow).
    unfold Strict.new. by rewrite Hinit, Hthrow.
Qed.

(** X2. The restriction loop stops at the first token that does not begin
    with a restriction letter, and nothing is rolled back.  The tokens
    before it have been applied: [_applyRestrictions] and [init] throw in the
    state those tokens have left, which differs from the state before in the
    four bounds at most.  The error carries the first character of that
    token.  The position has not been looked up, so the constructor gives
    this error whether or not the fix is known.  Both revisions. *)
Theorem first_malformed_token_throws
  (fixName restrictions : string) (before after : list string) (token : string)
  (w0 : WaypointModel) :
  restrictions <> EmptyString ->
  JsString.split "|" restrictions = before ++ token :: after ->
  Forall (fun t => JsString.first t = Some "A"%char
                   \/ JsString.first t = Some "S"%char) before ->
  JsString.first token <> Some "A"%char ->
  JsString.first token <> Some "S"%char ->
  let error := ExpectedRestrictionPrefix (JsString.first token) in
  let data := DataArray [fixName; restrictions] in
  Lenient.new data = Thrown error
  /\ Strict.new data = Thrown error
  /\ (exists w1,
        Lenient.applyRestrictionCollection before w0 = Return tt w1
        /\ Lenient._applyRestrictions restrictions w0 = Throw error w1
        /\ sameButBounds w0 w1)
  /\ (exists w2 w3,
        Lenient._initSpecialWaypoint fixName
          (set_name (JsString.replace "^" (JsString.replace "@" fixName)) w0)
        = Return tt w2
        /\ Lenient.applyRestrictionCollection before w2 = Return tt w3
        /\ Lenient.init data w0 = Throw error w3
        /\ _positionModel w3 = _positionModel w0)
  /\ (exists w2 w3,
        Strict._initSpecialWaypoint fixName
          (set_name (JsString.replace "^" (JsString.replace "@" fixName)) w0)
        = Return tt w2
        /\ Lenient.applyRestrictionCollection before w2 = Return tt w3
        /\ Strict.init data w0 = Throw error w3
        /\ _positionModel w3 = _positionModel w0).
Proof.
  intros Hne Hsplit Hbefore HA HS error data.
  assert (~ prefixed token) as Htoken by (intros [? | ?]; done).
  destruct (new_first_malformed fixName _ _ _ _ Hne Hsplit Hbefore Htoken)
    as (Hlenient & Hstrict).
  split; [exact Hlenient |]. split; [exact Hstrict |].
  split_and!.
  - destruct (applyRestrictions_first_malformed _ _ _ _ w0 Hne Hsplit Hbefore Htoken)
      as (w1 & Hrun & Hthrow).
    exists w1. split_and!; try done.
    pose proof (applyRestrictions_frame restrictions w0) as Hframe.
    by rewrite Hthrow in Hframe.
  - destruct (initSpecialWaypoint_effect fixName
                (set_name (JsString.replace "^" (JsString.replace "@" fixName)) w0))
      as (w2 & Hspecial & _ & _ & _ & _ & Hp & _).
    destruct (applyRestrictions_first_malformed _ _ _ _ w2 Hne Hsplit Hbefore Htoken)
      as (w3 & Hrun & Hthrow).
    exists w2, w3. split_and!; try done.
    + unfold data.
      rewrite (lenient_init_unfold (DataArray [fixName; restrictions]) _ _ eq_refl),
        (init_body_run _ _ _ _ _ Hspecial). by rewrite Hthrow.
    + pose proof (applyRestrictions_frame restrictions w2) as Hframe.
      rewrite Hthrow in Hframe. simpl in Hframe.
      destruct Hframe as (_ & _ & _ & _ & _ & Hp3). by rewrite Hp3, Hp.
  - destruct (strict_initSpecialWaypoint_effect fixName
                (set_name (JsString.replace "^" (JsString.replace "@" fixName)) w0))
      as (w2 & Hspecial & _ & _ & _ & _ & Hp & _).
    destruct (applyRestrictions_first_malformed _ _ _ _ w2 Hne Hsplit Hbefore Htoken)
      as (w3 & Hrun & Hthrow).
    exists w2, w3. split_and!; try done.
    + unfold data.
      rewrite (strict_init_unfold (DataArray [fixName; restrictions]) _ _ eq_refl),
        (init_body_run _ _ _ _ _ Hspecial). by rewrite Hthrow.
    + pose proof (applyRestrictions_frame restrictions w2) as Hframe.
      rewrite Hthrow in Hframe. simpl in Hframe.
      destruct Hframe as (_ & _ & _ & _ & _ & Hp3). by rewrite Hp3, Hp.
Qed.

Lemma split_nonempty c s : JsString.split c s <> [].
Proof.
  destruct s as [|a s]; simpl; [done |].
  destruct (Ascii.eqb a c); [done |]. by destruct (JsString.split c s).
Qed.

(** Splitting at a separator splits the list of pieces. *)
Lemma split_app c a b :
  JsString.split c (a +:+ String c b) = JsString.split c a ++ JsString.split c b.
Proof.
  induction a as [|x a IH]; simpl.
  - by rewrite Ascii.eqb_refl.
  - rewrite IH. destruct (Ascii.eqb x c); [done |].
    pose proof (split_nonempty c a).
    by destruct (JsString.split c a).
Qed.

(** The first token without a restriction prefix. *)
Lemma first_malformed ts :
  ~ Forall (fun t => prefixed t) ts ->
  exists before token after,
    ts = before ++ token :: after
    /\ Forall (fun t => prefixed t) before
    /\ ~ prefixed token.
Proof.
  induction ts as [|t ts IH]; intros Hnot.
  - destruct Hnot. constructor.
  - destruct (Stated.wellFormedToken t) eqn:Hwf.
    + apply wellFormedToken_prefixed in Hwf.
      destruct IH as (before & token & after & -> & Hbefore & Htoken).
      { intros Hall. apply Hnot. by constructor. }
      exists (t :: before), token, after. split_and!; try done. by constructor.
    + exists [], t, ts. split_and!; try done.
      rewrite <- wellFormedToken_prefixed. congruence.
Qed.

(** X3. A restriction string that begins or ends with the separator, or has
    two separators in a row, has an empty token and cannot construct a
    waypoint: both revisions of the constructor throw the restriction prefix
    error, and the same one. *)
Theorem empty_restriction_token_throws (fixName restrictions : string) :
  (exists b, restrictions = String "|" b)
  \/ (exists a, restrictions = a +:+ "|")
  \/ (exists a b, restrictions = a +:+ "||" +:+ b) ->
  EmptyString ∈ JsString.split "|" restrictions
  /\ exists received,
       received <> Some "A"%char
       /\ received <> Some "S"%char
       /\ Lenient.new (DataArray [fixName; restrictions])
          = Thrown (ExpectedRestrictionPrefix received)
       /\ Strict.new (DataArray [fixName; restrictions])
          = Thrown (ExpectedRestrictionPrefix received).
Proof.
  intros Hshape.
  assert (restrictions <> EmptyString) as Hne.
  { destruct Hshape as [(b & ->) | [(a & ->) | (a & b & ->)]];
      [done | by destruct a | by destruct a]. }
  assert (EmptyString ∈ JsString.split "|" restrictions) as Hempty.
  { destruct Hshape as [(b & ->) | [(a & ->) | (a & b & ->)]].
    - simpl. apply elem_of_cons. by left.
    - rewrite (split_app "|" a EmptyString). simpl.
      rewrite elem_of_app, elem_of_cons. auto.
    - change (a +:+ "||" +:+ b) with (a +:+ String "|" (String "|" b)).
      rewrite split_app. simpl. rewrite elem_of_app, elem_of_cons. auto. }
  split; [exact Hempty |].
  destruct (first_malformed (JsString.split "|" restrictions))
    as (before & token & after & Hsplit & Hbefore & Htoken).
  { rewrite Forall_forall. intros Hall.
    by destruct (Hall EmptyString Hempty). }
  exists (JsString.first token).
  split; [intros ?; apply Htoken; by left |].
  split; [intros ?; apply Htoken; by right |].
  by apply (new_first_malformed fixName _ before token after).
Qed.


(** The bounds of a constructed waypoint, from its restriction tokens. *)
Lemma new_bounds data fixName restrictions w :
  Lenient.initArguments data = Normal (fixName, restrictions) ->
  Lenient.new data = Normal w \/ Strict.new data = Normal w ->
  forall b, Stated.bound b w = Stated.boundAfter b (Stated.tokens restrictions).
Proof.
  intros Hargs Hnew.
  assert (forall new : WaypointData -> Completion WaypointModel,
            new data = Normal w ->
            (forallb Stated.wellFormedToken (Stated.tokens restrictions) = false
             /\ exists e, new data = Thrown e)
            \/ (forallb Stated.wellFormedToken (Stated.tokens restrictions) = true
                /\ exists w3,
                     _name w3 = stored fixName
                     /\ _isVectorWaypoint w3 =
                          negb (hasMarker "^" fixName) && negb (hasMarker "@" fixName)
                          && hasMarker "#" fixName
                     /\ _positionModel w3 = None
                     /\ (forall b, Stated.bound b w3
                                   = Stated.boundAfter b (Stated.tokens restrictions))
                     /\ new data =
                          if negb (hasMarker "^" fixName) && negb (hasMarker "@" fixName)
                             && hasMarker "#" fixName
                          then Normal w3
                          else match getPositionModelForFixName (stored fixName) with
                               | None => Thrown (ExpectedKnownFix (stored fixName))
                               | Some p => Normal (set_positionModel (Some p) w3)
                               end) ->
            forall b, Stated.bound b w
                      = Stated.boundAfter b (Stated.tokens restrictions)) as Hgeneric.
  { intros new Hw [(_ & e & Hthrown) | (_ & w3 & _ & _ & _ & Hb & Hrun)];
      [congruence |].
    rewrite Hrun in Hw. destruct (_ && hasMarker "#" fixName).
    - by injection Hw as <-.
    - destruct (getPositionModelForFixName _); [| done].
      injection Hw as <-. intros b. by rewrite bound_set_positionModel. }
  destruct Hnew as [Hnew | Hnew].
  - exact (Hgeneric _ Hnew (lenient_new_outcome _ _ _ Hargs)).
  - exact (Hgeneric _ Hnew (strict_new_outcome _ _ _ Hargs)).
Qed.

Lemma boundAfter_snoc b ts t :
  Stated.boundAfter b (ts ++ [t])
  = default (Stated.boundAfter b ts) (Stated.assigns b t).
Proof. unfold Stated.boundAfter. by rewrite fold_left_app. Qed.

(** An altitude read from a token is a multiple of 100 or [NaN], never the
    sentinel. *)
Lemma altitudeOf_set remainder :
  jsStrictNotEqual (Stated.altitudeOf remainder) INVALID_NUMBER = true.
Proof.
  unfold Stated.altitudeOf, INVALID_NUMBER.
  destruct (JsString.parseInt remainder) as [z |]; simpl; [| done].
  apply negb_true_iff, Z.eqb_neq. lia.
Qed.

Lemma assigns_altitude_other t :
  JsString.first t <> Some "A"%char ->
  Stated.assigns Stated.AltitudeMaximum t = None
  /\ Stated.assigns Stated.AltitudeMinimum t = None.
Proof.
  intros HA. unfold Stated.assigns. cbv zeta.
  rewrite (bool_decide_eq_false_2 _ HA).
  by destruct (bool_decide (JsString.first t = Some "S"%char)).
Qed.

Lemma assigns_altitude t :
  JsString.first t = Some "A"%char ->
  Stated.assigns Stated.AltitudeMaximum t
  = Some (Stated.altitudeOf (JsString.substr1 t))
  \/ Stated.assigns Stated.AltitudeMinimum t
     = Some (Stated.altitudeOf (JsString.substr1 t)).
Proof.
  intros HA. unfold Stated.assigns. cbv zeta.
  rewrite (bool_decide_eq_true_2 _ HA).
  destruct (bool_decide ("+"%char ∈ chars (JsString.substr1 t))); simpl; auto.
Qed.

Lemma altitude_bounds_set ts :
  jsStrictNotEqual (Stated.boundAfter Stated.AltitudeMaximum ts) INVALID_NUMBER
  || jsStrictNotEqual (Stated.boundAfter Stated.AltitudeMinimum ts) INVALID_NUMBER
  = true
  <-> exists token, token ∈ ts /\ JsString.first token = Some "A"%char.
Proof.
  induction ts as [|t ts IH] using rev_ind.
  - split; [done | by intros (? & ?%elem_of_nil & _)].
  - rewrite !boundAfter_snoc.
    destruct (decide (JsString.first t = Some "A"%char)) as [HA | HA].
    + split.
      * intros _. exists t. split; [| done]. rewrite elem_of_app, elem_of_cons. auto.
      * intros _. destruct (assigns_altitude t HA) as [-> | ->]; simpl.
        -- by rewrite altitudeOf_set.
        -- by rewrite altitudeOf_set, orb_true_r.
    + destruct (assigns_altitude_other t HA) as [-> ->]. simpl. rewrite IH. split.
      * intros (token & Hin & Hfirst). exists token. split; [| done].
        rewrite elem_of_app. by left.
      * intros (token & Hin & Hfirst). exists token. split; [| done].
        apply elem_of_app in Hin as [Hin | Hin]; [done |].
        apply elem_of_cons in Hin as [-> | Hin]; [done | by apply elem_of_nil in Hin].
Qed.

Lemma assigns_speed_other t :
  JsString.first t <> Some "S"%char ->
  Stated.assigns Stated.SpeedMaximum t = None
  /\ Stated.assigns Stated.SpeedMinimum t = None.
Proof.
  intros HS. unfold Stated.assigns. cbv zeta.
  rewrite (bool_decide_eq_false_2 _ HS).
  by destruct (bool_decide (JsString.first t = Some "A"%char)).
Qed.

Lemma speed_bounds_set ts :
  jsStrictNotEqual (Stated.boundAfter Stated.SpeedMaximum ts) INVALID_NUMBER
  || jsStrictNotEqual (Stated.boundAfter Stated.SpeedMinimum ts) INVALID_NUMBER
  = true ->
  exists token, token ∈ ts /\ JsString.first token = Some "S"%char.
Proof.
  induction ts as [|t ts IH] using rev_ind; [done |].
  rewrite !boundAfter_snoc.
  destruct (decide (JsString.first t = Some "S"%char)) as [HS | HS].
  - intros _. exists t. split; [| done]. rewrite elem_of_app, elem_of_cons. auto.
  - destruct (assigns_speed_other t HS) as [-> ->]. simpl.
    intros (token & Hin & Hfirst)%IH. exists token. split; [| done].
    rewrite elem_of_app. by left.
Qed.

Lemma tokens_with_prefix restrictions (c : ascii) :
  (exists token, token ∈ Stated.tokens restrictions /\ JsString.first token = Some c)
  <-> (exists token,
         token ∈ JsString.split "|" restrictions /\ JsString.first token = Some c).
Proof.
  unfold Stated.tokens. destruct restrictions as [|a restrictions]; [| done].
  simpl. split.
  - by intros (? & ?%elem_of_nil & _).
  - intros (token & Hin & Hfirst).
    apply elem_of_cons in Hin as [-> | Hin]; [done | by apply elem_of_nil in Hin].
Qed.

(** X4. The restriction queries on a constructed waypoint, in both
    revisions.  [hasAltitudeRestriction] holds exactly when some token of the
    restriction string begins with the altitude letter: an altitude read
    from a token is a multiple of 100 or [NaN], never the sentinel.
    [hasSpeedRestriction] holds only when some token begins with the speed
    letter, and [hasRestriction] only for a restriction string that is not
    empty.  The converse fails for speeds: the token for a maximum speed of
    -1 stores the sentinel, and the waypoint answers that it has no speed
    restriction. *)
Theorem restriction_queries
  (data : WaypointData) (fixName restrictions : string) (w : WaypointModel) :
  Lenient.initArguments data = Normal (fixName, restrictions) ->
  Lenient.new data = Normal w \/ Strict.new data = Normal w ->
  (Lenient.hasAltitudeRestriction w = true <->
   exists token,
     token ∈ JsString.split "|" restrictions
     /\ JsString.first token = Some "A"%char)
  /\ (Lenient.hasSpeedRestriction w = true ->
      exists token,
        token ∈ JsString.split "|" restrictions
        /\ JsString.first token = Some "S"%char)
  /\ (Lenient.hasRestriction w = true -> restrictions <> EmptyString)
  /\ (restrictions = "S-1" ->
      speedMaximum w = Num (-1) /\ Lenient.hasSpeedRestriction w = false).
Proof.
  intros Hargs Hnew.
  pose proof (new_bounds _ _ _ _ Hargs Hnew) as Hbounds.
  assert (Lenient.hasAltitudeRestriction w = true <->
          exists token,
            token ∈ JsString.split "|" restrictions
            /\ JsString.first token = Some "A"%char) as Haltitude.
  { rewrite <- tokens_with_prefix, <- altitude_bounds_set.
    unfold Lenient.hasAltitudeRestriction.
    by rewrite <- (Hbounds Stated.AltitudeMaximum), <- (Hbounds Stated.AltitudeMinimum). }
  assert (Lenient.hasSpeedRestriction w = true ->
          exists token,
            token ∈ JsString.split "|" restrictions
            /\ JsString.first token = Some "S"%char) as Hspeed.
  { rewrite <- tokens_with_prefix. intros Hhas. apply speed_bounds_set.
    unfold Lenient.hasSpeedRestriction in Hhas.
    by rewrite <- (Hbounds Stated.SpeedMaximum), <- (Hbounds Stated.SpeedMinimum). }
  split_and!; try done.
  - unfold Lenient.hasRestriction. intros [Hhas | Hhas]%orb_true_iff Hempty; subst.
    + apply Haltitude in Hhas as (token & Hin & Hfirst).
      apply elem_of_cons in Hin as [-> | Hin]; [done | by apply elem_of_nil in Hin].
    + apply Hspeed in Hhas as (token & Hin & Hfirst).
      apply elem_of_cons in Hin as [-> | Hin]; [done | by apply elem_of_nil in Hin].
  - intros ->. unfold Lenient.hasSpeedRestriction.
    pose proof (Hbounds Stated.SpeedMaximum) as Hmax.
    pose proof (Hbounds Stated.SpeedMinimum) as Hmin.
    simpl Stated.bound in Hmax, Hmin. rewrite Hmax, Hmin.
    split; vm_compute; reflexivity.
Qed.


(** What [init] leaves on a waypoint that is in use, from what its
    classification step has left. *)
Lemma init_accumulates (init : WaypointData -> method) data fixName restrictions w0 w2 :
  _isFlyOverWaypoint w2 = _isFlyOverWaypoint w0 || hasMarker "^" fixName ->
  _isHoldWaypoint w2 =
    _isHoldWaypoint w0 || (negb (hasMarker "^" fixName) && hasMarker "@" fixName) ->
  _isVectorWaypoint w2 =
    _isVectorWaypoint w0
    || (negb (hasMarker "^" fixName) && negb (hasMarker "@" fixName)
        && hasMarker "#" fixName) ->
  _name w2 = stored fixName ->
  _positionModel w2 = _positionModel w0 ->
  (forall b, Stated.bound b w2 = Stated.bound b w0) ->
  init data w0 =
    match Lenient._applyRestrictions restrictions w2 with
    | Return _ w3 => Lenient._initializePosition w3
    | Throw e w3 => Throw e w3
    end ->
  let after := finalState (init data w0) in
  _isFlyOverWaypoint after = _isFlyOverWaypoint w0 || hasMarker "^" fixName
  /\ _isHoldWaypoint after =
       _isHoldWaypoint w0 || (negb (hasMarker "^" fixName) && hasMarker "@" fixName)
  /\ _isVectorWaypoint after =
       _isVectorWaypoint w0
       || (negb (hasMarker "^" fixName) && negb (hasMarker "@" fixName)
           && hasMarker "#" fixName)
  /\ _name after = stored fixName
  /\ (restrictions = EmptyString ->
      altitudeMaximum after = altitudeMaximum w0
      /\ altitudeMinimum after = altitudeMinimum w0
      /\ speedMaximum after = speedMaximum w0
      /\ speedMinimum after = speedMinimum w0)
  /\ (_isVectorWaypoint w0 = true ->
      _positionModel after = _positionModel w0
      /\ (restrictions = EmptyString -> init data w0 = Return tt after)).
Proof.
  intros Hf Hh Hv Hn Hp Hb Hinit after. subst after. rewrite Hinit.
  pose proof (applyRestrictions_frame restrictions w2) as Hframe.
  assert (restrictions = EmptyString ->
          Lenient._applyRestrictions restrictions w2 = Return tt w2) as Hempty
    by (by intros ->).
  destruct (Lenient._applyRestrictions restrictions w2) as [[] w3 | e w3] eqn:Hrun;
    simpl in Hframe; destruct Hframe as (_ & Hf3 & Hh3 & Hv3 & Hn3 & Hp3).
  - destruct (initializePosition_frame w3) as (_ & Hf4 & Hh4 & Hv4 & Hn4 & Hb4).
    cbv zeta in *. split_and!; try congruence.
    + intros Hnone. specialize (Hempty Hnone). injection Hempty as ->.
      pose proof (fun b => eq_trans (Hb4 b) (Hb b)) as Hbounds.
      split_and!.
      * exact (Hbounds Stated.AltitudeMaximum).
      * exact (Hbounds Stated.AltitudeMinimum).
      * exact (Hbounds Stated.SpeedMaximum).
      * exact (Hbounds Stated.SpeedMinimum).
    + intros Hvector.
      assert (_isVectorWaypoint w3 = true) as Hvector3.
      { rewrite Hv3, Hv, Hvector. done. }
      unfold Lenient._initializePosition. rewrite Hvector3. simpl.
      split; [congruence | done].
  - simpl. split_and!; try congruence.
    + intros Hnone. by specialize (Hempty Hnone).
    + intros Hvector. split; [congruence |].
      intros Hnone. by specialize (Hempty Hnone).
Qed.

(** X6. [init] on a waypoint that is in use and has not been [reset] adds to
    what is there, in both revisions.  No flag is cleared: each flag is the
    old flag or the flag of the new token.  The name is replaced.  Without a
    restriction string the four bounds keep their old values.  A waypoint
    that was a vector waypoint stays one whatever the new token is, so its
    position is not looked up and stays as it was, and without a restriction
    string [init] returns even for a name that the fix collection does not
    know. *)
Theorem init_without_reset_accumulates
  (data : WaypointData) (fixName restrictions : string) (w0 : WaypointModel) :
  Lenient.initArguments data = Normal (fixName, restrictions) ->
  let property (init : WaypointData -> Method WaypointModel unit) :=
    let after := finalState (init data w0) in
    _isFlyOverWaypoint after = _isFlyOverWaypoint w0 || hasMarker "^" fixName
    /\ _isHoldWaypoint after =
         _isHoldWaypoint w0 || (negb (hasMarker "^" fixName) && hasMarker "@" fixName)
    /\ _isVectorWaypoint after =
         _isVectorWaypoint w0
         || (negb (hasMarker "^" fixName) && negb (hasMarker "@" fixName)
             && hasMarker "#" fixName)
    /\ _name after = JsString.replace "^" (JsString.replace "@" fixName)
    /\ (restrictions = EmptyString ->
        altitudeMaximum after = altitudeMaximum w0
        /\ altitudeMinimum after = altitudeMinimum w0
        /\ speedMaximum after = speedMaximum w0
        /\ speedMinimum after = speedMinimum w0)
    /\ (_isVectorWaypoint w0 = true ->
        _positionModel after = _positionModel w0
        /\ (restrictions = EmptyString -> init data w0 = Return tt after)) in
  property Lenient.init /\ property Strict.init.
Proof.
  intros Hargs property. split.
  - destruct (initSpecialWaypoint_effect fixName (set_name (stored fixName) w0))
      as (w2 & Hspecial & Hf & Hh & Hv & Hn & Hp & Hb).
    apply (init_accumulates Lenient.init data fixName restrictions w0 w2);
      try done.
    rewrite (lenient_init_unfold _ _ _ Hargs). by apply init_body_run.
  - destruct (strict_initSpecialWaypoint_effect fixName (set_name (stored fixName) w0))
      as (w2 & Hspecial & Hf & Hh & Hv & Hn & Hp & Hb).
    apply (init_accumulates Strict.init data fixName restrictions w0 w2);
      try done.
    rewrite (strict_init_unfold _ _ _ Hargs). by apply init_body_run.
Qed.

Lemma elem_of_replace_other c d s :
  d <> c -> d ∈ chars (JsString.replace c s) <-> d ∈ chars s.
Proof.
  intros Hdc. induction s as [|a s IH]; simpl; [done |].
  destruct (Ascii.eqb_spec a c) as [-> | Hne].
  - rewrite elem_of_cons. intuition congruence.
  - simpl. by rewrite !elem_of_cons, IH.
Qed.

Lemma hasMarker_replace_other c d s :
  d <> c -> hasMarker d (JsString.replace c s) = hasMarker d s.
Proof.
  intros Hdc. apply eq_true_iff_eq.
  by rewrite !hasMarker_elem_of, elem_of_replace_other.
Qed.

(** X7. The getter [name] on a constructed waypoint, in both revisions, for
    an RNAV prefix that is neither of the two markers that [init] removes:
    the display name of RNAV waypoints when the prefix occurs anywhere in the
    token, at its head or further on, and the stored name otherwise; for a
    token without prefix and markers, the token itself. *)
Theorem display_name_of_constructed_waypoint
  (data : WaypointData) (fixName restrictions : string) (w : WaypointModel) :
  RNAV_WAYPOINT_PREFIX <> "@"%char ->
  RNAV_WAYPOINT_PREFIX <> "^"%char ->
  Lenient.initArguments data = Normal (fixName, restrictions) ->
  Lenient.new data = Normal w \/ Strict.new data = Normal w ->
  Lenient.name w =
    (if hasMarker RNAV_WAYPOINT_PREFIX fixName then RNAV_WAYPOINT_DISPLAY_NAME
     else JsString.replace "^" (JsString.replace "@" fixName))
  /\ (forall a b, fixName = a +:+ String RNAV_WAYPOINT_PREFIX b ->
        Lenient.name w = RNAV_WAYPOINT_DISPLAY_NAME)
  /\ (RNAV_WAYPOINT_PREFIX ∉ chars fixName ->
      "@"%char ∉ chars fixName -> "^"%char ∉ chars fixName ->
      Lenient.name w = fixName).
Proof.
  intros Hhold Hfly Hargs Hnew.
  assert (_name w = stored fixName) as Hname.
  { destruct Hnew as [Hnew | Hnew].
    - rewrite (new_is_finalState _ _ Hnew). exact (lenient_init_name _ _ _ _ Hargs).
    - rewrite (strict_new_is_finalState _ _ Hnew).
      exact (strict_init_name _ _ _ _ Hargs). }
  assert (Lenient.name w =
          if hasMarker RNAV_WAYPOINT_PREFIX fixName then RNAV_WAYPOINT_DISPLAY_NAME
          else stored fixName) as Hdisplay.
  { unfold Lenient.name.
    change (negb (JsString.indexOf RNAV_WAYPOINT_PREFIX (_name w) =? INVALID_INDEX))
      with (hasMarker RNAV_WAYPOINT_PREFIX (_name w)).
    by rewrite Hname, !hasMarker_replace_other. }
  split_and!; try done.
  - intros a b ->. rewrite Hdisplay.
    assert (hasMarker RNAV_WAYPOINT_PREFIX (a +:+ String RNAV_WAYPOINT_PREFIX b) = true)
      as ->; [| done].
    apply hasMarker_elem_of. rewrite chars_append, chars_cons, elem_of_app, elem_of_cons.
    auto.
  - intros Hprefix Hat Hcaret. rewrite Hdisplay.
    apply hasMarker_not_elem_of in Hprefix. rewrite Hprefix.
    by rewrite (replace_absent "@"), (replace_absent "^").
Qed.


(** *** The two revisions side by side *)

(** The methods that both revisions share neither read nor write
    [_holdParameters]: run on a waypoint with other hold parameters, they end
    the same way and leave the same waypoint with those hold parameters. *)
Lemma applyRestriction_holdParameters h t w :
  Lenient.applyRestriction t (set_holdParameters h w) =
  match Lenient.applyRestriction t w with
  | Return a w1 => Return a (set_holdParameters h w1)
  | Throw e w1 => Throw e (set_holdParameters h w1)
  end.
Proof.
  unfold Lenient.applyRestriction, Lenient._applyAltitudeRestriction,
    Lenient._applySpeedRestriction.
  run_method.
  destruct (bool_decide (JsString.first t = Some "A"%char));
    [| destruct (bool_decide (JsString.first t = Some "S"%char)); [| done]];
    destruct (negb (JsString.indexOf "+" (JsString.substr1 t) =? -1));
    try done;
    by destruct (negb (JsString.indexOf "-" (JsString.substr1 t) =? -1)).
Qed.

Lemma applyRestrictionCollection_holdParameters h ts w :
  Lenient.applyRestrictionCollection ts (set_holdParameters h w) =
  match Lenient.applyRestrictionCollection ts w with
  | Return a w1 => Return a (set_holdParameters h w1)
  | Throw e w1 => Throw e (set_holdParameters h w1)
  end.
Proof.
  revert w. induction ts as [|t ts IH]; intros w; simpl; [done |].
  run_method. rewrite applyRestriction_holdParameters.
  destruct (Lenient.applyRestriction t w) as [[] w1 | e w1]; [apply IH | done].
Qed.

Lemma applyRestrictions_holdParameters h restrictions w :
  Lenient._applyRestrictions restrictions (set_holdParameters h w) =
  match Lenient._applyRestrictions restrictions w with
  | Return a w1 => Return a (set_holdParameters h w1)
  | Throw e w1 => Throw e (set_holdParameters h w1)
  end.
Proof.
  unfold Lenient._applyRestrictions.
  destruct (JsString.isEmpty restrictions); [done |].
  apply applyRestrictionCollection_holdParameters.
Qed.

Lemma initializePosition_holdParameters h w :
  Lenient._initializePosition (set_holdParameters h w) =
  match Lenient._initializePosition w with
  | Return a w1 => Return a (set_holdParameters h w1)
  | Throw e w1 => Throw e (set_holdParameters h w1)
  end.
Proof.
  unfold Lenient._initializePosition. simpl.
  destruct (_isVectorWaypoint w); [done |].
  by destruct (getPositionModelForFixName (_name w)).
Qed.

(** The classification steps of the two revisions differ in the hold
    parameters alone. *)
Lemma initSpecialWaypoint_revisions fixName w :
  exists w2 : WaypointModel,
    Lenient._initSpecialWaypoint fixName w = Return tt w2
    /\ Strict._initSpecialWaypoint fixName
         (set_holdParameters (Some DEFAULT_HOLD_PARAMETERS) w)
       = Return tt (set_holdParameters (Some DEFAULT_HOLD_PARAMETERS) w2)
    /\ (_holdParameters w = None -> _isHoldWaypoint w = false ->
        _holdParameters w2 =
          if _isHoldWaypoint w2
          then Some {| inboundHeading := None; legLength := LegNumber 1;
                       timer := INVALID_NUMBER; turnDirection := "right" |}
          else None).
Proof.
  unfold Lenient._initSpecialWaypoint, Strict._initSpecialWaypoint.
  repeat case_match; eexists; (split; [reflexivity |]); (split; [reflexivity |]);
    simpl; intros Hparameters Hhold; rewrite ?Hparameters, ?Hhold; reflexivity.
Qed.

(** X8. The two revisions of the constructor agree on every value they are
    given: either both throw, and the same error, or both return, and the
    two waypoints are equal in every property but [_holdParameters].  There
    the later revision always holds the default parameters, and the earlier
    one holds its own literal defaults for a hold waypoint and null for any
    other. *)
Theorem revisions_construct_the_same_waypoint (data : WaypointData) :
  match Lenient.new data, Strict.new data with
  | Normal lenient, Normal strict =>
      strict = set_holdParameters (Some DEFAULT_HOLD_PARAMETERS) lenient
      /\ sameButHoldParameters lenient strict
      /\ _holdParameters lenient =
           (if _isHoldWaypoint lenient
            then Some {| inboundHeading := None; legLength := LegNumber 1;
                         timer := INVALID_NUMBER; turnDirection := "right" |}
            else None)
  | Thrown e, Thrown e' => e = e'
  | _, _ => False
  end.
Proof.
  assert (forall fixName restrictions,
            Lenient.initArguments data = Normal (fixName, restrictions) ->
            match construct (Lenient.init data Lenient.initialProperties),
                  construct (Strict.init data Strict.initialProperties) with
            | Normal lenient, Normal strict =>
                strict = set_holdParameters (Some DEFAULT_HOLD_PARAMETERS) lenient
                /\ sameButHoldParameters lenient strict
                /\ _holdParameters lenient =
                     (if _isHoldWaypoint lenient
                      then Some {| inboundHeading := None; legLength := LegNumber 1;
                                   timer := INVALID_NUMBER; turnDirection := "right" |}
                      else None)
            | Thrown e, Thrown e' => e = e'
            | _, _ => False
            end) as Hbody.
  { intros fixName restrictions Hargs.
    destruct (initSpecialWaypoint_revisions fixName
                (set_name (stored fixName) Lenient.initialProperties))
      as (w2 & Hlenient & Hstrict & Hhold).
    specialize (Hhold eq_refl eq_refl).
    rewrite (lenient_init_unfold _ _ _ Hargs), (init_body_run _ _ _ _ _ Hlenient).
    rewrite (strict_init_unfold _ _ _ Hargs).
    change (set_name (stored fixName) Strict.initialProperties)
      with (set_holdParameters (Some DEFAULT_HOLD_PARAMETERS)
              (set_name (stored fixName) Lenient.initialProperties)) in Hstrict.
    rewrite (init_body_run Strict._initSpecialWaypoint _ _ Strict.initialProperties
               _ Hstrict).
    rewrite applyRestrictions_holdParameters.
    pose proof (applyRestrictions_frame restrictions w2) as Hframe.
    destruct (Lenient._applyRestrictions restrictions w2) as [[] w3 | e w3];
      [| done].
    simpl in Hframe. destruct Hframe as (Hh3 & _ & Hf3 & _).
    rewrite initializePosition_holdParameters.
    destruct (initializePosition_frame w3) as (Hh4 & _ & Hf4 & _).
    destruct (Lenient._initializePosition w3) as [[] w4 | e w4]; [| done].
    simpl in *. split_and!; try done.
    by rewrite Hh4, Hf4, Hh3, Hf3. }
  destruct data as [fixName | items |].
  - exact (Hbody fixName EmptyString eq_refl).
  - destruct items as [|fixName [|restrictions [|extra items]]]; try done.
    exact (Hbody fixName restrictions eq_refl).
  - done.
Qed.

(** X5. The two altitude comparisons on a constructed waypoint.  When no
    token of the restriction string begins with the altitude letter, both
    answer false for every altitude, [NaN] included: an unset bound is not
    compared.  [hasMaximumAltitudeBelow] that holds for an altitude holds for
    every higher one, [hasMinimumAltitudeAbove] for every lower one.  Both
    hold of the same altitude only on a waypoint whose minimum lies above its
    maximum. *)
Theorem altitude_comparisons_ignore_unset_bounds
  (data : WaypointData) (fixName restrictions : string) (w : WaypointModel) :
  Lenient.initArguments data = Normal (fixName, restrictions) ->
  Lenient.new data = Normal w \/ Strict.new data = Normal w ->
  ((forall token, token ∈ JsString.split "|" restrictions ->
                  JsString.first token <> Some "A"%char) ->
   forall altitude,
     Lenient.hasMaximumAltitudeBelow w altitude = false
     /\ Lenient.hasMinimumAltitudeAbove w altitude = false)
  /\ (forall altitude higher,
        Lenient.hasMaximumAltitudeBelow w (Num altitude) = true ->
        altitude <= higher ->
        Lenient.hasMaximumAltitudeBelow w (Num higher) = true)
  /\ (forall altitude lower,
        Lenient.hasMinimumAltitudeAbove w (Num altitude) = true ->
        lower <= altitude ->
        Lenient.hasMinimumAltitudeAbove w (Num lower) = true)
  /\ (forall altitude,
        Lenient.hasMaximumAltitudeBelow w altitude = true ->
        Lenient.hasMinimumAltitudeAbove w altitude = true ->
        exists minimum maximum,
          altitudeMinimum w = Num minimum /\ altitudeMaximum w = Num maximum
          /\ maximum < minimum).
Proof.
  intros Hargs Hnew.
  pose proof (new_bounds _ _ _ _ Hargs Hnew) as Hbounds.
  split_and!.
  - intros Hnone altitude.
    assert (forall b, b = Stated.AltitudeMaximum \/ b = Stated.AltitudeMinimum ->
                      Stated.bound b w = Num (-1)) as Hunset.
    { intros b Hb. rewrite Hbounds. apply boundAfter_unset. intros t Hin.
      assert (JsString.first t <> Some "A"%char) as Hfirst.
      { intros Hfirst.
        destruct (proj1 (tokens_with_prefix restrictions "A") (ex_intro _ t (conj Hin Hfirst)))
          as (t' & Hin' & Hfirst').
        by apply (Hnone t'). }
      destruct (assigns_altitude_other t Hfirst). by destruct Hb as [-> | ->]. }
    unfold Lenient.hasMaximumAltitudeBelow, Lenient.hasMinimumAltitudeAbove.
    pose proof (Hunset Stated.AltitudeMaximum (or_introl eq_refl)) as Hmax.
    pose proof (Hunset Stated.AltitudeMinimum (or_intror eq_refl)) as Hmin.
    simpl in Hmax, Hmin. by rewrite Hmax, Hmin.
  - unfold Lenient.hasMaximumAltitudeBelow. intros altitude higher.
    destruct (altitudeMaximum w) as [maximum |]; simpl; [| done].
    rewrite !andb_true_iff, !Z.ltb_lt. intros [? ?] ?. split; [done | lia].
  - unfold Lenient.hasMinimumAltitudeAbove, jsGreaterThan. intros altitude lower.
    destruct (altitudeMinimum w) as [minimum |]; simpl; [| done].
    rewrite !andb_true_iff, !Z.ltb_lt. intros [? ?] ?. split; [done | lia].
  - unfold Lenient.hasMaximumAltitudeBelow, Lenient.hasMinimumAltitudeAbove,
      jsGreaterThan.
    intros altitude.
    destruct (altitudeMaximum w) as [maximum |], (altitudeMinimum w) as [minimum |],
      altitude as [a |]; simpl; rewrite ?andb_false_r; try done.
    rewrite !andb_true_iff, !Z.ltb_lt. intros [_ ?] [_ ?].
    exists minimum, maximum. split_and!; try done. lia.
Qed.


(** A constructed waypoint that is no vector waypoint holds the position that
    the fix collection has for its stored name. *)
Lemma new_position data fixName restrictions w :
  Lenient.initArguments data = Normal (fixName, restrictions) ->
  Lenient.new data = Normal w \/ Strict.new data = Normal w ->
  _isVectorWaypoint w = false ->
  exists position,
    getPositionModelForFixName (stored fixName) = Some position
    /\ _positionModel w = Some position.
Proof.
  intros Hargs Hnew Hvector.
  assert (forall new : WaypointData -> Completion WaypointModel,
            new data = Normal w ->
            (forallb Stated.wellFormedToken (Stated.tokens restrictions) = false
             /\ exists e, new data = Thrown e)
            \/ (forallb Stated.wellFormedToken (Stated.tokens restrictions) = true
                /\ exists w3,
                     _name w3 = stored fixName
                     /\ _isVectorWaypoint w3 =
                          negb (hasMarker "^" fixName) && negb (hasMarker "@" fixName)
                          && hasMarker "#" fixName
                     /\ _positionModel w3 = None
                     /\ (forall b, Stated.bound b w3
                                   = Stated.boundAfter b (Stated.tokens restrictions))
                     /\ new data =
                          if negb (hasMarker "^" fixName) && negb (hasMarker "@" fixName)
                             && hasMarker "#" fixName
                          then Normal w3
                          else match getPositionModelForFixName (stored fixName) with
                               | None => Thrown (ExpectedKnownFix (stored fixName))
                               | Some p => Normal (set_positionModel (Some p) w3)
                               end) ->
            exists position,
              getPositionModelForFixName (stored fixName) = Some position
              /\ _positionModel w = Some position) as Hgeneric.
  { intros new Hw [(_ & e & Hthrown) | (_ & w3 & _ & Hv & _ & _ & Hrun)];
      [congruence |].
    rewrite Hrun in Hw. destruct (_ && hasMarker "#" fixName).
    - injection Hw as <-. congruence.
    - destruct (getPositionModelForFixName _) as [position |]; [| done].
      injection Hw as <-. by exists position. }
  destruct Hnew as [Hnew | Hnew].
  - exact (Hgeneric _ Hnew (lenient_new_outcome _ _ _ Hargs)).
  - exact (Hgeneric _ Hnew (strict_new_outcome _ _ _ Hargs)).
Qed.

(** X9. Bearing and distance between two constructed waypoints that are no
    vector waypoints, whichever revision constructed them: each holds the
    position that the fix collection has for its stored name, so no method
    meets a null position, and all four methods hand these two positions to
    the position model and pass on what it answers. *)
Theorem bearing_and_distance_between_constructed_waypoints
  (data data' : WaypointData) (fixName restrictions fixName' restrictions' : string)
  (this other : WaypointModel) :
  Lenient.initArguments data = Normal (fixName, restrictions) ->
  Lenient.initArguments data' = Normal (fixName', restrictions') ->
  Lenient.new data = Normal this \/ Strict.new data = Normal this ->
  Lenient.new data' = Normal other \/ Strict.new data' = Normal other ->
  _isVectorWaypoint this = false ->
  _isVectorWaypoint other = false ->
  exists position position',
    getPositionModelForFixName (JsString.replace "^" (JsString.replace "@" fixName))
    = Some position
    /\ getPositionModelForFixName
         (JsString.replace "^" (JsString.replace "@" fixName'))
       = Some position'
    /\ Strict.calculateBearingToWaypoint this (ArgWaypoint other)
       = bearingToPosition position (Some position')
    /\ Strict.calculateDistanceToWaypoint this (ArgWaypoint other)
       = distanceToPosition position (Some position')
    /\ Lenient.calculateBearingToWaypoint this (ArgWaypoint other)
       = match bearingToPosition position (Some position') with
         | Normal bearing => Normal (Some bearing)
         | Thrown e => Thrown e
         end
    /\ Lenient.calculateDistanceToWaypoint this (ArgWaypoint other)
       = distanceToPosition position (Some position').
Proof.
  intros Hargs Hargs' Hnew Hnew' Hvector Hvector'.
  destruct (new_position _ _ _ _ Hargs Hnew Hvector) as (position & Hlookup & Hthis).
  destruct (new_position _ _ _ _ Hargs' Hnew' Hvector')
    as (position' & Hlookup' & Hother).
  exists position, position'.
  unfold Strict.calculateBearingToWaypoint, Strict.calculateDistanceToWaypoint,
    Strict._ensureNonVectorWaypointsForThisAndWaypoint,
    Lenient.calculateBearingToWaypoint, Lenient.calculateDistanceToWaypoint,
    Strict.argumentPositionModel, Lenient.isVectorWaypoint, Lenient.positionModel.
  rewrite Hvector, Hvector', Hthis, Hother. by split_and!.
Qed.

End ConstructionProperties.

(** ** Hold parameters *)

Section HoldProperties.
Context `{WaypointCollaborators}.

Local Abbreviation method := (Method WaypointModel unit).
Local Abbreviation stored fixName :=
  (JsString.replace "^" (JsString.replace "@" fixName)).

(** [init] leaves the hold flag and the hold parameters as its classification
    step has left them, and leaves them alone when it throws at its head. *)
Lemma lenient_init_hold data w0 :
  (exists fixName restrictions w2,
     Lenient.initArguments data = Normal (fixName, restrictions)
     /\ Lenient._initSpecialWaypoint fixName (set_name (stored fixName) w0)
        = Return tt w2
     /\ _isHoldWaypoint (finalState (Lenient.init data w0)) = _isHoldWaypoint w2
     /\ _holdParameters (finalState (Lenient.init data w0)) = _holdParameters w2)
  \/ finalState (Lenient.init data w0) = w0.
Proof.
  destruct (Lenient.initArguments data) as [[fixName restrictions] | e] eqn:Hargs.
  - left.
    destruct (initSpecialWaypoint_effect fixName (set_name (stored fixName) w0))
      as (w2 & Hspecial & _).
    exists fixName, restrictions, w2. split; [done |]. split; [done |].
    rewrite (lenient_init_unfold _ _ _ Hargs).
    destruct (init_body_fields _ fixName restrictions _ _ Hspecial)
      as (_ & Hh & _ & _ & Hp).
    by split.
  - right. unfold Lenient.init. by rewrite Hargs.
Qed.

Lemma strict_init_hold data w0 :
  _holdParameters (finalState (Strict.init data w0)) = _holdParameters w0.
Proof.
  destruct (Lenient.initArguments data) as [[fixName restrictions] | e] eqn:Hargs.
  - assert (exists w2,
              Strict._initSpecialWaypoint fixName (set_name (stored fixName) w0)
              = Return tt w2
              /\ _holdParameters w2 = _holdParameters w0) as (w2 & Hspecial & Hkept).
    { unfold Strict._initSpecialWaypoint.
      repeat case_match; eexists; (split; [reflexivity |]); reflexivity. }
    rewrite (strict_init_unfold _ _ _ Hargs).
    destruct (init_body_fields _ fixName restrictions _ _ Hspecial)
      as (_ & _ & _ & _ & Hp).
    by rewrite Hp.
  - unfold Strict.init. by rewrite Hargs.
Qed.

(** X10. In [WaypointModel.js] the hold parameters follow the hold flag.  In
    every state that the constructor, [init], [reset] and
    [setHoldParametersAndArmHold] can leave, whether they return or throw,
    [_holdParameters] is an object exactly when the waypoint is a hold
    waypoint.  So the getter [holdParameters] returns [undefined] exactly on
    a waypoint that is no hold waypoint, an object on a hold waypoint, and
    never null. *)
Theorem lenient_hold_parameters_follow_the_flag (w : WaypointModel) :
  LenientStates.Reachable w ->
  (_isHoldWaypoint w = true <-> is_Some (_holdParameters w))
  /\ (Lenient.holdParameters w = None <-> _isHoldWaypoint w = false)
  /\ (_isHoldWaypoint w = true ->
      exists parameters, Lenient.holdParameters w = Some (Some parameters))
  /\ Lenient.holdParameters w <> Some None.
Proof.
  intros Hreach.
  assert (_isHoldWaypoint w = true <-> is_Some (_holdParameters w)) as Hiff.
  { assert (forall data w0,
              (_isHoldWaypoint w0 = true <-> is_Some (_holdParameters w0)) ->
              let after := finalState (Lenient.init data w0) in
              _isHoldWaypoint after = true <-> is_Some (_holdParameters after))
      as Hinit.
    { intros data w0 Hw0 after. subst after.
      destruct (lenient_init_hold data w0)
        as [(fixName & restrictions & w2 & _ & Hspecial & -> & ->) | ->]; [| done].
      revert Hspecial. unfold Lenient._initSpecialWaypoint.
      repeat case_match; intros [= <-]; simpl; try done. }
    induction Hreach as [data w Hnew | data w _ IH | w _ _ | heading direction leg w _ _].
    - rewrite (new_is_finalState _ _ Hnew). apply Hinit. simpl.
      split; [done | by intros [? ?]].
    - by apply Hinit.
    - simpl. split; [done | by intros [? ?]].
    - simpl. split; [by eexists | done]. }
  unfold Lenient.holdParameters.
  destruct (_isHoldWaypoint w) eqn:Hhold; simpl.
  - destruct (proj1 Hiff eq_refl) as [parameters Hparameters].
    rewrite Hparameters. split_and!; try done. by eexists.
  - split_and!; done.
Qed.

(** X11. In the revision of [part_001] the hold parameters are never null:
    in every state that the constructor and the methods that write to the
    waypoint can leave, [_holdParameters] is an object.  So on such a
    waypoint [resetHoldTimer] returns, [setHoldTimer] with a number sets the
    timer, [setHoldParameters] and [setHoldParametersAndActivateHold] give a
    full set of parameters, and the getter never returns null. *)
Theorem strict_hold_parameters_are_never_null (w : WaypointModel) :
  StrictHold.Reachable w ->
  is_Some (_holdParameters w)
  /\ Lenient.holdParameters w <> Some None
  /\ (exists after, StrictHold.resetHoldTimer w = Normal after)
  /\ (forall seconds,
        exists after, StrictHold.setHoldTimer (StrictHold.TimeNumber seconds) w
                      = StrictHold.TimerSet after)
  /\ (forall patch, is_Some (StrictHold.setHoldParameters patch w))
  /\ (forall patch, is_Some (StrictHold.setHoldParametersAndActivateHold patch w)).
Proof.
  intros Hreach.
  assert (is_Some (_holdParameters w)) as [current Hcurrent].
  { induction Hreach
      as [data w Hnew | data w _ IH | w _ _ | w _ IH | w _ IH
          | patch w after _ _ Hset | patch w after _ _ Hset
          | w after _ _ Hset | expirationTime w after _ _ Hset].
    - rewrite (strict_new_is_finalState _ _ Hnew), strict_init_hold. by eexists.
    - by rewrite strict_init_hold.
    - by eexists.
    - done.
    - done.
    - unfold StrictHold.setHoldParameters in Hset.
      repeat case_match; simplify_eq; by eexists.
    - unfold StrictHold.setHoldParametersAndActivateHold,
        StrictHold.setHoldParameters in Hset.
      repeat case_match; simplify_eq; by eexists.
    - unfold StrictHold.resetHoldTimer, StrictHold.assignTimer in Hset.
      repeat case_match; simplify_eq; by eexists.
    - unfold StrictHold.setHoldTimer, StrictHold.assignTimer in Hset.
      repeat case_match; simplify_eq; by eexists. }
  unfold Lenient.holdParameters, StrictHold.resetHoldTimer, StrictHold.setHoldTimer,
    StrictHold.assignTimer, StrictHold.setHoldParametersAndActivateHold,
    StrictHold.setHoldParameters.
  rewrite Hcurrent. split_and!; try by eexists.
  by destruct (negb (_isHoldWaypoint w)).
Qed.


Lemma set_holdParameters_same (w : WaypointModel) :
  set_holdParameters (_holdParameters w) w = w.
Proof. by destruct w. Qed.

Lemma sameButHoldParameters_set h (w : WaypointModel) :
  sameButHoldParameters w (set_holdParameters h w).
Proof. by repeat split. Qed.

(** X12. [setHoldParameters] on a waypoint that has hold parameters merges
    its argument into them: the keys of the argument win and the others keep
    their values.  An argument without keys changes nothing, one with all
    four keys replaces the parameters, two calls in a row merge both
    arguments with the later one winning, and the same call twice is the same
    as once.  Nothing but [_holdParameters] changes; in particular the hold
    is not activated, and the getter shows the merged parameters only on a
    waypoint that was a hold waypoint already.
    [setHoldParametersAndActivateHold] does the same and activates the hold,
    so that the getter shows the merged parameters. *)
Theorem setHoldParameters_merges_into_current
  (w : WaypointModel) (current : HoldParameters) (patch later : StrictHold.Patch) :
  _holdParameters w = Some current ->
  let merged := StrictHold.assign current patch in
  let empty :=
    {| StrictHold.patch_inboundHeading := None; StrictHold.patch_legLength := None;
       StrictHold.patch_timer := None; StrictHold.patch_turnDirection := None |} in
  StrictHold.setHoldParameters patch w = Some (set_holdParameters (Some merged) w)
  /\ StrictHold.setHoldParameters empty w = Some w
  /\ (forall parameters, StrictHold.fromPatch patch = Some parameters ->
        merged = parameters)
  /\ timer merged = default (timer current) (StrictHold.patch_timer patch)
  /\ (StrictHold.setHoldParameters patch w
        ≫= StrictHold.setHoldParameters later
      = Some (set_holdParameters
                (Some (StrictHold.assign (StrictHold.assign current patch) later)) w))
  /\ (StrictHold.setHoldParameters patch w ≫= StrictHold.setHoldParameters patch
      = StrictHold.setHoldParameters patch w)
  /\ (forall after, StrictHold.setHoldParameters patch w = Some after ->
        sameButHoldParameters w after
        /\ Lenient.holdParameters after =
             (if _isHoldWaypoint w then Some (Some merged) else None))
  /\ (forall after,
        StrictHold.setHoldParametersAndActivateHold patch w = Some after ->
        Lenient.holdParameters after = Some (Some merged)
        /\ sameButHoldParameters (Strict.activateHold w) after).
Proof.
  intros Hcurrent merged empty.
  assert (StrictHold.setHoldParameters patch w
          = Some (set_holdParameters (Some merged) w)) as Hset.
  { unfold StrictHold.setHoldParameters. by rewrite Hcurrent. }
  split_and!.
  - exact Hset.
  - unfold StrictHold.setHoldParameters. rewrite Hcurrent.
    assert (StrictHold.assign current empty = current) as -> by (by destruct current).
    by rewrite <- Hcurrent, set_holdParameters_same.
  - unfold StrictHold.fromPatch, merged, StrictHold.assign.
    intros parameters Hfull.
    destruct (StrictHold.patch_inboundHeading patch),
      (StrictHold.patch_legLength patch), (StrictHold.patch_timer patch),
      (StrictHold.patch_turnDirection patch); simplify_eq; done.
  - done.
  - rewrite Hset. simpl. unfold StrictHold.setHoldParameters. simpl. done.
  - rewrite Hset. simpl. unfold StrictHold.setHoldParameters. simpl.
    assert (StrictHold.assign merged patch = merged) as ->; [| done].
    unfold merged, StrictHold.assign. simpl.
    by destruct (StrictHold.patch_inboundHeading patch),
         (StrictHold.patch_legLength patch), (StrictHold.patch_timer patch),
         (StrictHold.patch_turnDirection patch).
  - intros after. rewrite Hset. intros [= <-].
    split; [apply sameButHoldParameters_set |].
    unfold Lenient.holdParameters. simpl. by destruct (_isHoldWaypoint w).
  - intros after. unfold StrictHold.setHoldParametersAndActivateHold.
    rewrite Hset. intros [= <-]. split; [done |]. by repeat split.
Qed.

(** X13. The hold timer on a waypoint that has hold parameters.
    [setHoldTimer] with a number, [NaN] included, stores it as the timer and
    leaves the other three parameters and every other property alone; with a
    value that is no number it throws its [TypeError] and writes nothing.
    [resetHoldTimer] stores the default timer, whatever the timer was, so it
    undoes [setHoldTimer]; a second [resetHoldTimer] changes nothing, and on
    a waypoint whose timer is the default the first changes nothing
    either. *)
Theorem hold_timer_is_set_and_reset
  (w : WaypointModel) (current : HoldParameters) (seconds : JsNumber) :
  _holdParameters w = Some current ->
  let timed :=
    {| inboundHeading := inboundHeading current; legLength := legLength current;
       timer := seconds; turnDirection := turnDirection current |} in
  let defaulted :=
    {| inboundHeading := inboundHeading current; legLength := legLength current;
       timer := timer DEFAULT_HOLD_PARAMETERS;
       turnDirection := turnDirection current |} in
  StrictHold.setHoldTimer (StrictHold.TimeNumber seconds) w
  = StrictHold.TimerSet (set_holdParameters (Some timed) w)
  /\ StrictHold.setHoldTimer StrictHold.TimeOther w = StrictHold.ExpectedNumber
  /\ StrictHold.resetHoldTimer w = Normal (set_holdParameters (Some defaulted) w)
  /\ StrictHold.resetHoldTimer (set_holdParameters (Some timed) w)
     = StrictHold.resetHoldTimer w
  /\ (StrictHold.resetHoldTimer w ≫= StrictHold.resetHoldTimer
      = StrictHold.resetHoldTimer w)
  /\ sameButHoldParameters w (set_holdParameters (Some timed) w)
  /\ Lenient.holdParameters (set_holdParameters (Some timed) w)
     = (if _isHoldWaypoint w then Some (Some timed) else None)
  /\ (timer current = timer DEFAULT_HOLD_PARAMETERS ->
      StrictHold.resetHoldTimer w = Normal w).
Proof.
  intros Hcurrent timed defaulted.
  assert (StrictHold.resetHoldTimer w = Normal (set_holdParameters (Some defaulted) w))
    as Hreset.
  { unfold StrictHold.resetHoldTimer, StrictHold.assignTimer. by rewrite Hcurrent. }
  split_and!.
  - unfold StrictHold.setHoldTimer, StrictHold.assignTimer. by rewrite Hcurrent.
  - done.
  - exact Hreset.
  - by rewrite Hreset.
  - by rewrite Hreset.
  - apply sameButHoldParameters_set.
  - unfold Lenient.holdParameters. simpl. by destruct (_isHoldWaypoint w).
  - intros Hdefault. rewrite Hreset. f_equal.
    rewrite <- (set_holdParameters_same w) at 2. rewrite Hcurrent.
    do 2 f_equal. subst defaulted. rewrite <- Hdefault. by destruct current.
Qed.


(** X14. The hold setter of the later revision covers the one of the
    earlier: [setHoldParametersAndActivateHold], given an inbound heading, a
    turn direction, a leg length and the sentinel as timer, leaves the
    waypoint that [setHoldParametersAndArmHold] of [WaypointModel.js] leaves
    for the same three arguments, whatever the waypoint held before.  The
    getter then shows these parameters, and nothing else differs from a
    waypoint whose hold has been activated. *)
Theorem strict_hold_setter_covers_the_lenient_one
  (w : WaypointModel) (heading : option R) (direction : string) (leg : LegLength) :
  let patch :=
    {| StrictHold.patch_inboundHeading := Some heading;
       StrictHold.patch_legLength := Some leg;
       StrictHold.patch_timer := Some INVALID_NUMBER;
       StrictHold.patch_turnDirection := Some direction |} in
  StrictHold.setHoldParametersAndActivateHold patch w
  = Some (Lenient.setHoldParametersAndArmHold heading direction leg w)
  /\ Lenient.holdParameters
       (Lenient.setHoldParametersAndArmHold heading direction leg w)
     = Some (Some {| inboundHeading := heading; legLength := leg;
                     timer := INVALID_NUMBER; turnDirection := direction |})
  /\ sameButHoldParameters (Strict.activateHold w)
       (Lenient.setHoldParametersAndArmHold heading direction leg w).
Proof.
  intros patch. split_and!.
  - unfold StrictHold.setHoldParametersAndActivateHold, StrictHold.setHoldParameters.
    by destruct (_holdParameters w).
  - done.
  - by repeat split.
Qed.

End HoldProperties.

(** ** What a loaded library holds *)

Section LoadedLibraryProperties.
Context `{NavigationCollaborators}.

Import Navigation.

Local Abbreviation method := (Method World unit).

Ltac run_method :=
  unfold mbind, Method_bind, mret, Method_ret, modify, throw in *.

Lemma js_in_false {A} key (collection : gmap string A) :
  js_in key collection = false <-> collection !! key = None /\ inherited key = false.
Proof.
  unfold js_in. rewrite orb_false_iff, bool_decide_eq_false.
  rewrite <- eq_None_not_Some. done.
Qed.

(** A loop whose callback refuses a key that is [in] the collection and
    otherwise stores under that key a model that it builds: when the loop
    returns, its keys were distinct, none was in the collection, every entry
    is stored under its key, and the other keys are as before. *)
Lemma forEach_contents {A M} (callback : A -> string -> method)
  (collection : World -> gmap string M) (built : A -> string -> World -> M -> Prop) :
  (forall value key w w',
     callback value key w = Return tt w' ->
     js_in key (collection w) = false
     /\ exists model, built value key w model
                      /\ collection w' = <[key := model]> (collection w)) ->
  forall entries w w1,
    _forEach entries callback w = Return tt w1 ->
    NoDup entries.*1
    /\ (forall key, key ∈ entries.*1 -> js_in key (collection w) = false)
    /\ (forall key, key ∉ entries.*1 -> collection w1 !! key = collection w !! key)
    /\ (forall key value, (key, value) ∈ entries ->
          exists w' model, built value key w' model
                           /\ collection w1 !! key = Some model).
Proof.
  intros Hcallback entries.
  induction entries as [|[key0 value0] entries IH]; intros w w1 Hrun; simpl in *.
  - injection Hrun as <-. split_and!.
    + constructor.
    + by intros key ?%elem_of_nil.
    + done.
    + by intros key value ?%elem_of_nil.
  - run_method.
    destruct (callback value0 key0 w) as [[] wa | e wa] eqn:Hcall; [| discriminate].
    destruct (Hcallback _ _ _ _ Hcall) as (Hfresh & model & Hbuilt & Hstored).
    destruct (IH _ _ Hrun) as (Hnodup & Hnone & Hother & Hentries).
    assert (key0 ∉ entries.*1) as Hnotin.
    { intros Hin. specialize (Hnone _ Hin). apply js_in_false in Hnone as [Hnone _].
      by rewrite Hstored, lookup_insert_eq in Hnone. }
    split_and!.
    + by constructor.
    + intros key [-> | Hin]%elem_of_cons; [done |].
      specialize (Hnone _ Hin). apply js_in_false in Hnone as [Hnone Hinherited].
      apply js_in_false. split; [| done].
      rewrite Hstored in Hnone.
      destruct (decide (key = key0)) as [-> | Hne].
      * by rewrite lookup_insert_eq in Hnone.
      * by rewrite lookup_insert_ne in Hnone.
    + intros key Hkey. apply not_elem_of_cons in Hkey as [Hne Hkey].
      rewrite (Hother _ Hkey), Hstored. by rewrite lookup_insert_ne.
    + intros key value [[= -> ->] | Hin]%elem_of_cons.
      * exists w, model. split; [done |].
        rewrite (Hother _ Hnotin), Hstored. by rewrite lookup_insert_eq.
      * by apply Hentries.
Qed.

(** A loop of that kind returns when its keys are distinct, none is [in] the
    collection, and the model of every entry can be built. *)
Lemma forEach_returns {A M} (callback : A -> string -> method)
  (collection : World -> gmap string M) (buildable : A -> string -> Prop) :
  (forall value key w,
     buildable value key ->
     js_in key (collection w) = false ->
     exists w' model,
       callback value key w = Return tt w'
       /\ collection w' = <[key := model]> (collection w)) ->
  forall entries w,
    (forall key value, (key, value) ∈ entries -> buildable value key) ->
    NoDup entries.*1 ->
    (forall key, key ∈ entries.*1 -> js_in key (collection w) = false) ->
    exists w1, _forEach entries callback w = Return tt w1.
Proof.
  intros Hcallback entries.
  induction entries as [|[key0 value0] entries IH]; intros w Hbuildable Hnodup Hnone;
    simpl.
  - by exists w.
  - apply NoDup_cons in Hnodup as [Hnotin Hnodup].
    destruct (Hcallback value0 key0 w) as (wa & model & Hcall & Hstored).
    { apply Hbuildable. apply elem_of_cons. by left. }
    { apply Hnone. apply elem_of_cons. by left. }
    run_method. rewrite Hcall. apply IH; [| done |].
    + intros key value Hin. apply Hbuildable. apply elem_of_cons. by right.
    + intros key Hin.
      assert (js_in key (collection w) = false) as Hw
        by (apply Hnone, elem_of_cons; by right).
      apply js_in_false in Hw as [Hw Hinherited]. apply js_in_false. split; [| done].
      rewrite Hstored, lookup_insert_ne; [done |]. by intros ->.
Qed.

Lemma defineAirway_returns fixNames airwayName w w' :
  defineAirway fixNames airwayName w = Return tt w' ->
  js_in airwayName (_airwayCollection (library w)) = false
  /\ exists airwayModel,
       newAirwayModel airwayName fixNames w = Normal airwayModel
       /\ _airwayCollection (library w')
          = <[airwayName := airwayModel]> (_airwayCollection (library w)).
Proof.
  unfold defineAirway.
  destruct (js_in airwayName _); [discriminate |].
  destruct (newAirwayModel _ _ _) as [airwayModel | e]; [| discriminate].
  intros [= <-]. split; [done |]. by exists airwayModel.
Qed.

Lemma defineTypedProcedure_returns typed procedureId w w' :
  defineTypedProcedure typed procedureId w = Return tt w' ->
  js_in procedureId (_procedureCollection (library w)) = false
  /\ exists procedureModel,
       newProcedureModel typed.1 typed.2 = Normal procedureModel
       /\ _procedureCollection (library w')
          = <[procedureId := procedureModel]> (_procedureCollection (library w)).
Proof.
  unfold defineTypedProcedure, defineProcedure.
  destruct (js_in procedureId _); [discriminate |].
  destruct (newProcedureModel _ _) as [procedureModel | e]; [| discriminate].
  intros [= <-]. split; [done |]. by exists procedureModel.
Qed.

(** The collections after a load that went through, from the collections
    before it. *)
Lemma init_contents (airportJson : AirportJson) w w1 :
  init airportJson w = Return tt w1 ->
  let entries := procedureEntries (sids airportJson) (stars airportJson) in
  (NoDup (airways airportJson).*1
   /\ (forall key, key ∈ (airways airportJson).*1 ->
         js_in key (_airwayCollection (library w)) = false)
   /\ (forall key, key ∉ (airways airportJson).*1 ->
         _airwayCollection (library w1) !! key = _airwayCollection (library w) !! key)
   /\ (forall key fixNames, (key, fixNames) ∈ airways airportJson ->
         exists w' airwayModel,
           newAirwayModel key fixNames w' = Normal airwayModel
           /\ _airwayCollection (library w1) !! key = Some airwayModel))
  /\ (NoDup entries.*1
      /\ (forall key, key ∈ entries.*1 ->
            js_in key (_procedureCollection (library w)) = false)
      /\ (forall key, key ∉ entries.*1 ->
            _procedureCollection (library w1) !! key
            = _procedureCollection (library w) !! key)
      /\ (forall key typed, (key, typed) ∈ entries ->
            exists procedureModel,
              newProcedureModel typed.1 typed.2 = Normal procedureModel
              /\ _procedureCollection (library w1) !! key = Some procedureModel)).
Proof.
  rewrite init_stages. intros Hinit entries.
  destruct (prelude_frame airportJson w) as (Ha0 & Hp0 & _).
  destruct ((_initializeReferencePosition airportJson ;;
             _initializeFixCollection (fixes airportJson)) w) as [[] w0 | e w0];
    [| discriminate].
  simpl in Ha0, Hp0.
  destruct (initializeAirwayCollection_frame (airways airportJson) w0) as (Hpa & _).
  destruct (_initializeAirwayCollection (airways airportJson) w0) as [[] wa | e wa]
    eqn:Hairways; [| discriminate].
  simpl in Hpa.
  destruct (initializeProcedureCollection_frame
              (sids airportJson) (stars airportJson) wa) as (Hap & _).
  destruct (_initializeProcedureCollection (sids airportJson) (stars airportJson) wa)
    as [[] wp | e wp] eqn:Hprocedures; [| discriminate].
  simpl in Hap.
  pose proof (showConsoleWarning_library wp) as Hlibrary.
  rewrite Hinit in Hlibrary. simpl in Hlibrary. rewrite Hlibrary.
  split.
  - destruct (forEach_contents defineAirway
                (fun w => _airwayCollection (library w))
                (fun fixNames key w model => newAirwayModel key fixNames w = Normal model)
                defineAirway_returns _ _ _ Hairways)
      as (Hnodup & Hnone & Hother & Hentries).
    rewrite Hap, <- Ha0. split_and!; try done.
  - rewrite initializeProcedureCollection_entries in Hprocedures.
    destruct (forEach_contents defineTypedProcedure
                (fun w => _procedureCollection (library w))
                (fun typed key w model =>
                   newProcedureModel typed.1 typed.2 = Normal model)
                defineTypedProcedure_returns _ _ _ Hprocedures)
      as (Hnodup & Hnone & Hother & Hentries).
    rewrite <- Hp0, <- Hpa. split_and!; try done.
    intros key typed Hin. destruct (Hentries key typed Hin) as (_ & model & ?).
    by exists model.
Qed.


Lemma procedureEntries_keys (sids stars : list (string * ProcedureDefinition)) :
  (procedureEntries sids stars).*1 = sids.*1 ++ stars.*1.
Proof.
  unfold procedureEntries. rewrite fmap_app, <- !list_fmap_compose. done.
Qed.

Lemma elem_of_procedureEntries (sids stars : list (string * ProcedureDefinition))
  key typed :
  (key, typed) ∈ procedureEntries sids stars <->
  (typed.1 = SID /\ (key, typed.2) ∈ sids)
  \/ (typed.1 = STAR /\ (key, typed.2) ∈ stars).
Proof.
  unfold procedureEntries. rewrite elem_of_app, !list_elem_of_fmap.
  destruct typed as [type definition]. simpl. split.
  - intros [([id d] & [= -> -> ->] & Hin) | ([id d] & [= -> -> ->] & Hin)]; auto.
  - intros [[-> Hin] | [-> Hin]].
    + left. by exists (key, definition).
    + right. by exists (key, definition).
Qed.

Lemma js_in_stored {A} key (collection : gmap string A) :
  js_in key collection = bool_decide (is_Some (collection !! key)) || inherited key.
Proof. reflexivity. Qed.

(** A load goes through on a library whose two collections are empty when the
    reference position and the fixes are accepted, the models of the file can
    be built, and the names of the file are distinct and not inherited. *)
Lemma init_returns (airportJson : AirportJson) (w : World) :
  _airwayCollection (library w) = ∅ ->
  _procedureCollection (library w) = ∅ ->
  hasThrown ((_initializeReferencePosition airportJson ;;
              _initializeFixCollection (fixes airportJson)) w) = false ->
  (forall name fixNames w',
     (name, fixNames) ∈ airways airportJson ->
     exists airwayModel, newAirwayModel name fixNames w' = Normal airwayModel) ->
  (forall id definition,
     (id, definition) ∈ sids airportJson ->
     exists procedureModel, newProcedureModel SID definition = Normal procedureModel) ->
  (forall id definition,
     (id, definition) ∈ stars airportJson ->
     exists procedureModel, newProcedureModel STAR definition = Normal procedureModel) ->
  NoDup (airways airportJson).*1 ->
  NoDup ((sids airportJson).*1 ++ (stars airportJson).*1) ->
  (forall name,
     name ∈ (airways airportJson).*1
              ++ (sids airportJson).*1 ++ (stars airportJson).*1 ->
     inherited name = false) ->
  exists w1, init airportJson w = Return tt w1.
Proof.
  intros Hairways Hprocedures Hprelude Hairway Hsid Hstar Hanodup Hpnodup Hown.
  rewrite init_stages.
  destruct (prelude_frame airportJson w) as (Ha0 & Hp0 & _).
  destruct ((_initializeReferencePosition airportJson ;;
             _initializeFixCollection (fixes airportJson)) w) as [[] w0 | e w0];
    [| discriminate].
  simpl in Ha0, Hp0.
  destruct (forEach_returns defineAirway
              (fun w => _airwayCollection (library w))
              (fun fixNames name =>
                 forall w', exists airwayModel,
                   newAirwayModel name fixNames w' = Normal airwayModel))
    with (entries := airways airportJson) (w := w0) as (wa & Hloop).
  { intros fixNames name w' Hbuildable Hfresh.
    destruct (Hbuildable w') as (airwayModel & Hbuilt).
    unfold defineAirway. rewrite Hfresh, Hbuilt. by eexists _, _. }
  { intros name fixNames Hin w'. by eapply Hairway. }
  { done. }
  { intros name Hin. rewrite Ha0, Hairways, js_in_empty.
    apply Hown. rewrite elem_of_app. by left. }
  destruct (initializeAirwayCollection_frame (airways airportJson) w0) as (Hpa & _).
  unfold _initializeAirwayCollection in *. rewrite Hloop in *. simpl in Hpa.
  rewrite initializeProcedureCollection_entries.
  destruct (forEach_returns defineTypedProcedure
              (fun w => _procedureCollection (library w))
              (fun typed id =>
                 exists procedureModel,
                   newProcedureModel typed.1 typed.2 = Normal procedureModel))
    with (entries := procedureEntries (sids airportJson) (stars airportJson))
         (w := wa) as (wp & Hprocs).
  { intros typed id w' (procedureModel & Hbuilt) Hfresh.
    unfold defineTypedProcedure, defineProcedure. rewrite Hfresh, Hbuilt.
    by eexists _, _. }
  { intros id [type definition] [[Htype Hin] | [Htype Hin]]%elem_of_procedureEntries;
      simpl in *; subst type; [by eapply Hsid | by eapply Hstar]. }
  { by rewrite procedureEntries_keys. }
  { intros id Hin. rewrite Hpa, Hp0, Hprocedures, js_in_empty.
    apply Hown. rewrite procedureEntries_keys in Hin. rewrite elem_of_app. by right. }
  rewrite Hprocs. unfold _showConsoleWarningForUndefinedFixes.
  destruct (Z.of_nat (length (missingFixes wp)) <? 1); by eexists.
Qed.

(** After a load that went through on a library whose two collections were
    empty, with models that keep their fix names, the fix names that the
    library mentions are those that the airways and procedures of the file
    mention. *)
Lemma referenced_after_load (airportJson : AirportJson) (w w1 : World)
  (fixNamesOf : ProcedureDefinition -> list string) :
  _airwayCollection (library w) = ∅ ->
  _procedureCollection (library w) = ∅ ->
  airwayModelKeepsFixNames ->
  procedureModelKeepsFixNames fixNamesOf ->
  init airportJson w = Return tt w1 ->
  forall fixName,
    referenced w1 fixName <->
    (exists airwayName fixNames,
       (airwayName, fixNames) ∈ airways airportJson /\ fixName ∈ fixNames)
    \/ (exists procedureId definition,
          ((procedureId, definition) ∈ sids airportJson
           \/ (procedureId, definition) ∈ stars airportJson)
          /\ fixName ∈ fixNamesOf definition).
Proof.
  intros Hairways Hprocedures Hakeeps Hpkeeps Hinit fixName.
  destruct (init_contents _ _ _ Hinit)
    as ((_ & _ & Haother & Haentries) & (_ & _ & Hpother & Hpentries)).
  unfold referenced. split.
  - intros [(airwayName & airwayModel & Hlookup & Hmentions)
           | (procedureId & procedureModel & Hlookup & Hmentions)].
    + left.
      destruct (decide (airwayName ∈ (airways airportJson).*1)) as [Hin | Hnotin].
      * apply list_elem_of_fmap in Hin as ([name fixNames] & -> & Hin).
        destruct (Haentries _ _ Hin) as (w' & airwayModel' & Hbuilt & Hlookup').
        simpl in *. rewrite Hlookup in Hlookup'. injection Hlookup' as <-.
        exists name, fixNames. split; [done |].
        by apply (Hakeeps _ _ _ _ Hbuilt).
      * by rewrite (Haother _ Hnotin), Hairways, lookup_empty in Hlookup.
    + right.
      destruct (decide (procedureId
                          ∈ (procedureEntries (sids airportJson)
                               (stars airportJson)).*1)) as [Hin | Hnotin].
      * apply list_elem_of_fmap in Hin as ([id [type definition]] & -> & Hin).
        destruct (Hpentries _ _ Hin) as (procedureModel' & Hbuilt & Hlookup').
        simpl in *. rewrite Hlookup in Hlookup'. injection Hlookup' as <-.
        exists id, definition. split.
        -- apply elem_of_procedureEntries in Hin as [[_ Hin] | [_ Hin]]; auto.
        -- by apply (Hpkeeps _ _ _ Hbuilt).
      * by rewrite (Hpother _ Hnotin), Hprocedures, lookup_empty in Hlookup.
  - intros [(airwayName & fixNames & Hin & Hmentioned)
           | (procedureId & definition & Hin & Hmentioned)].
    + left. destruct (Haentries _ _ Hin) as (w' & airwayModel & Hbuilt & Hlookup).
      exists airwayName, airwayModel. split; [done |].
      by apply (Hakeeps _ _ _ _ Hbuilt).
    + right.
      assert (exists type,
                (procedureId, (type, definition))
                  ∈ procedureEntries (sids airportJson) (stars airportJson))
        as (type & Hentry).
      { destruct Hin as [Hin | Hin].
        - exists SID. apply elem_of_procedureEntries. by left.
        - exists STAR. apply elem_of_procedureEntries. by right. }
      destruct (Hpentries _ _ Hentry) as (procedureModel & Hbuilt & Hlookup).
      exists procedureId, procedureModel. split; [done |].
      by apply (Hpkeeps _ _ _ Hbuilt).
Qed.

(** C8.  Undefined fixes are reported and are not fatal.  Take a library
    whose two collections are empty, as they are on a new library and after
    [reset], and an airport file whose reference position and fixes are
    accepted, whose airway and procedure models can be built, and whose
    airway names and procedure identifiers are distinct and are no names of
    properties of [Object.prototype].  Then [init] returns, whatever fix
    names the airways and procedures mention and whether or not the fix
    collection knows them.  With models that keep the fix names they were
    built from, the list that [init] computes holds exactly the names that
    some airway, SID or STAR of the file mentions and that the fix collection
    does not know, each once, in ascending order.  When the list is empty
    nothing is written to the console; otherwise one warning with the list
    is.  The scan itself never throws. *)
Theorem undefined_fixes_are_reported_not_fatal
  (airportJson : AirportJson) (w : World)
  (fixNamesOf : ProcedureDefinition -> list string) :
  _airwayCollection (library w) = ∅ ->
  _procedureCollection (library w) = ∅ ->
  hasThrown ((_initializeReferencePosition airportJson ;;
              _initializeFixCollection (fixes airportJson)) w) = false ->
  (forall name fixNames w',
     (name, fixNames) ∈ airways airportJson ->
     exists airwayModel, newAirwayModel name fixNames w' = Normal airwayModel) ->
  (forall id definition,
     (id, definition) ∈ sids airportJson ->
     exists procedureModel, newProcedureModel SID definition = Normal procedureModel) ->
  (forall id definition,
     (id, definition) ∈ stars airportJson ->
     exists procedureModel, newProcedureModel STAR definition = Normal procedureModel) ->
  airwayModelKeepsFixNames ->
  procedureModelKeepsFixNames fixNamesOf ->
  NoDup (airways airportJson).*1 ->
  NoDup ((sids airportJson).*1 ++ (stars airportJson).*1) ->
  (forall name,
     name ∈ (airways airportJson).*1
              ++ (sids airportJson).*1 ++ (stars airportJson).*1 ->
     inherited name = false) ->
  let mentioned (fixName : string) :=
    (exists airwayName fixNames,
       (airwayName, fixNames) ∈ airways airportJson /\ fixName ∈ fixNames)
    \/ (exists procedureId definition,
          ((procedureId, definition) ∈ sids airportJson
           \/ (procedureId, definition) ∈ stars airportJson)
          /\ fixName ∈ fixNamesOf definition) in
  exists w1,
    init airportJson w = Return tt w1
    /\ let missing := missingFixes w1 in
       StronglySorted String.le missing
       /\ NoDup missing
       /\ (forall fixName,
             fixName ∈ missing <->
             mentioned fixName /\ findFixByName fixName w1 = None)
       /\ console w1 =
            match missing with
            | [] => console w
            | _ :: _ => console w ++ [UndefinedFixesWarning missing]
            end
       /\ (forall w', hasThrown (_showConsoleWarningForUndefinedFixes w') = false).
Proof.
  intros Hairways Hprocedures Hprelude Hairway Hsid Hstar Hakeeps Hpkeeps
    Hanodup Hpnodup Hown mentioned.
  destruct (init_returns airportJson w) as (w1 & Hinit); try done.
  exists w1. split; [exact Hinit |].
  pose proof (referenced_after_load _ _ _ fixNamesOf Hairways Hprocedures
                Hakeeps Hpkeeps Hinit) as Hreferenced.
  pose proof Hinit as Hscan. rewrite init_build_then_scan in Hscan.
  destruct ((_initializeReferencePosition airportJson ;;
             _initializeFixCollection (fixes airportJson) ;;
             _initializeAirwayCollection (airways airportJson) ;;
             _initializeProcedureCollection (sids airportJson) (stars airportJson)) w)
    as [[] wb | e wb] eqn:Hbuild; [| discriminate].
  destruct (init_reports_referenced_fixes airportJson w) as (Hnever & _ & Hreport).
  rewrite Hbuild in Hreport.
  destruct (Hreport wb eq_refl) as (Hinit' & Hsorted & Hnodup & Hmissing & Hconsole).
  rewrite Hinit in Hinit', Hconsole. injection Hinit' as Hw1. simpl in Hconsole.
  assert (missingFixes w1 = missingFixes wb
          /\ (forall fixName, findFixByName fixName w1 = findFixByName fixName wb)
          /\ (forall fixName, referenced wb fixName <-> referenced w1 fixName))
    as (Hsame & Hfind & Hlibrary).
  { assert (forall message,
              missingFixes (console_warn message wb) = missingFixes wb) as Hwarned
      by reflexivity.
    rewrite Hw1. destruct (missingFixes wb) eqn:Hlist; [by rewrite Hlist |].
    split_and!; [apply Hwarned | done | done]. }
  cbv zeta. rewrite Hsame. split_and!; try done.
  intros fixName. rewrite Hmissing, Hfind, Hlibrary, Hreferenced. done.
Qed.

(** X15. What a library holds after a load that went through, when its two
    collections were empty before, as they are on a new library and after
    [reset].  [hasAirway] holds of the airway names of the file and of the
    names of the properties of [Object.prototype], and of no other;
    [getAirway] gives, for every airway of the file, the model that
    [AirwayModel] built from that entry, and null for any other name that is
    no such property name.  The same holds of [hasProcedure] and
    [getProcedure] with the SIDs and STARs of the file, each built with its
    own type. *)
Theorem loaded_library_answers_from_the_file
  (airportJson : AirportJson) (w w1 : World) :
  _airwayCollection (library w) = ∅ ->
  _procedureCollection (library w) = ∅ ->
  init airportJson w = Return tt w1 ->
  (forall name,
     hasAirway name w1
     = Normal (bool_decide (name ∈ (airways airportJson).*1) || inherited name))
  /\ (forall name fixNames,
        (name, fixNames) ∈ airways airportJson ->
        exists w' airwayModel,
          newAirwayModel name fixNames w' = Normal airwayModel
          /\ getAirway name w1 = Normal (Some (Own airwayModel)))
  /\ (forall name,
        name ∉ (airways airportJson).*1 -> inherited name = false ->
        getAirway name w1 = Normal None)
  /\ (forall id,
        hasProcedure id w1
        = Normal (bool_decide (id ∈ (sids airportJson).*1 ++ (stars airportJson).*1)
                  || inherited id))
  /\ (forall id definition,
        (id, definition) ∈ sids airportJson ->
        exists procedureModel,
          newProcedureModel SID definition = Normal procedureModel
          /\ getProcedure id w1 = Normal (Some (Own procedureModel)))
  /\ (forall id definition,
        (id, definition) ∈ stars airportJson ->
        exists procedureModel,
          newProcedureModel STAR definition = Normal procedureModel
          /\ getProcedure id w1 = Normal (Some (Own procedureModel)))
  /\ (forall id,
        id ∉ (sids airportJson).*1 ++ (stars airportJson).*1 ->
        inherited id = false ->
        getProcedure id w1 = Normal None).
Proof.
  intros Hairways Hprocedures Hinit.
  destruct (init_contents _ _ _ Hinit)
    as ((_ & _ & Haother & Haentries) & (_ & _ & Hpother & Hpentries)).
  rewrite procedureEntries_keys in Hpother.
  assert (forall name, is_Some (_airwayCollection (library w1) !! name)
                       <-> name ∈ (airways airportJson).*1) as Hakeys.
  { intros name. split.
    - intros Hsome. destruct (decide (name ∈ (airways airportJson).*1)); [done |].
      rewrite (Haother name), Hairways, lookup_empty in Hsome; [| done].
      by destruct Hsome.
    - intros ([name' fixNames] & -> & Hin)%list_elem_of_fmap.
      destruct (Haentries _ _ Hin) as (_ & model & _ & Hlookup).
      simpl. rewrite Hlookup. by eexists. }
  assert (forall id, is_Some (_procedureCollection (library w1) !! id)
                     <-> id ∈ (sids airportJson).*1 ++ (stars airportJson).*1)
    as Hpkeys.
  { intros id. split.
    - intros Hsome.
      destruct (decide (id ∈ (sids airportJson).*1 ++ (stars airportJson).*1));
        [done |].
      rewrite (Hpother id), Hprocedures, lookup_empty in Hsome; [| done].
      by destruct Hsome.
    - rewrite <- procedureEntries_keys.
      intros ([id' typed] & -> & Hin)%list_elem_of_fmap.
      destruct (Hpentries _ _ Hin) as (model & _ & Hlookup).
      simpl. rewrite Hlookup. by eexists. }
  assert (forall id type definition,
            (id, (type, definition))
              ∈ procedureEntries (sids airportJson) (stars airportJson) ->
            exists procedureModel,
              newProcedureModel type definition = Normal procedureModel
              /\ getProcedure id w1 = Normal (Some (Own procedureModel))) as Hget.
  { intros id type definition Hin.
    destruct (Hpentries _ _ Hin) as (model & Hbuilt & Hlookup).
    exists model. split; [done |].
    unfold getProcedure, hasProcedure, getProperty, js_in. simpl.
    rewrite Hlookup. rewrite bool_decide_eq_true_2 by (by eexists). done. }
  split_and!.
  - intros name. unfold hasAirway. rewrite js_in_stored. do 2 f_equal.
    apply bool_decide_ext, Hakeys.
  - intros name fixNames Hin.
    destruct (Haentries _ _ Hin) as (w' & model & Hbuilt & Hlookup).
    exists w', model. split; [done |].
    unfold getAirway, hasAirway, getProperty, js_in. simpl.
    rewrite Hlookup. rewrite bool_decide_eq_true_2 by (by eexists). done.
  - intros name Hnotin Hinherited.
    unfold getAirway, hasAirway, js_in. simpl. rewrite Hinherited.
    rewrite bool_decide_eq_false_2; [done |]. by rewrite Hakeys.
  - intros id. unfold hasProcedure. rewrite js_in_stored. do 2 f_equal.
    apply bool_decide_ext, Hpkeys.
  - intros id definition Hin. apply Hget, elem_of_procedureEntries. by left.
  - intros id definition Hin. apply Hget, elem_of_procedureEntries. by right.
  - intros id Hnotin Hinherited.
    unfold getProcedure, hasProcedure, js_in. simpl. rewrite Hinherited.
    rewrite bool_decide_eq_false_2; [done |]. by rewrite Hpkeys.
Qed.


Lemma hasThrown_false {S A} (o : Outcome S A) :
  hasThrown o = false <-> exists a s, o = Return a s.
Proof.
  destruct o as [a s | e s]; simpl; split; try done.
  - intros _. by exists a, s.
  - by intros (? & ? & ?).
Qed.

(** X16. When a load goes through.  On a library whose two collections are
    empty, with a reference position and fixes that the collaborators
    accept and with airway and procedure models that can be built, [init]
    returns exactly when the airway names of the file are distinct, the
    identifiers of its SIDs and STARs taken together are distinct, and none
    of these names is the name of a property of [Object.prototype]. *)
Theorem load_goes_through_iff_names_are_distinct
  (airportJson : AirportJson) (w : World) :
  _airwayCollection (library w) = ∅ ->
  _procedureCollection (library w) = ∅ ->
  hasThrown ((_initializeReferencePosition airportJson ;;
              _initializeFixCollection (fixes airportJson)) w) = false ->
  (forall name fixNames w',
     (name, fixNames) ∈ airways airportJson ->
     exists airwayModel, newAirwayModel name fixNames w' = Normal airwayModel) ->
  (forall id definition,
     (id, definition) ∈ sids airportJson ->
     exists procedureModel, newProcedureModel SID definition = Normal procedureModel) ->
  (forall id definition,
     (id, definition) ∈ stars airportJson ->
     exists procedureModel, newProcedureModel STAR definition = Normal procedureModel) ->
  hasThrown (init airportJson w) = false <->
  NoDup (airways airportJson).*1
  /\ NoDup ((sids airportJson).*1 ++ (stars airportJson).*1)
  /\ (forall name,
        name ∈ (airways airportJson).*1
                 ++ (sids airportJson).*1 ++ (stars airportJson).*1 ->
        inherited name = false).
Proof.
  intros Hairways Hprocedures Hprelude Hairway Hsid Hstar. split.
  - intros ([] & w1 & Hinit)%hasThrown_false.
    destruct (init_contents _ _ _ Hinit)
      as ((Hanodup & Hanone & _) & (Hpnodup & Hpnone & _)).
    rewrite procedureEntries_keys in Hpnodup, Hpnone.
    split_and!; try done.
    intros name [Hin | Hin]%elem_of_app.
    + by apply Hanone, js_in_false in Hin as [_ ?].
    + by apply Hpnone, js_in_false in Hin as [_ ?].
  - intros (Hanodup & Hpnodup & Hown).
    destruct (init_returns airportJson w) as (w1 & ->); done.
Qed.

(** X17. The names of the properties of [Object.prototype] are never free.
    For such a name [hasAirway] and [hasProcedure] answer true on every
    library, the empty one included; [getAirway] and [getProcedure] never
    answer null, and answer the inherited property when the collection has
    no entry of that name; and a file that gives such a name to an airway, a
    SID or a STAR cannot be loaded: [init] throws, whatever the library
    holds. *)
Theorem prototype_property_names_are_never_free
  (airportJson : AirportJson) (w : World) (name : string) :
  inherited name = true ->
  hasAirway name w = Normal true
  /\ hasProcedure name w = Normal true
  /\ (exists property, getAirway name w = Normal (Some property))
  /\ (exists property, getProcedure name w = Normal (Some property))
  /\ (_airwayCollection (library w) !! name = None ->
      getAirway name w = Normal (Some (FromPrototype name)))
  /\ (_procedureCollection (library w) !! name = None ->
      getProcedure name w = Normal (Some (FromPrototype name)))
  /\ (name ∈ (airways airportJson).*1
      \/ name ∈ (sids airportJson).*1
      \/ name ∈ (stars airportJson).*1 ->
      hasThrown (init airportJson w) = true).
Proof.
  intros Hinherited.
  assert (forall A (collection : gmap string A), js_in name collection = true) as Hin.
  { intros A collection. unfold js_in. by rewrite Hinherited, orb_true_r. }
  unfold hasAirway, hasProcedure, getAirway, getProcedure, getProperty. simpl.
  rewrite !Hin. simpl. split_and!; try done; try by eexists.
  - by intros ->.
  - by intros ->.
  - intros [Hkey | Hkey].
    + apply list_elem_of_fmap in Hkey as ([name' fixNames] & -> & Hentry).
      apply list_elem_of_split in Hentry as (pre & post & Hsplit).
      eapply init_throws_on_airway; [exact Hsplit |]. right. apply Hin.
    + assert (name ∈ (procedureEntries (sids airportJson) (stars airportJson)).*1)
        as Hentries.
      { rewrite procedureEntries_keys, elem_of_app. done. }
      apply list_elem_of_fmap in Hentries as ([name' typed] & -> & Hentry).
      apply list_elem_of_split in Hentry as (pre & post & Hsplit).
      eapply init_throws_on_procedure; [exact Hsplit |]. right. apply Hin.
Qed.

(** [hasSids] and [hasStars] look for a stored procedure of their type. *)
Lemma has_procedure_of_type (type : PROCEDURE_TYPE) (w : World) :
  (0 <? Z.of_nat
          (length (Lodash._filter (_procedureCollection (library w))
                     (fun procedure => bool_decide (procedureType procedure = type)))))
  = true
  <-> exists id procedureModel,
        _procedureCollection (library w) !! id = Some procedureModel
        /\ procedureType procedureModel = type.
Proof.
  unfold Lodash._filter. rewrite Z.ltb_lt. split.
  - destruct (List.filter _ _) as [|procedureModel others] eqn:Hfilter;
      [simpl; lia |].
    intros _.
    assert (procedureModel ∈ procedureModel :: others) as Hin
      by (apply elem_of_cons; by left).
    rewrite <- Hfilter in Hin.
    apply list_elem_of_In, filter_In in Hin as [Hin Htype].
    apply list_elem_of_In, list_elem_of_fmap in Hin as ([id m] & -> & Hin).
    apply elem_of_map_to_list in Hin. apply bool_decide_eq_true in Htype.
    by exists id, m.
  - intros (id & procedureModel & Hlookup & Htype).
    assert (procedureModel
              ∈ List.filter (fun procedure => bool_decide (procedureType procedure = type))
                  (map_to_list (_procedureCollection (library w))).*2) as Hin.
    { apply list_elem_of_In, filter_In. split.
      - apply list_elem_of_In, list_elem_of_fmap. exists (id, procedureModel).
        split; [done |]. by apply elem_of_map_to_list.
      - by apply bool_decide_eq_true. }
    destruct (List.filter _ _); [by apply elem_of_nil in Hin | simpl; lia].
Qed.

(** X18. [hasSids] and [hasStars] after a load that went through on a
    library without procedures, for a [ProcedureModel] whose
    [procedureType] is the type it was built with: [hasSids] answers true
    exactly when the file defines a SID, and [hasStars] exactly when it
    defines a STAR. *)
Theorem hasSids_and_hasStars_reflect_the_file
  (airportJson : AirportJson) (w w1 : World) :
  (forall type definition procedureModel,
     newProcedureModel type definition = Normal procedureModel ->
     procedureType procedureModel = type) ->
  _procedureCollection (library w) = ∅ ->
  init airportJson w = Return tt w1 ->
  (hasSids w1 = Normal true <-> sids airportJson <> [])
  /\ (hasStars w1 = Normal true <-> stars airportJson <> [])
  /\ (hasSids w1 = Normal false <-> sids airportJson = [])
  /\ (hasStars w1 = Normal false <-> stars airportJson = []).
Proof.
  intros Htyped Hprocedures Hinit.
  destruct (init_contents _ _ _ Hinit) as (_ & (_ & _ & Hother & Hentries)).
  assert (forall type,
            (exists id procedureModel,
               _procedureCollection (library w1) !! id = Some procedureModel
               /\ procedureType procedureModel = type)
            <-> exists id definition,
                  (id, (type, definition))
                    ∈ procedureEntries (sids airportJson) (stars airportJson))
    as Hstored.
  { intros type. split.
    - intros (id & procedureModel & Hlookup & Htype).
      destruct (decide (id ∈ (procedureEntries (sids airportJson)
                                (stars airportJson)).*1)) as [Hin | Hnotin].
      + apply list_elem_of_fmap in Hin as ([id' [type' definition]] & -> & Hin).
        destruct (Hentries _ _ Hin) as (procedureModel' & Hbuilt & Hlookup').
        simpl in *. rewrite Hlookup in Hlookup'. injection Hlookup' as <-.
        rewrite (Htyped _ _ _ Hbuilt) in Htype. subst type'. by exists id', definition.
      + by rewrite (Hother _ Hnotin), Hprocedures, lookup_empty in Hlookup.
    - intros (id & definition & Hin).
      destruct (Hentries _ _ Hin) as (procedureModel & Hbuilt & Hlookup).
      exists id, procedureModel. split; [done |]. exact (Htyped _ _ _ Hbuilt). }
  assert ((exists id definition,
             (id, (SID, definition))
               ∈ procedureEntries (sids airportJson) (stars airportJson))
          <-> sids airportJson <> []) as Hsids.
  { split.
    - intros (id & definition & [[_ Hin] | [[=] _]]%elem_of_procedureEntries).
      intros Hnil. rewrite Hnil in Hin. by apply elem_of_nil in Hin.
    - destruct (sids airportJson) as [|[id definition] others] eqn:Hlist; [done |].
      intros _. exists id, definition. apply elem_of_procedureEntries. left.
      split; [done |]. apply elem_of_cons. by left. }
  assert ((exists id definition,
             (id, (STAR, definition))
               ∈ procedureEntries (sids airportJson) (stars airportJson))
          <-> stars airportJson <> []) as Hstars.
  { split.
    - intros (id & definition & [[[=] _] | [_ Hin]]%elem_of_procedureEntries).
      intros Hnil. rewrite Hnil in Hin. by apply elem_of_nil in Hin.
    - destruct (stars airportJson) as [|[id definition] others] eqn:Hlist; [done |].
      intros _. exists id, definition. apply elem_of_procedureEntries. right.
      split; [done |]. apply elem_of_cons. by left. }
  pose proof (has_procedure_of_type SID w1) as Hsid.
  pose proof (has_procedure_of_type STAR w1) as Hstar.
  rewrite Hstored, Hsids in Hsid. rewrite Hstored, Hstars in Hstar.
  unfold hasSids, hasStars. cbv zeta.
  destruct (0 <? _) eqn:Hs in |- *; destruct (0 <? _) eqn:Ht in |- *.
  all: rewrite ?Hs, ?Ht in *.
  all: destruct (sids airportJson), (stars airportJson).
  all: split_and!; split; try done; intuition congruence.
Qed.

End LoadedLibraryProperties.

(** ** The emptiness helpers *)

Section EmptyHelperProperties.

Import EmptyHelpers.

(** X19. The three emptiness helpers, by the kind of value.
    [isEmptyObject] holds of the empty array, the object without keys and
    the function without keys, and of nothing else.  [isEmptyObjectOrArray]
    fails only for an object or a function that has a key, and
    [isEmptyOrNotArray] only for an array that has an item.  On a value that
    is no object (undefined, null, a boolean, a number, a string)
    [isEmptyObject] is false and the other two are true.  Whenever
    [isEmptyObject] holds the other two hold, and whenever
    [isEmptyOrNotArray] fails [isEmptyObjectOrArray] holds. *)
Theorem emptiness_helpers_by_kind_of_value (value : JsValue) :
  (isEmptyObject value = true <->
   value = VArray [] \/ value = VObject [] \/ value = VFunction [])
  /\ (isEmptyObjectOrArray value = false <->
      exists key keys, value = VObject (key :: keys) \/ value = VFunction (key :: keys))
  /\ (isEmptyOrNotArray value = false <->
      exists item items, value = VArray (item :: items))
  /\ (_isObject value = false ->
      isEmptyObject value = false
      /\ isEmptyObjectOrArray value = true
      /\ isEmptyOrNotArray value = true)
  /\ (isEmptyObject value = true ->
      isEmptyObjectOrArray value = true /\ isEmptyOrNotArray value = true)
  /\ (isEmptyOrNotArray value = false ->
      isEmptyObject value = false /\ isEmptyObjectOrArray value = true).
Proof.
  unfold isEmptyObject, isEmptyObjectOrArray, isEmptyOrNotArray.
  destruct value as [| | b | n | s | [|item items] | [|key keys] | [|key keys]];
    simpl; split_and!; try done;
    try (split; [done | intros [? | [? | ?]]; done]);
    try (split; [done | intros (? & ? & [? | ?]); done]);
    try (split; [done | intros (? & ? & ?); done]);
    try (split; [intros _ | done]; eauto).
Qed.

End EmptyHelperProperties.

(** ** Concrete runs on the small airport *)

(** A method that has not thrown has returned, in the state it has left. *)
Lemma returned_outcome {S} (o : Outcome S unit) :
  hasThrown o = false -> o = Return tt (finalState o).
Proof. by destruct o as [[] s | e s]. Qed.

(** C1 on the small airport, where [CLAYT] is a known fix. *)
Lemma restriction_tokens_witness :
  getPositionModelForFixName "CLAYT" = Some (10, 20)
  /\ exists w,
       Lenient.new (DataArray ["CLAYT"; "A50-|S210-"]) = Normal w
       /\ altitudeMaximum w = Num 5000
       /\ altitudeMinimum w = Num (-1)
       /\ speedMaximum w = Num 210
       /\ speedMinimum w = Num (-1).
Proof.
  assert (getPositionModelForFixName "CLAYT" = Some (10, 20)) as Hknown
    by (vm_compute; reflexivity).
  split; [exact Hknown |].
  exact (proj2 (proj2 (proj2 (proj2 (proj2 (proj2 (proj2 (proj2
           restriction_tokens_set_bounds)))))))
           (10, 20) Hknown).
Defined.

(** C2 on a token that carries both the fly-over and the hold marker. *)
Lemma classification_witness :
  Lenient.initArguments (DataString "^@CLAYT") = Normal ("^@CLAYT", "")
  /\ forall w, Lenient.new (DataString "^@CLAYT") = Normal w ->
               (_isFlyOverWaypoint w, _isHoldWaypoint w, _isVectorWaypoint w)
               = (true, false, false).
Proof.
  split; [reflexivity |].
  exact (proj1 (proj2 (proj2
           (classification_first_marker_wins
              (DataString "^@CLAYT") "^@CLAYT" "" eq_refl)))).
Defined.

(** C3, counterexample: for the token [1#2] the digits after the marker are
    2, and [getVector] gives 12 degrees in radians. *)
Lemma heading_before_marker_counterexample :
  exists w,
    Lenient.new (DataString "1#2") = Normal w
    /\ Stated.classify "1#2" = Stated.Vector
    /\ Lenient.getVector w = Some (degreesToRadians (Num 12))
    /\ Stated.headingAfterPoundSign "1#2" = degreesToRadians (Num 2)
    /\ Lenient.getVector w <> Some (Stated.headingAfterPoundSign "1#2").
Proof.
  eexists. split; [vm_compute; reflexivity |].
  split; [vm_compute; reflexivity |].
  split; [reflexivity |].
  split; [reflexivity |].
  change (Some (degreesToRadians (Num 12)) <> Some (degreesToRadians (Num 2))).
  unfold degreesToRadians. intros [= Heq]. pose proof PI_RGT_0. lra.
Qed.

(** C3 on the token of a 270 degree heading. *)
Lemma vector_heading_witness :
  Stated.classify "#270" = Stated.Vector
  /\ exists w radians,
       Lenient.new (DataString "#270") = Normal w
       /\ _isVectorWaypoint w = true
       /\ _positionModel w = None
       /\ Lenient.getVector w = Some (RNum radians)
       /\ (4712 / 1000 < radians < 4713 / 1000)%R.
Proof.
  assert (Stated.classify "#270" = Stated.Vector) as Hclass by reflexivity.
  split; [exact Hclass |].
  destruct (vector_waypoint_heading "#270" Hclass)
    as ((Hexists & Hfields) & _ & _ & _ & (radians & Hradians & Hbounds)).
  destruct Hexists as [w Hnew].
  destruct (Hfields (DataString "#270") "" w eq_refl Hnew) as (Hv & Hp & _ & Hvector).
  exists w, radians.
  split; [exact Hnew |]. split; [exact Hv |]. split; [exact Hp |].
  split; [by rewrite Hvector, Hradians | exact Hbounds].
Defined.

(** C4 on a name the small airport does not have. *)
Lemma position_witness :
  Lenient.initArguments (DataString "NOFIX") = Normal ("NOFIX", "")
  /\ Lenient.new (DataString "NOFIX") = Thrown (ExpectedKnownFix "NOFIX")
  /\ Strict.new (DataString "NOFIX") = Thrown (ExpectedKnownFix "NOFIX").
Proof.
  split; [reflexivity |].
  destruct (position_resolved_or_construction_throws (DataString "NOFIX") "NOFIX" ""
              eq_refl) as ((_ & Hlenient & _) & (_ & Hstrict & _)).
  split.
  - apply Hlenient; [by vm_compute | reflexivity | by vm_compute].
  - apply Hstrict; [by vm_compute | reflexivity | by vm_compute].
Defined.

(** C5 on a vector waypoint as receiver. *)
Lemma strict_bearing_distance_witness :
  _isVectorWaypoint Fixture.heading270 = true
  /\ Strict.calculateBearingToWaypoint Fixture.heading270 (ArgWaypoint Fixture.clayt)
     = Thrown ExpectedNonVectorWaypoints
  /\ Strict.calculateDistanceToWaypoint Fixture.heading270 (ArgWaypoint Fixture.clayt)
     = Thrown ExpectedNonVectorWaypoints.
Proof.
  split; [reflexivity |].
  exact (proj2 (strict_bearing_distance_throw Fixture.heading270
                  (ArgWaypoint Fixture.clayt) (or_intror (or_introl eq_refl)))).
Defined.

(** C6 on a vector waypoint that is reset and initialised as a hold at
    [CLAYT]. *)
Lemma reset_then_init_witness :
  exists w,
    Lenient.new (DataString "@CLAYT") = Normal w
    /\ _isHoldWaypoint w = true
    /\ Lenient.init (DataString "@CLAYT") (Lenient.reset Fixture.heading270)
       = Return tt w.
Proof.
  eexists. split; [vm_compute; reflexivity |]. split; [reflexivity |].
  apply (proj1 (proj2 (proj2 (proj2 (proj2 (proj2 (proj2
           (reset_then_init_equals_new Fixture.heading270)))))))
           (DataString "@CLAYT")).
  vm_compute. reflexivity.
Defined.


(** C7 on the airport that defines [KEPEC1] as a SID and as a STAR. *)
Lemma repeated_procedure_witness :
  ("KEPEC1", ["BOACH"]) ∈ sids Fixture.airportWithRepeatedProcedure
  /\ ("KEPEC1", ["KEPEC"; "CLAYT"]) ∈ stars Fixture.airportWithRepeatedProcedure
  /\ hasThrown (Navigation.init Fixture.airportWithRepeatedProcedure Fixture.freshWorld)
     = true.
Proof.
  assert (("KEPEC1", ["BOACH"]) ∈ sids Fixture.airportWithRepeatedProcedure) as Hsid
    by (apply elem_of_cons; by left).
  assert (("KEPEC1", ["KEPEC"; "CLAYT"]) ∈ stars Fixture.airportWithRepeatedProcedure)
    as Hstar by (apply elem_of_cons; by left).
  split; [exact Hsid |]. split; [exact Hstar |].
  exact (proj2 (proj2 (proj2 (proj2 repeated_definition_throws_at_load)))
           Fixture.airportWithRepeatedProcedure "KEPEC1" _ _ Fixture.freshWorld
           Hsid Hstar).
Defined.

(** The models of the small airport keep the fix names they were built
    from. *)
Lemma fixture_airway_model_keeps_fix_names : airwayModelKeepsFixNames.
Proof.
  intros airwayName fixNames w airwayModel [= <-] fixName. simpl.
  rewrite list_elem_of_fmap. split.
  - by intros (name & [= ->] & Hin).
  - intros Hin. by exists fixName.
Qed.

Lemma fixture_procedure_model_keeps_fix_names :
  procedureModelKeepsFixNames (fun definition => definition).
Proof.
  intros type definition procedureModel [= <-] fixName. simpl.
  rewrite list_elem_of_fmap. split.
  - by intros (name & [= ->] & Hin).
  - intros Hin. by exists fixName.
Qed.

(** The names of the small airport are distinct and none is inherited. *)
Lemma fixture_names_are_distinct :
  NoDup (airways Fixture.airport).*1
  /\ NoDup ((sids Fixture.airport).*1 ++ (stars Fixture.airport).*1)
  /\ forall name,
       name ∈ (airways Fixture.airport).*1
                ++ (sids Fixture.airport).*1 ++ (stars Fixture.airport).*1 ->
       inherited name = false.
Proof.
  split_and!.
  - refine (bool_decide_unpack _ _). vm_compute. exact I.
  - refine (bool_decide_unpack _ _). vm_compute. exact I.
  - intros name Hin. simpl in Hin.
    repeat (apply elem_of_cons in Hin as [-> | Hin]; [reflexivity |]).
    by apply elem_of_nil in Hin.
Qed.

(** C8 on the small airport: the load goes through and warns about the two
    fixes that its airways and procedures mention and that are not among its
    fixes. *)
Lemma undefined_fixes_witness :
  let loaded := Navigation.init Fixture.airport Fixture.freshWorld in
  airwayModelKeepsFixNames
  /\ procedureModelKeepsFixNames (fun definition => definition)
  /\ NoDup (airways Fixture.airport).*1
  /\ NoDup ((sids Fixture.airport).*1 ++ (stars Fixture.airport).*1)
  /\ loaded = Return tt (finalState loaded)
  /\ Navigation.missingFixes (finalState loaded) = ["MISEN"; "TRALR"]
  /\ console (finalState loaded) = [UndefinedFixesWarning ["MISEN"; "TRALR"]].
Proof.
  intros loaded.
  destruct fixture_names_are_distinct as (Hairways & Hprocedures & Hown).
  split; [exact fixture_airway_model_keeps_fix_names |].
  split; [exact fixture_procedure_model_keeps_fix_names |].
  split; [exact Hairways |]. split; [exact Hprocedures |].
  assert (hasThrown
            ((Navigation._initializeReferencePosition Fixture.airport ;;
              Navigation._initializeFixCollection (fixes Fixture.airport))
               Fixture.freshWorld) = false) as Hprelude
    by (vm_compute; reflexivity).
  destruct (undefined_fixes_are_reported_not_fatal Fixture.airport Fixture.freshWorld
              (fun definition => definition) eq_refl eq_refl Hprelude
              (fun name fixNames w' _ => ex_intro _ _ eq_refl)
              (fun id definition _ => ex_intro _ _ eq_refl)
              (fun id definition _ => ex_intro _ _ eq_refl)
              fixture_airway_model_keeps_fix_names
              fixture_procedure_model_keeps_fix_names
              Hairways Hprocedures Hown)
    as (w1 & Hinit & _ & _ & _ & Hconsole & _).
  assert (loaded = Return tt (finalState loaded)) as Hloaded.
  { unfold loaded. by rewrite Hinit. }
  assert (w1 = finalState loaded) as ->.
  { unfold loaded. by rewrite Hinit. }
  assert (Navigation.missingFixes (finalState loaded) = ["MISEN"; "TRALR"])
    as Hmissing by (vm_compute; reflexivity).
  split; [exact Hloaded |]. split; [exact Hmissing |].
  rewrite Hconsole, Hmissing. reflexivity.
Defined.

(** C9, counterexample: on the library as constructed, before any [init],
    the queries return; none throws. *)
Lemma query_before_init_counterexample :
  Navigation.hasAirway "V587" Fixture.freshWorld = Normal false
  /\ Navigation.hasProcedure "KEPEC1" Fixture.freshWorld = Normal false
  /\ Navigation.getAirway "V587" Fixture.freshWorld = Normal None
  /\ Navigation.getProcedure "KEPEC1" Fixture.freshWorld = Normal None
  /\ Navigation.hasSids Fixture.freshWorld = Normal false
  /\ Navigation.hasStars Fixture.freshWorld = Normal false
  /\ ~ (exists e, Navigation.hasAirway "V587" Fixture.freshWorld = Thrown e).
Proof.
  split_and!; try (vm_compute; reflexivity).
  intros [e He]. vm_compute in He. discriminate.
Qed.

(** The fix collection of the small airport can be filled once. *)
Lemma fixture_fix_collection_is_filled_once : addItemsOnlyOnce.
Proof.
  intros fixes position collection populated Hadd fixes' position'.
  destruct collection as [items |]; simpl in Hadd; [discriminate |].
  by injection Hadd as <-.
Qed.

(** C9 on the small airport loaded twice, and on an airport without airways
    and procedures loaded twice. *)
Lemma second_init_witness :
  let loaded := Navigation.init Fixture.airport Fixture.freshWorld in
  let filled := Navigation.init Fixture.airportWithoutRoutes Fixture.freshWorld in
  loaded = Return tt (finalState loaded)
  /\ hasThrown (Navigation.init Fixture.airport (finalState loaded)) = true
  /\ filled = Return tt (finalState filled)
  /\ hasThrown (Navigation.init Fixture.airportWithoutRoutes (finalState filled))
     = true.
Proof.
  intros loaded filled.
  assert (loaded = Return tt (finalState loaded)) as Hinit
    by (apply returned_outcome; vm_compute; reflexivity).
  assert (filled = Return tt (finalState filled)) as Hfilled
    by (apply returned_outcome; vm_compute; reflexivity).
  destruct library_keeps_no_initialised_state as (_ & _ & _ & Hrepeats & Honce).
  split; [exact Hinit |]. split.
  { apply (Hrepeats Fixture.airport Fixture.freshWorld (finalState loaded) Hinit).
    left. discriminate. }
  split; [exact Hfilled |].
  exact (Honce fixture_fix_collection_is_filled_once
           Fixture.airportWithoutRoutes Fixture.airportWithoutRoutes
           Fixture.freshWorld (finalState filled) Hfilled).
Defined.

(** ** Further concrete runs on the small airport *)


(** X2 on a restriction string with a malformed token between two well-formed
    ones: the maximum altitude of the first token is there when the loop
    throws. *)
Lemma first_malformed_token_witness :
  JsString.split "|" "A50-|X|S210" = ["A50-"] ++ "X" :: ["S210"]
  /\ Lenient.new (DataArray ["NOFIX"; "A50-|X|S210"])
     = Thrown (ExpectedRestrictionPrefix (Some "X"%char))
  /\ Strict.new (DataArray ["NOFIX"; "A50-|X|S210"])
     = Thrown (ExpectedRestrictionPrefix (Some "X"%char))
  /\ exists w1,
       Lenient._applyRestrictions "A50-|X|S210" Fixture.clayt
       = Throw (ExpectedRestrictionPrefix (Some "X"%char)) w1
       /\ altitudeMaximum w1 = Num 5000.
Proof.
  assert (JsString.split "|" "A50-|X|S210" = ["A50-"] ++ "X" :: ["S210"]) as Hsplit
    by reflexivity.
  split; [exact Hsplit |].
  destruct (first_malformed_token_throws "NOFIX" "A50-|X|S210" ["A50-"] ["S210"] "X"
              Fixture.clayt ltac:(discriminate) Hsplit
              ltac:(constructor; [by left | constructor])
              ltac:(discriminate) ltac:(discriminate))
    as (Hlenient & Hstrict & (w1 & Hrun & Hthrow & _) & _).
  split; [exact Hlenient |]. split; [exact Hstrict |].
  exists w1. split; [exact Hthrow |].
  pose proof (f_equal finalState Hthrow) as Hstate. simpl in Hstate.
  rewrite <- Hstate. vm_compute. reflexivity.
Defined.

(** X3 on a restriction string that ends with the separator. *)
Lemma empty_restriction_token_witness :
  (exists a, "A50|" = a +:+ "|")
  /\ EmptyString ∈ JsString.split "|" "A50|"
  /\ exists received,
       received <> Some "A"%char
       /\ received <> Some "S"%char
       /\ Lenient.new (DataArray ["CLAYT"; "A50|"])
          = Thrown (ExpectedRestrictionPrefix received)
       /\ Strict.new (DataArray ["CLAYT"; "A50|"])
          = Thrown (ExpectedRestrictionPrefix received).
Proof.
  assert (exists a, "A50|" = a +:+ "|") as Hshape by (by exists "A50").
  split; [exact Hshape |].
  exact (empty_restriction_token_throws "CLAYT" "A50|" (or_intror (or_introl Hshape))).
Defined.

(** X4 on a waypoint with a maximum altitude and a maximum speed. *)
Lemma restriction_queries_witness :
  let w :=
    finalState (Lenient.init (DataArray ["CLAYT"; "A50-|S210-"])
                  Lenient.initialProperties) in
  Lenient.new (DataArray ["CLAYT"; "A50-|S210-"]) = Normal w
  /\ Lenient.hasAltitudeRestriction w = true
  /\ exists token,
       token ∈ JsString.split "|" "A50-|S210-"
       /\ JsString.first token = Some "S"%char.
Proof.
  intros w.
  assert (Lenient.new (DataArray ["CLAYT"; "A50-|S210-"]) = Normal w) as Hnew
    by (vm_compute; reflexivity).
  split; [exact Hnew |].
  destruct (restriction_queries (DataArray ["CLAYT"; "A50-|S210-"]) "CLAYT"
              "A50-|S210-" w eq_refl (or_introl Hnew)) as (Haltitude & Hspeed & _).
  split.
  - apply Haltitude. exists "A50-". split; [| reflexivity].
    simpl. apply elem_of_cons. by left.
  - apply Hspeed. vm_compute. reflexivity.
Defined.

(** X5 on a waypoint without restrictions. *)
Lemma altitude_comparisons_witness :
  let w := finalState (Lenient.init (DataString "CLAYT") Lenient.initialProperties) in
  Lenient.new (DataString "CLAYT") = Normal w
  /\ Lenient.hasMaximumAltitudeBelow w (Num 3000) = false
  /\ Lenient.hasMinimumAltitudeAbove w (Num 3000) = false.
Proof.
  intros w.
  assert (Lenient.new (DataString "CLAYT") = Normal w) as Hnew
    by (vm_compute; reflexivity).
  split; [exact Hnew |].
  destruct (altitude_comparisons_ignore_unset_bounds (DataString "CLAYT") "CLAYT" ""
              w eq_refl (or_introl Hnew)) as (Hunset & _).
  apply Hunset. intros token Hin. simpl in Hin.
  apply list_elem_of_singleton in Hin. by subst token.
Defined.

(** X6 on the vector waypoint of a 270 degree heading that is initialised
    again, without [reset], with the token [CLAYT]. *)
Lemma init_without_reset_witness :
  Lenient.initArguments (DataString "CLAYT") = Normal ("CLAYT", "")
  /\ let after := finalState (Lenient.init (DataString "CLAYT") Fixture.heading270) in
     _isVectorWaypoint after = true
     /\ _name after = "CLAYT"
     /\ _positionModel after = None
     /\ Lenient.init (DataString "CLAYT") Fixture.heading270 = Return tt after.
Proof.
  split; [reflexivity |].
  destruct (init_without_reset_accumulates (DataString "CLAYT") "CLAYT" ""
              Fixture.heading270 eq_refl)
    as ((_ & _ & Hvector & Hname & _ & Hstays) & _).
  destruct (Hstays eq_refl) as (Hposition & Hreturns).
  cbv zeta. split_and!.
  - exact Hvector.
  - exact Hname.
  - exact Hposition.
  - exact (Hreturns eq_refl).
Defined.

(** X7 on the token [CLAYT], with the underscore as RNAV prefix. *)
Lemma display_name_witness :
  RNAV_WAYPOINT_PREFIX <> "@"%char
  /\ RNAV_WAYPOINT_PREFIX <> "^"%char
  /\ let w :=
       finalState (Lenient.init (DataString "CLAYT") Lenient.initialProperties) in
     Lenient.new (DataString "CLAYT") = Normal w
     /\ Lenient.name w = "CLAYT".
Proof.
  assert (RNAV_WAYPOINT_PREFIX <> "@"%char) as Hhold by discriminate.
  assert (RNAV_WAYPOINT_PREFIX <> "^"%char) as Hfly by discriminate.
  split; [exact Hhold |]. split; [exact Hfly |].
  intros w.
  assert (Lenient.new (DataString "CLAYT") = Normal w) as Hnew
    by (vm_compute; reflexivity).
  split; [exact Hnew |].
  exact (proj1 (display_name_of_constructed_waypoint (DataString "CLAYT") "CLAYT" ""
                  w Hhold Hfly eq_refl (or_introl Hnew))).
Defined.

(** X9 on the waypoints of [CLAYT] and [KEPEC], the first from the earlier
    revision and the second from the later. *)
Lemma bearing_and_distance_witness :
  let this := finalState (Lenient.init (DataString "CLAYT") Lenient.initialProperties) in
  let other := finalState (Strict.init (DataString "KEPEC") Strict.initialProperties) in
  Lenient.new (DataString "CLAYT") = Normal this
  /\ Strict.new (DataString "KEPEC") = Normal other
  /\ exists position position',
       getPositionModelForFixName "CLAYT" = Some position
       /\ getPositionModelForFixName "KEPEC" = Some position'
       /\ Strict.calculateBearingToWaypoint this (ArgWaypoint other)
          = bearingToPosition position (Some position')
       /\ Strict.calculateDistanceToWaypoint this (ArgWaypoint other)
          = distanceToPosition position (Some position').
Proof.
  intros this other.
  assert (Lenient.new (DataString "CLAYT") = Normal this) as Hthis
    by (vm_compute; reflexivity).
  assert (Strict.new (DataString "KEPEC") = Normal other) as Hother
    by (vm_compute; reflexivity).
  split; [exact Hthis |]. split; [exact Hother |].
  destruct (bearing_and_distance_between_constructed_waypoints
              (DataString "CLAYT") (DataString "KEPEC") "CLAYT" "" "KEPEC" ""
              this other eq_refl eq_refl (or_introl Hthis) (or_intror Hother)
              eq_refl eq_refl)
    as (position & position' & Hp & Hp' & Hbearing & Hdistance & _).
  exists position, position'. by split_and!.
Defined.

(** X10 on the hold waypoint at [CLAYT] and on the same waypoint after
    [reset]. *)
Lemma lenient_hold_parameters_witness :
  let w :=
    finalState (Lenient.init (DataString "@CLAYT") Lenient.initialProperties) in
  Lenient.new (DataString "@CLAYT") = Normal w
  /\ LenientStates.Reachable (Lenient.reset w)
  /\ Lenient.holdParameters (Lenient.reset w) = None
  /\ Lenient.holdParameters (Lenient.reset w) <> Some None.
Proof.
  intros w.
  assert (Lenient.new (DataString "@CLAYT") = Normal w) as Hnew
    by (vm_compute; reflexivity).
  assert (LenientStates.Reachable (Lenient.reset w)) as Hreach.
  { apply LenientStates.reached_by_reset.
    exact (LenientStates.reached_by_new (DataString "@CLAYT") w Hnew). }
  split; [exact Hnew |]. split; [exact Hreach |].
  destruct (lenient_hold_parameters_follow_the_flag (Lenient.reset w) Hreach)
    as (_ & Hundefined & _ & Hnull).
  split; [by apply Hundefined | exact Hnull].
Defined.

(** X11 on the hold waypoint at [CLAYT] whose hold has been deactivated. *)
Lemma strict_hold_parameters_witness :
  let w := finalState (Strict.init (DataString "@CLAYT") Strict.initialProperties) in
  Strict.new (DataString "@CLAYT") = Normal w
  /\ StrictHold.Reachable (Strict.deactivateHold w)
  /\ is_Some (_holdParameters (Strict.deactivateHold w))
  /\ exists after, StrictHold.resetHoldTimer (Strict.deactivateHold w) = Normal after.
Proof.
  intros w.
  assert (Strict.new (DataString "@CLAYT") = Normal w) as Hnew
    by (vm_compute; reflexivity).
  assert (StrictHold.Reachable (Strict.deactivateHold w)) as Hreach.
  { apply StrictHold.reach_deactivateHold.
    exact (StrictHold.reach_new (DataString "@CLAYT") w Hnew). }
  split; [exact Hnew |]. split; [exact Hreach |].
  destruct (strict_hold_parameters_are_never_null (Strict.deactivateHold w) Hreach)
    as (Hsome & _ & Hreset & _).
  split; [exact Hsome | exact Hreset].
Defined.

(** X12 on the waypoint of [CLAYT], given a timer of 60 and nothing else. *)
Lemma setHoldParameters_witness :
  let patch :=
    {| StrictHold.patch_inboundHeading := None; StrictHold.patch_legLength := None;
       StrictHold.patch_timer := Some (Num 60);
       StrictHold.patch_turnDirection := None |} in
  _holdParameters Fixture.clayt = Some DEFAULT_HOLD_PARAMETERS
  /\ StrictHold.setHoldParameters patch Fixture.clayt
     = Some (set_holdParameters
               (Some (StrictHold.assign DEFAULT_HOLD_PARAMETERS patch)) Fixture.clayt)
  /\ timer (StrictHold.assign DEFAULT_HOLD_PARAMETERS patch) = Num 60.
Proof.
  intros patch. split; [reflexivity |].
  destruct (setHoldParameters_merges_into_current Fixture.clayt
              DEFAULT_HOLD_PARAMETERS patch patch eq_refl) as (Hset & _ & _ & Htimer & _).
  split; [exact Hset | exact Htimer].
Defined.

(** X13 on the waypoint of [CLAYT], with a timer of 60. *)
Lemma hold_timer_witness :
  _holdParameters Fixture.clayt = Some DEFAULT_HOLD_PARAMETERS
  /\ StrictHold.setHoldTimer (StrictHold.TimeNumber (Num 60)) Fixture.clayt
     = StrictHold.TimerSet
         (set_holdParameters
            (Some {| inboundHeading := None; legLength := LegText "1min";
                     timer := Num 60; turnDirection := "right" |})
            Fixture.clayt)
  /\ StrictHold.setHoldTimer StrictHold.TimeOther Fixture.clayt
     = StrictHold.ExpectedNumber.
Proof.
  split; [reflexivity |].
  destruct (hold_timer_is_set_and_reset Fixture.clayt DEFAULT_HOLD_PARAMETERS (Num 60)
              eq_refl) as (Hset & Hother & _).
  split; [exact Hset | exact Hother].
Defined.

(** X15 on the small airport: the airway [V587] is found with its model, and
    no airway [V999]. *)
Lemma loaded_library_witness :
  let loaded := Navigation.init Fixture.airport Fixture.freshWorld in
  loaded = Return tt (finalState loaded)
  /\ (exists w' airwayModel,
        newAirwayModel "V587" ["KEPEC"; "TRALR"; "CLAYT"] w' = Normal airwayModel
        /\ Navigation.getAirway "V587" (finalState loaded)
           = Normal (Some (Own airwayModel)))
  /\ Navigation.getAirway "V999" (finalState loaded) = Normal None.
Proof.
  intros loaded.
  assert (loaded = Return tt (finalState loaded)) as Hinit
    by (apply returned_outcome; vm_compute; reflexivity).
  split; [exact Hinit |].
  destruct (loaded_library_answers_from_the_file Fixture.airport Fixture.freshWorld
              (finalState loaded) eq_refl eq_refl Hinit)
    as (_ & Hfound & Hmissing & _).
  assert (("V587", ["KEPEC"; "TRALR"; "CLAYT"]) ∈ airways Fixture.airport) as Hin
    by (apply elem_of_cons; by left).
  assert ("V999" ∉ (airways Fixture.airport).*1) as Hnotin.
  { apply (bool_decide_unpack _). vm_compute. exact I. }
  split.
  - exact (Hfound "V587" ["KEPEC"; "TRALR"; "CLAYT"] Hin).
  - exact (Hmissing "V999" Hnotin eq_refl).
Defined.

(** X16 on the small airport, loaded on a new library. *)
Lemma load_goes_through_witness :
  NoDup (airways Fixture.airport).*1
  /\ NoDup ((sids Fixture.airport).*1 ++ (stars Fixture.airport).*1)
  /\ hasThrown (Navigation.init Fixture.airport Fixture.freshWorld) = false.
Proof.
  destruct fixture_names_are_distinct as (Hairways & Hprocedures & Hown).
  split; [exact Hairways |]. split; [exact Hprocedures |].
  assert (hasThrown
            ((Navigation._initializeReferencePosition Fixture.airport ;;
              Navigation._initializeFixCollection (fixes Fixture.airport))
               Fixture.freshWorld) = false) as Hprelude
    by (vm_compute; reflexivity).
  exact (proj2 (load_goes_through_iff_names_are_distinct Fixture.airport
                  Fixture.freshWorld eq_refl eq_refl Hprelude
                  (fun name fixNames w' _ => ex_intro _ _ eq_refl)
                  (fun id definition _ => ex_intro _ _ eq_refl)
                  (fun id definition _ => ex_intro _ _ eq_refl))
           (conj Hairways (conj Hprocedures Hown))).
Defined.

(** X17 on the name [constructor]. *)
Lemma prototype_property_name_witness :
  inherited "constructor" = true
  /\ Navigation.hasAirway "constructor" Fixture.freshWorld = Normal true
  /\ Navigation.getAirway "constructor" Fixture.freshWorld
     = Normal (Some (FromPrototype "constructor")).
Proof.
  assert (inherited "constructor" = true) as Hinherited by reflexivity.
  split; [exact Hinherited |].
  destruct (prototype_property_names_are_never_free Fixture.airport Fixture.freshWorld
              "constructor" Hinherited) as (Hhas & _ & _ & _ & Hget & _).
  split; [exact Hhas | exact (Hget eq_refl)].
Defined.

(** X18 on the small airport, which defines one SID and one STAR. *)
Lemma hasSids_and_hasStars_witness :
  let loaded := Navigation.init Fixture.airport Fixture.freshWorld in
  loaded = Return tt (finalState loaded)
  /\ sids Fixture.airport <> []
  /\ Navigation.hasSids (finalState loaded) = Normal true
  /\ Navigation.hasStars (finalState loaded) = Normal true.
Proof.
  intros loaded.
  assert (loaded = Return tt (finalState loaded)) as Hinit
    by (apply returned_outcome; vm_compute; reflexivity).
  split; [exact Hinit |]. split; [discriminate |].
  assert (forall type definition procedureModel,
            newProcedureModel type definition = Normal procedureModel ->
            procedureType procedureModel = type) as Htyped
    by (by intros type definition procedureModel [= <-]).
  destruct (hasSids_and_hasStars_reflect_the_file Fixture.airport Fixture.freshWorld
              (finalState loaded) Htyped eq_refl Hinit) as (Hsids & Hstars & _).
  split.
  - apply (proj2 Hsids). discriminate.
  - apply (proj2 Hstars). discriminate.
Defined.
